(** * common-infra: the bounded-concurrency task execution engine

    A shallow embedding of the two coordination components of the
    repository,

      - [batch.BatchExecutor.Execute]  (src/batch/batch.go), the
        rate-limited batch dispatcher, and
      - [stream.Worker.Start]         (src/stream/stream.go), the channel
        fed worker pool,

    together with the properties their specification states about them.

    Both components are concurrent.  Each is embedded as an executable
    transition system: a state records the program point of the calling
    thread, the goroutines in flight and the shared variables, and a
    schedule (a list of events) says which thread moves next.  Every
    interleaving of the Go program is a schedule; a theorem quantified over
    all schedules holds for every interleaving.

    Conventions of the embedding:
      - a handler is a function from what it sees of its context and its
        item to its result (it returns nil, returns an error or panics); a
        handler call that never returns is a goroutine that never takes its
        step;
      - a goroutine takes one step from the handler call to the end of its
        function: the code after the call touches shared state only under
        [errLock] or inside the group, and the calling thread reads [errs]
        only after [g.Wait()];
      - [context], [errgroup.Group] and [rate.Limiter] are not code of the
        repository; they appear through the behaviour their packages
        document: a derived context is done as soon as its parent is, the
        group keeps the first error and cancels its context on it and when
        [Wait] returns, [SetLimit] makes [Go] block at the limit, and
        [Wait] of the limiter fails on a done context. *)

From Stdlib Require Import String Ascii DecimalString.
From Stdlib Require Import List ZArith Lia Bool Arith PeanoNat Permutation.
From Stdlib Require Import DecimalPos DecimalZ.
Import ListNotations.
Local Open Scope Z_scope.

(** ** Go values shared by the two packages *)

(** The [error] values that occur in the two packages.  The first four are
    made by the libraries the code calls ([context], [x/time/rate]);
    [ErrorString] stands for any error a caller's handler makes; the last
    three are the [fmt.Errorf] wrappers of batch.go. *)
Inductive error : Type :=
| Canceled
| DeadlineExceeded
| ExceedsBurst (burst : Z)
| WouldExceedDeadline
| ErrorString (msg : string)
| RateLimiterError (index : nat) (cause : error)
| ItemFailed (index : nat) (cause : error)
| BatchFinished (count : nat) (first : error).

(** What one call of a handler [func(context.Context, T) error] does: it
    returns [nil], returns an error, or panics with a value. *)
Inductive handler_result : Type :=
| HOk
| HErr (e : error)
| HPanic (v : string).

(** A handler sees its context (here: the context's [Err()], [None] while
    the context is live) and its item. *)
Definition Handler (T : Type) : Type := option error -> T -> handler_result.

Definition is_some {A : Type} (o : option A) : bool :=
  match o with Some _ => true | None => false end.

(** [cancel()] on a context: the first cancellation fixes [Err()]. *)
Definition cancel_with (reason : error) (ctx : option error) : option error :=
  match ctx with
  | Some e => Some e
  | None => Some reason
  end.

Fixpoint remove_index (i : nat) (l : list nat) : list nat :=
  match l with
  | [] => []
  | j :: l' => if Nat.eqb i j then l' else j :: remove_index i l'
  end.

Definition mem_index (i : nat) (l : list nat) : bool := existsb (Nat.eqb i) l.

Module Batch.

(** ** batch.go: configuration *)

(** [rate.Limit]: [rate.Inf] or the conversion of a number of requests per
    second. *)
Inductive Limit : Type :=
| Inf
| PerSecond (rps : Z).

Record BatchConfig : Type := mkConfig {
  Concurrency : Z;
  RateLimit : Limit;
  Burst : Z;
  IgnoreError : bool
}.

Record BatchExecutor : Type := mkExecutor { config : BatchConfig }.

(** An option is a function on a pointer to the configuration: a state
    transformer on the configuration under construction. *)
Definition Option_ : Type := BatchConfig -> BatchConfig.

Definition defaultConfig : BatchConfig :=
  {| Concurrency := 10; RateLimit := Inf; Burst := 1; IgnoreError := false |}.

Definition NewBatchExecutor (opts : list Option_) : BatchExecutor :=
  {| config := fold_left (fun cfg opt => opt cfg) opts defaultConfig |}.

Definition WithConcurrency (n : Z) : Option_ := fun c =>
  if 0 <? n
  then {| Concurrency := n; RateLimit := RateLimit c; Burst := Burst c;
          IgnoreError := IgnoreError c |}
  else c.

Definition WithRateLimit (rps : Z) : Option_ := fun c =>
  if 0 <? rps
  then {| Concurrency := Concurrency c; RateLimit := PerSecond rps;
          Burst := Burst c; IgnoreError := IgnoreError c |}
  else c.

Definition WithBurst (n : Z) : Option_ := fun c =>
  if 0 <? n
  then {| Concurrency := Concurrency c; RateLimit := RateLimit c; Burst := n;
          IgnoreError := IgnoreError c |}
  else c.

Definition WithIgnoreError (ignore : bool) : Option_ := fun c =>
  {| Concurrency := Concurrency c; RateLimit := RateLimit c; Burst := Burst c;
     IgnoreError := ignore |}.

(** The options the package exports. *)
Inductive package_option : Option_ -> Prop :=
| po_concurrency n : package_option (WithConcurrency n)
| po_rate rps : package_option (WithRateLimit rps)
| po_burst n : package_option (WithBurst n)
| po_ignore b : package_option (WithIgnoreError b).

(** ** batch.go: Execute *)

(** Program points of the thread that called [Execute].

    - [PLoop i]: at the head of the loop body for index [i], before the test
      [grpCtx.Err() != nil] (or at the end of the range when [i] is the
      length of [items]);
    - [PLimiter i]: about to call [limiter.Wait(grpCtx)] for index [i];
    - [PGo i]: about to call [g.Go], which blocks while the group is at its
      limit;
    - [PWait]: in [g.Wait()];
    - [PDone r]: [Execute] has returned [r] ([None] is [nil]). *)
Inductive pc : Type :=
| PLoop (i : nat)
| PLimiter (i : nat)
| PGo (i : nat)
| PWait
| PDone (r : option error).

Record state : Type := mkState {
  st_pc : pc;
  (** [limiter]: [None] is the nil pointer, [Some (limit, burst)] the
      result of [rate.NewLimiter]. *)
  st_limiter : option (Limit * Z);
  (** the goroutines started by [g.Go] that have not finished, by index *)
  st_running : list nat;
  (** [grpCtx.Err()] *)
  st_ctx : option error;
  (** [g.err], set once by the group *)
  st_gerr : option error;
  (** [errs], appended under [errLock] *)
  st_errs : list error;
  (** the lines printed by the recover handler: index and panic value *)
  st_log : list (nat * string);
  (** history: the indices handed to [g.Go], in order *)
  st_dispatched : list nat;
  (** history: the handler calls that have completed, in completion order *)
  st_finished : list (nat * handler_result)
}.

(** Scheduling events.
    - [EvMain]: the calling thread runs to its next program point;
    - [EvWaitDeadline]: [limiter.Wait] refuses because the wait would pass
      the context's deadline;
    - [EvFinish i seen]: the goroutine of index [i] completes its handler
      call and its epilogue; [seen] says whether the handler observed the
      context as done;
    - [EvCtxDone timeout]: the context given to [Execute] is cancelled by
      its owner, or its deadline passes. *)
Inductive event : Type :=
| EvMain
| EvWaitDeadline
| EvFinish (i : nat) (seen : bool)
| EvCtxDone (timeout : bool).

(** [rate.Limiter.Wait(ctx)] for one token, as far as its result goes: it
    fails when the burst is below one token or the context is done, and
    otherwise grants the token (after some time). *)
Definition limiter_Wait (burst : Z) (ctx : option error) : option error :=
  if burst <? 1 then Some (ExceedsBurst burst)
  else ctx.

(** [g.SetLimit(n)]: a negative [n] is no limit; otherwise [g.Go] blocks
    while [n] goroutines are active. *)
Definition slot_free (limit : Z) (running : list nat) : bool :=
  (limit <? 0) || (Z.of_nat (length running) <? limit).

Section Execute.

Variable T : Type.
Variable b : BatchExecutor.
Variable items : list T.
Variable handler : Handler T.

Definition set_pc (p : pc) (s : state) : state :=
  {| st_pc := p; st_limiter := st_limiter s; st_running := st_running s;
     st_ctx := st_ctx s; st_gerr := st_gerr s; st_errs := st_errs s;
     st_log := st_log s; st_dispatched := st_dispatched s;
     st_finished := st_finished s |}.

(** The state after [errgroup.WithContext], [g.SetLimit] and the
    construction of the limiter; [ctx] is the [Err()] of the caller's
    context at the call.  On an empty slice [Execute] has already
    returned. *)
Definition Execute_init (ctx : option error) : state :=
  match items with
  | [] =>
      {| st_pc := PDone None; st_limiter := None; st_running := [];
         st_ctx := ctx; st_gerr := None; st_errs := []; st_log := [];
         st_dispatched := []; st_finished := [] |}
  | _ :: _ =>
      {| st_pc := PLoop 0;
         st_limiter :=
           match RateLimit (config b) with
           | Inf => None
           | PerSecond r => Some (PerSecond r, Burst (config b))
           end;
         st_running := [];
         st_ctx := ctx; st_gerr := None; st_errs := []; st_log := [];
         st_dispatched := []; st_finished := [] |}
  end.

(** [g.Go(func() error {...})] once a slot is free. *)
Definition spawn (i : nat) (s : state) : state :=
  {| st_pc := PLoop (S i); st_limiter := st_limiter s;
     st_running := st_running s ++ [i];
     st_ctx := st_ctx s; st_gerr := st_gerr s; st_errs := st_errs s;
     st_log := st_log s; st_dispatched := st_dispatched s ++ [i];
     st_finished := st_finished s |}.

(** The outcome computed after [g.Wait()] has returned. *)
Definition outcome (gerr : option error) (errs : list error) : option error :=
  match gerr with
  | Some err => Some err
  | None =>
      match errs with
      | first :: _ =>
          if IgnoreError (config b)
          then Some (BatchFinished (length errs) first)
          else None
      | [] => None
      end
  end.

(** One step of the calling thread. *)
Definition main_step (s : state) : option state :=
  match st_pc s with
  | PLoop i =>
      match nth_error items i with
      | None => Some (set_pc PWait s)
      | Some _ =>
          if is_some (st_ctx s) then Some (set_pc PWait s)
          else match st_limiter s with
               | Some _ => Some (set_pc (PLimiter i) s)
               | None => Some (set_pc (PGo i) s)
               end
      end
  | PLimiter i =>
      match st_limiter s with
      | None => Some (set_pc (PGo i) s)
      | Some (_, burst) =>
          match limiter_Wait burst (st_ctx s) with
          | Some err => Some (set_pc (PDone (Some (RateLimiterError i err))) s)
          | None => Some (set_pc (PGo i) s)
          end
      end
  | PGo i =>
      if slot_free (Concurrency (config b)) (st_running s)
      then Some (spawn i s)
      else None
  | PWait =>
      match st_running s with
      | [] =>
          Some {| st_pc := PDone (outcome (st_gerr s) (st_errs s));
                  st_limiter := st_limiter s; st_running := [];
                  st_ctx := cancel_with Canceled (st_ctx s);
                  st_gerr := st_gerr s; st_errs := st_errs s;
                  st_log := st_log s; st_dispatched := st_dispatched s;
                  st_finished := st_finished s |}
      | _ :: _ => None
      end
  | PDone _ => None
  end.

(** [limiter.Wait] giving up on the deadline. *)
Definition wait_deadline_step (s : state) : option state :=
  match st_pc s, st_limiter s with
  | PLimiter i, Some (_, burst) =>
      match limiter_Wait burst (st_ctx s) with
      | None => Some (set_pc (PDone (Some (RateLimiterError i WouldExceedDeadline))) s)
      | Some _ => None
      end
  | _, _ => None
  end.

(** The group's reaction to a goroutine that returned [err]: the first one
    is kept in [g.err] and cancels the group's context. *)
Definition group_error (err : error) (s : state) : state :=
  match st_gerr s with
  | Some _ => s
  | None =>
      {| st_pc := st_pc s; st_limiter := st_limiter s;
         st_running := st_running s;
         st_ctx := cancel_with Canceled (st_ctx s);
         st_gerr := Some err; st_errs := st_errs s; st_log := st_log s;
         st_dispatched := st_dispatched s; st_finished := st_finished s |}
  end.

(** The goroutine of index [i] runs the handler and leaves the group. *)
Definition finish_step (i : nat) (seen : bool) (s : state) : option state :=
  if mem_index i (st_running s) then
    match nth_error items i with
    | None => None
    | Some v =>
        let r := handler (if seen then st_ctx s else None) v in
        let s1 :=
          {| st_pc := st_pc s; st_limiter := st_limiter s;
             st_running := remove_index i (st_running s);
             st_ctx := st_ctx s; st_gerr := st_gerr s; st_errs := st_errs s;
             st_log := st_log s; st_dispatched := st_dispatched s;
             st_finished := st_finished s ++ [(i, r)] |} in
        Some
          match r with
          | HOk => s1
          | HPanic p =>
              {| st_pc := st_pc s1; st_limiter := st_limiter s1;
                 st_running := st_running s1;
                 st_ctx := st_ctx s1; st_gerr := st_gerr s1;
                 st_errs := st_errs s1; st_log := st_log s1 ++ [(i, p)];
                 st_dispatched := st_dispatched s1;
                 st_finished := st_finished s1 |}
          | HErr err =>
              if IgnoreError (config b)
              then
                {| st_pc := st_pc s1; st_limiter := st_limiter s1;
                   st_running := st_running s1;
                   st_ctx := st_ctx s1; st_gerr := st_gerr s1;
                   st_errs := st_errs s1 ++ [ItemFailed i err];
                   st_log := st_log s1;
                   st_dispatched := st_dispatched s1;
                   st_finished := st_finished s1 |}
              else group_error err s1
          end
    end
  else None.

(** The caller's context becomes done. *)
Definition ctx_done_step (timeout : bool) (s : state) : option state :=
  match st_ctx s with
  | Some _ => None
  | None =>
      Some {| st_pc := st_pc s; st_limiter := st_limiter s;
              st_running := st_running s;
              st_ctx := Some (if timeout then DeadlineExceeded else Canceled);
              st_gerr := st_gerr s; st_errs := st_errs s; st_log := st_log s;
              st_dispatched := st_dispatched s;
              st_finished := st_finished s |}
  end.

Definition step (ev : event) (s : state) : option state :=
  match ev with
  | EvMain => main_step s
  | EvWaitDeadline => wait_deadline_step s
  | EvFinish i seen => finish_step i seen s
  | EvCtxDone timeout => ctx_done_step timeout s
  end.

(** A schedule run from a state; [None] when an event is not enabled. *)
Fixpoint run (evs : list event) (s : state) : option state :=
  match evs with
  | [] => Some s
  | ev :: evs' =>
      match step ev s with
      | Some s' => run evs' s'
      | None => None
      end
  end.

(** [Execute(ctx, items, handler)] under a schedule. *)
Definition Execute (ctx : option error) (evs : list event) : option state :=
  run evs (Execute_init ctx).

End Execute.

Arguments Execute_init {T} b items ctx.
Arguments main_step {T} b items s.
Arguments finish_step {T} b items handler i seen s.
Arguments step {T} b items handler ev s.
Arguments run {T} b items handler evs s.
Arguments Execute {T} b items handler ctx evs.

End Batch.

Module Stream.

(** ** stream.go: the channel fed worker pool *)

Record Worker (T : Type) : Type := mkWorker {
  concurrency : Z;
  handler : Handler T
}.
Arguments mkWorker {T} _ _.
Arguments concurrency {T} _.
Arguments handler {T} _.

Definition NewStreamWorker {T : Type} (n : Z) (h : Handler T) : Worker T :=
  let n := if n <=? 0 then 1 else n in
  {| concurrency := n; handler := h |}.

(** A worker goroutine is at its [select], inside the handler call for a
    value it received, or has returned (and run [wg.Done]). *)
Inductive worker_state (T : Type) : Type :=
| WSelect
| WHandling (val : T)
| WExited.
Arguments WSelect {T}.
Arguments WHandling {T} _.
Arguments WExited {T}.

(** Program points of the thread that called [Start]: in the spawning loop
    with counter [i], in [wg.Wait()], or returned. *)
Inductive pc : Type :=
| SSpawn (i : nat)
| SWait
| SReturned.

Record state (T : Type) : Type := mkState {
  st_pc : pc;
  (** the workers started so far; the position in the list is [workerID] *)
  st_workers : list (worker_state T);
  (** the values sent on [ch] and not yet received *)
  st_chan : list T;
  (** whether [ch] has been closed *)
  st_closed : bool;
  (** [ctx.Err()] *)
  st_ctx : option error;
  (** the lines printed by the recover handler: worker and panic value *)
  st_log : list (nat * string);
  (** history: worker, value and result of every completed handler call *)
  st_handled : list (nat * T * handler_result)
}.
Arguments mkState {T} _ _ _ _ _ _ _.
Arguments st_pc {T} _.
Arguments st_workers {T} _.
Arguments st_chan {T} _.
Arguments st_closed {T} _.
Arguments st_ctx {T} _.
Arguments st_log {T} _.
Arguments st_handled {T} _.

(** Scheduling events: the calling thread; worker [w] receiving a value,
    completing its handler call, leaving on [ctx.Done()], leaving on the
    closed and drained channel; the producers sending and closing; the
    owner of the context cancelling it. *)
Inductive event (T : Type) : Type :=
| SvMain
| SvRecv (w : nat)
| SvHandled (w : nat) (seen : bool)
| SvCtxExit (w : nat)
| SvClosedExit (w : nat)
| SvSend (val : T)
| SvClose
| SvCtxDone (timeout : bool).
Arguments SvMain {T}.
Arguments SvRecv {T} _.
Arguments SvHandled {T} _ _.
Arguments SvCtxExit {T} _.
Arguments SvClosedExit {T} _.
Arguments SvSend {T} _.
Arguments SvClose {T}.
Arguments SvCtxDone {T} _.

Fixpoint set_worker {T : Type} (w : nat) (x : worker_state T)
  (l : list (worker_state T)) : list (worker_state T) :=
  match l, w with
  | [], _ => []
  | _ :: l', O => x :: l'
  | y :: l', S w' => y :: set_worker w' x l'
  end.

Definition exited {T : Type} (x : worker_state T) : bool :=
  match x with WExited => true | _ => false end.

Section Start.

Variable T : Type.
Variable s0 : Worker T.

(** The state at the call: the caller's context, and the channel as the
    producers have left it so far. *)
Definition Start_init (ctx : option error) (buffered : list T) (closed : bool)
  : state T :=
  {| st_pc := SSpawn 0; st_workers := []; st_chan := buffered;
     st_closed := closed; st_ctx := ctx; st_log := []; st_handled := [] |}.

Definition set_workers (ws : list (worker_state T)) (s : state T) : state T :=
  {| st_pc := st_pc s; st_workers := ws; st_chan := st_chan s;
     st_closed := st_closed s; st_ctx := st_ctx s; st_log := st_log s;
     st_handled := st_handled s |}.

(** One step of the calling thread: the [for] loop with [wg.Add(1)] and
    [go], then [wg.Wait()]. *)
Definition main_step (s : state T) : option (state T) :=
  match st_pc s with
  | SSpawn i =>
      if Z.of_nat i <? concurrency s0
      then Some {| st_pc := SSpawn (S i);
                   st_workers := st_workers s ++ [WSelect];
                   st_chan := st_chan s; st_closed := st_closed s;
                   st_ctx := st_ctx s; st_log := st_log s;
                   st_handled := st_handled s |}
      else Some {| st_pc := SWait; st_workers := st_workers s;
                   st_chan := st_chan s; st_closed := st_closed s;
                   st_ctx := st_ctx s; st_log := st_log s;
                   st_handled := st_handled s |}
  | SWait =>
      if forallb exited (st_workers s)
      then Some {| st_pc := SReturned; st_workers := st_workers s;
                   st_chan := st_chan s; st_closed := st_closed s;
                   st_ctx := st_ctx s; st_log := st_log s;
                   st_handled := st_handled s |}
      else None
  | SReturned => None
  end.

(** [case val, ok := <-ch] with [ok] true. *)
Definition recv_step (w : nat) (s : state T) : option (state T) :=
  match nth_error (st_workers s) w, st_chan s with
  | Some WSelect, val :: rest =>
      Some {| st_pc := st_pc s;
              st_workers := set_worker w (WHandling val) (st_workers s);
              st_chan := rest; st_closed := st_closed s; st_ctx := st_ctx s;
              st_log := st_log s; st_handled := st_handled s |}
  | _, _ => None
  end.

(** The protected call [_ = s.handler(ctx, val)]: whatever it does, the
    worker is back at its [select]. *)
Definition handled_step (w : nat) (seen : bool) (s : state T)
  : option (state T) :=
  match nth_error (st_workers s) w with
  | Some (WHandling val) =>
      let r := handler s0 (if seen then st_ctx s else None) val in
      Some {| st_pc := st_pc s;
              st_workers := set_worker w WSelect (st_workers s);
              st_chan := st_chan s; st_closed := st_closed s;
              st_ctx := st_ctx s;
              st_log := match r with
                        | HPanic p => st_log s ++ [(w, p)]
                        | _ => st_log s
                        end;
              st_handled := st_handled s ++ [(w, val, r)] |}
  | _ => None
  end.

(** [case <-ctx.Done(): return]. *)
Definition ctx_exit_step (w : nat) (s : state T) : option (state T) :=
  match nth_error (st_workers s) w, st_ctx s with
  | Some WSelect, Some _ =>
      Some (set_workers (set_worker w WExited (st_workers s)) s)
  | _, _ => None
  end.

(** [case val, ok := <-ch] with [ok] false. *)
Definition closed_exit_step (w : nat) (s : state T) : option (state T) :=
  match nth_error (st_workers s) w, st_chan s, st_closed s with
  | Some WSelect, [], true =>
      Some (set_workers (set_worker w WExited (st_workers s)) s)
  | _, _, _ => None
  end.

Definition send_step (val : T) (s : state T) : option (state T) :=
  if st_closed s then None
  else Some {| st_pc := st_pc s; st_workers := st_workers s;
               st_chan := st_chan s ++ [val]; st_closed := false;
               st_ctx := st_ctx s; st_log := st_log s;
               st_handled := st_handled s |}.

Definition close_step (s : state T) : option (state T) :=
  if st_closed s then None
  else Some {| st_pc := st_pc s; st_workers := st_workers s;
               st_chan := st_chan s; st_closed := true;
               st_ctx := st_ctx s; st_log := st_log s;
               st_handled := st_handled s |}.

Definition ctx_done_step (timeout : bool) (s : state T) : option (state T) :=
  match st_ctx s with
  | Some _ => None
  | None =>
      Some {| st_pc := st_pc s; st_workers := st_workers s;
              st_chan := st_chan s; st_closed := st_closed s;
              st_ctx := Some (if timeout then DeadlineExceeded else Canceled);
              st_log := st_log s; st_handled := st_handled s |}
  end.

Definition step (ev : event T) (s : state T) : option (state T) :=
  match ev with
  | SvMain => main_step s
  | SvRecv w => recv_step w s
  | SvHandled w seen => handled_step w seen s
  | SvCtxExit w => ctx_exit_step w s
  | SvClosedExit w => closed_exit_step w s
  | SvSend val => send_step val s
  | SvClose => close_step s
  | SvCtxDone timeout => ctx_done_step timeout s
  end.

Fixpoint run (evs : list (event T)) (s : state T) : option (state T) :=
  match evs with
  | [] => Some s
  | ev :: evs' =>
      match step ev s with
      | Some s' => run evs' s'
      | None => None
      end
  end.

(** [s.Start(ctx, ch)] under a schedule. *)
Definition Start (ctx : option error) (buffered : list T) (closed : bool)
  (evs : list (event T)) : option (state T) :=
  run evs (Start_init ctx buffered closed).

End Start.

End Stream.

Module Amount.

(** ** The fixed-point value type (package amount)

    An [Amount] holds a pointer to a [big.Int], the raw value: the amount
    times [Precision].  A [big.Int] is an integer of [Z]; the nil pointer
    of the zero value [Amount{}] is [None]. *)

Definition Precision : Z := 1000000.

Definition zeroBigInt : Z := 0.
Definition precisionBig : Z := Precision.

Record Amount : Type := mkAmount { val : option Z }.

Definition Zero : Amount := {| val := Some zeroBigInt |}.

(** [safe]: the raw value, 0 for the nil pointer. *)
Definition safe (a : Amount) : Z :=
  match val a with
  | None => zeroBigInt
  | Some v => v
  end.

(** [Int] returns a copy of the raw value. *)
Definition Int (a : Amount) : Z :=
  match val a with
  | None => zeroBigInt
  | Some v => v
  end.

Definition IsZero (a : Amount) : bool :=
  match val a with
  | None => true
  | Some v => Z.sgn v =? 0
  end.

Definition Sign (a : Amount) : Z :=
  match val a with
  | None => 0
  | Some v => Z.sgn v
  end.

(** [big.Int.Quo] is the truncated division [Z.quot]. *)
Definition Add (a o : Amount) : Amount := {| val := Some (safe a + safe o) |}.

Definition Sub (a o : Amount) : Amount := {| val := Some (safe a - safe o) |}.

Definition Mul (a o : Amount) : Amount :=
  let tmp := safe a * safe o in
  {| val := Some (Z.quot tmp precisionBig) |}.

Definition Div (a o : Amount) : Amount :=
  if IsZero o then Zero
  else
    let tmp := safe a * precisionBig in
    {| val := Some (Z.quot tmp (safe o)) |}.

Definition MulBy (a : Amount) (k : Z) : Amount :=
  if k =? 0 then Zero
  else {| val := Some (safe a * k) |}.

Definition DivBy (a : Amount) (k : Z) : Amount :=
  if k =? 0 then Zero
  else {| val := Some (Z.quot (safe a) k) |}.

Definition Neg (a : Amount) : Amount := {| val := Some (- safe a) |}.

Definition Abs (a : Amount) : Amount :=
  if 0 <=? Sign a then a else Neg a.

(** [big.Int.Cmp]: -1, 0 or 1. *)
Definition Cmp (a o : Amount) : Z :=
  match safe a ?= safe o with
  | Lt => -1
  | Eq => 0
  | Gt => 1
  end.

Definition Equals (a o : Amount) : bool := Cmp a o =? 0.
Definition Less (a o : Amount) : bool := Cmp a o <? 0.
Definition Greater (a o : Amount) : bool := 0 <? Cmp a o.
Definition LessOrEqual (a o : Amount) : bool := Cmp a o <=? 0.
Definition GreaterOrEqual (a o : Amount) : bool := 0 <=? Cmp a o.

(** *** Text *)

(** [big.Int.String]: the decimal digits, with a minus sign in front of a
    negative number. *)
Definition bigString (z : Z) : string := NilZero.string_of_int (Z.to_int z).

(** [big.Int.Int64]: the low 64 bits as a signed number. *)
Definition Int64 (z : Z) : Z :=
  (z + 2 ^ 63) mod 2 ^ 64 - 2 ^ 63.

Fixpoint zeros (n : nat) : string :=
  match n with
  | O => EmptyString
  | S n' => String "0" (zeros n')
  end.

(** Padding on the left with zeros up to a width. *)
Definition pad (width : nat) (digits : string) : string :=
  append (zeros (width - String.length digits)) digits.

(** [fmt.Sprintf] with the verb of width 6 padded with zeros, for a signed
    number: the sign counts in the width. *)
Definition Sprintf06d (n : Z) : string :=
  if n <? 0
  then String "-" (pad 5 (bigString (- n)))
  else pad 6 (bigString n).

(** [strings.TrimLeft] and [strings.TrimRight] for a cutset of one
    character, and [strings.Trim]. *)
Fixpoint TrimLeft (s : string) (cut : ascii) : string :=
  match s with
  | EmptyString => EmptyString
  | String c s' => if Ascii.eqb c cut then TrimLeft s' cut else s
  end.

Fixpoint TrimRight (s : string) (cut : ascii) : string :=
  match s with
  | EmptyString => EmptyString
  | String c s' =>
      match TrimRight s' cut with
      | EmptyString => if Ascii.eqb c cut then EmptyString
                       else String c EmptyString
      | t => String c t
      end
  end.

Definition Trim (s : string) (cut : ascii) : string :=
  TrimLeft (TrimRight s cut) cut.

(** The integer part and the fraction of a non-negative raw value. *)
Definition fraction (frac : Z) : string :=
  TrimRight (Sprintf06d (Int64 frac)) "0".

Definition String_ (a : Amount) : string :=
  if IsZero a then "0"%string
  else
    let v := safe a in
    let base := precisionBig in
    let absV := Z.abs v in
    let intPart := Z.quot absV base in
    let fracPart := absV mod base in
    let intPart := if Z.sgn v <? 0 then - intPart else intPart in
    let s := bigString intPart in
    if Z.sgn fracPart =? 0 then s
    else append s (append "." (fraction fracPart)).

Definition Percent (a : Amount) : string :=
  if IsZero a then "0%"%string
  else
    let v := safe a in
    let scaled := v * 100 in
    let absScaled := Z.abs scaled in
    let intPart := Z.quot absScaled precisionBig in
    let fracPart := absScaled mod precisionBig in
    let neg := Z.sgn v <? 0 in
    let intPart := if neg then - intPart else intPart in
    let s := bigString intPart in
    if Z.sgn fracPart =? 0 then append s "%"
    else
      let body := append s (append "." (append (fraction fracPart) "%")) in
      if neg && String.eqb s "0" then append "-" body
      else body.

(** *** JSON and database values *)

(** The double quote. *)
Definition dquote : ascii := Ascii.ascii_of_nat 34.

(** [big.Int.SetString(s, 10)]: an optional sign and at least one digit,
    nothing else. *)
Definition digits_value (s : string) : option Z :=
  match s with
  | EmptyString => None
  | _ => option_map Z.of_uint (NilEmpty.uint_of_string s)
  end.

Definition SetString (s : string) : option Z :=
  match s with
  | EmptyString => None
  | String c rest =>
      if Ascii.eqb c "-" then option_map Z.opp (digits_value rest)
      else if Ascii.eqb c "+" then digits_value rest
      else digits_value s
  end.

(** A method with a pointer receiver that returns an error gives the new
    value of the receiver and the error ([None] is nil). *)
Definition MarshalJSON (a : Amount) : string * option string :=
  (String dquote (append (bigString (safe a)) (String dquote EmptyString)),
   None).

Definition UnmarshalJSON (a : Amount) (data : string)
  : Amount * option string :=
  let s := Trim data dquote in
  if String.eqb s "" || String.eqb s "null"
  then ({| val := Some zeroBigInt |}, None)
  else
    match SetString s with
    | None => (a, Some (append "invalid amount value: " s))
    | Some v => ({| val := Some v |}, None)
    end.

(** The dynamic types [Scan] tells apart; [Other] carries the name of any
    other type. *)
Inductive any : Type :=
| Nil
| Bytes (v : string)
| Str (v : string)
| AnyInt64 (v : Z)
| AnyUint64 (v : Z)
| AnyInt (v : Z)
| Other (type : string).

Definition Value (a : Amount) : any * option string :=
  (Str (bigString (safe a)), None).

(** [scanBigInt]: what is stored through [dst] (nothing on an error) and
    the error. *)
Definition scanBigInt (value : any) (name : string)
  : option Z * option string :=
  let parse (s : string) :=
    match SetString s with
    | None =>
        (None, Some (append "invalid " (append name (append " value: " s))))
    | Some i => (Some i, None)
    end in
  match value with
  | Nil => (Some zeroBigInt, None)
  | Bytes v => parse v
  | Str v => parse v
  | AnyInt64 v => (Some v, None)
  | AnyUint64 v => (Some v, None)
  | AnyInt v => (Some v, None)
  | Other type =>
      (None, Some (append "unsupported Scan type for "
                     (append name (append ": " type))))
  end.

Definition Scan (a : Amount) (value : any) : Amount * option string :=
  match scanBigInt value "Amount" with
  | (_, Some err) => (a, Some err)
  | (i, None) => ({| val := i |}, None)
  end.

(** No character of [s] is the double quote. *)
Fixpoint plain (s : string) : bool :=
  match s with
  | EmptyString => true
  | String c s' => negb (Ascii.eqb c dquote) && plain s'
  end.

End Amount.

Module BatchInv.
Import Batch.

(** ** Histories and invariants of Execute *)

(** The accumulator that the completed handler calls [fin] produce under
    collect-and-continue: each returned failure tagged with its index, in
    completion order. *)
Definition recorded (fin : list (nat * handler_result)) : list error :=
  flat_map (fun ir => match snd ir with
                      | HErr e => [ItemFailed (fst ir) e]
                      | _ => []
                      end) fin.

(** The first failure, in completion order, among the completed calls. *)
Fixpoint first_failure (fin : list (nat * handler_result)) : option error :=
  match fin with
  | [] => None
  | (_, HErr e) :: _ => Some e
  | _ :: fin' => first_failure fin'
  end.

(** The panics among the completed calls. *)
Definition panics (fin : list (nat * handler_result)) : list (nat * string) :=
  flat_map (fun ir => match snd ir with
                      | HPanic p => [(fst ir, p)]
                      | _ => []
                      end) fin.

(** What the program point says about the number [k] of indices handed to
    [g.Go] so far, for a slice of length [n]. *)
Definition pc_index (n : nat) (p : pc) (k : nat) : Prop :=
  match p with
  | PLoop i => i = k
  | PLimiter i | PGo i => i = k /\ (k < n)%nat
  | PWait | PDone _ => True
  end.

(** The aggregate built from a non-empty accumulator. *)
Definition aggregate (errs : list error) : option error :=
  match errs with
  | [] => None
  | first :: _ => Some (BatchFinished (length errs) first)
  end.

(** The states [Execute] goes through when its context is done at the
    call: the loop head of index 0, the wait of the group, the return of
    [nil]; the number says how many steps remain. *)
Definition precancelled (s : state) (rank : nat) : Prop :=
  is_some (st_ctx s) = true /\ st_dispatched s = [] /\ st_running s = [] /\
  st_finished s = [] /\ st_gerr s = None /\ st_errs s = [] /\
  ((st_pc s = PLoop 0 /\ rank = 2%nat) \/ (st_pc s = PWait /\ rank = 1%nat) \/
   (st_pc s = PDone None /\ rank = 0%nat)).

(** A measure that every step decreases: the work left to the calling
    thread for a slice of length [n], the goroutines in flight, and the one
    cancellation that may still come. *)
Definition pc_rank (n : nat) (p : pc) : nat :=
  match p with
  | PLoop i => 4 * (n - i) + 2
  | PLimiter i => 4 * (n - i) + 1
  | PGo i => 4 * (n - i)
  | PWait => 1
  | PDone _ => 0
  end.

Definition measure (n : nat) (s : state) : nat :=
  pc_rank n (st_pc s) + length (st_running s) +
  (if is_some (st_ctx s) then 0 else 1).

Section Invariants.

Variable T : Type.
Variable b : BatchExecutor.
Variable items : list T.
Variable handler : Handler T.

(** The bookkeeping invariant: the indices dispatched are an initial segment
    of the input, each is either in flight or completed, every completed
    call is a call of the handler on its item, and the log holds the
    panics. *)
Record history_ok (s : state) : Prop := {
  h_seq : exists k, st_dispatched s = seq 0 k /\ (k <= length items)%nat /\
                    pc_index (length items) (st_pc s) k;
  h_perm : Permutation (st_dispatched s)
             (map fst (st_finished s) ++ st_running s);
  h_calls : Forall (fun ir => exists v c, nth_error items (fst ir) = Some v /\
                                          snd ir = handler c v)
              (st_finished s);
  h_log : st_log s = panics (st_finished s)
}.

(** The error bookkeeping under each policy. *)
Definition policy_ok (s : state) : Prop :=
  if IgnoreError (config b)
  then st_gerr s = None /\ st_errs s = recorded (st_finished s)
  else st_errs s = [] /\ st_gerr s = first_failure (st_finished s) /\
       (is_some (st_gerr s) = true -> is_some (st_ctx s) = true).

(** The group never runs more goroutines than its limit. *)
Definition limit_ok (s : state) : Prop :=
  0 <= Concurrency (config b) ->
  Z.of_nat (length (st_running s)) <= Concurrency (config b).

(** What holds once [Execute] has returned [r]: either [r] is the failure
    of the limiter's wait (possible only with a limiter), or [Execute] went
    through [g.Wait()], no goroutine is in flight and [r] is the outcome
    computed from the group's error and the accumulator. *)
Definition return_ok (s : state) : Prop :=
  match st_pc s with
  | PDone r =>
      (st_limiter s <> None /\
       exists i cause, r = Some (RateLimiterError i cause)) \/
      (st_running s = [] /\ r = outcome b (st_gerr s) (st_errs s))
  | _ => True
  end.

(** What holds while no failure has reached the group, in a run in which
    the caller leaves the context alone and the limiter grants its tokens:
    the context is live inside the loop, and the loop is left only at the
    end of the slice. *)
Definition undisturbed (s : state) : Prop :=
  st_gerr s = None ->
  match st_pc s with
  | PLoop _ | PLimiter _ | PGo _ => st_ctx s = None
  | PWait => st_ctx s = None /\ st_dispatched s = seq 0 (length items)
  | PDone r =>
      st_dispatched s = seq 0 (length items) /\ st_running s = [] /\
      r = outcome b None (st_errs s)
  end.

(** The limiter, if there is one, has a burst of at least one token. *)
Definition limiter_grants (s : state) : Prop :=
  match st_limiter s with
  | None => True
  | Some (_, burst) => 1 <= burst
  end.

(** A state from which nothing more is dispatched: the loop has been left. *)
Definition loop_left (s : state) : Prop :=
  match st_pc s with
  | PWait | PDone _ => True
  | _ => False
  end.

End Invariants.

Arguments history_ok {T} items handler s.
Arguments undisturbed {T} b items s.

(** The handler that returns [nil] where [h] panics. *)
Definition without_panics {T : Type} (h : Handler T) : Handler T :=
  fun c v => match h c v with
             | HPanic _ => HOk
             | r => r
             end.

Definition calm (r : handler_result) : handler_result :=
  match r with
  | HPanic _ => HOk
  | r => r
  end.

(** A state without its diagnostic output: the log is dropped and the
    history shows a panicking call as one that returned [nil]. *)
Definition silent (s : state) : state :=
  {| st_pc := st_pc s; st_limiter := st_limiter s;
     st_running := st_running s; st_ctx := st_ctx s; st_gerr := st_gerr s;
     st_errs := st_errs s; st_log := [];
     st_dispatched := st_dispatched s;
     st_finished := map (fun ir => (fst ir, calm (snd ir))) (st_finished s) |}.

End BatchInv.

Module StreamInv.
Import Stream.

(** ** Invariants of Start *)

(** The workers have nothing left to do: the context is done, or the
    channel is closed and drained. *)
Definition input_over {T : Type} (s : state T) : Prop :=
  is_some (st_ctx s) = true \/ (st_closed s = true /\ st_chan s = []).

(** The calling thread has started as many workers as its loop counter
    says, and all [concurrency] of them once the loop is over. *)
Definition spawned_ok {T : Type} (s0 : Worker T) (s : state T) : Prop :=
  match st_pc s with
  | SSpawn i =>
      length (st_workers s) = i /\ Z.of_nat i <= concurrency s0
  | SWait | SReturned =>
      Z.of_nat (length (st_workers s)) = concurrency s0
  end.

(** A worker leaves only when the input is over, and [Start] returns only
    when every worker has left. *)
Definition exits_ok {T : Type} (s : state T) : Prop :=
  (existsb exited (st_workers s) = true -> input_over s) /\
  (st_pc s = SReturned -> forallb exited (st_workers s) = true).

(** The handler that always returns [nil]. *)
Definition always_ok {T : Type} : Handler T := fun _ _ => HOk.

(** A state without what the handler calls left behind: the log and the
    results in the history. *)
Definition quiet {T : Type} (s : state T) : state T :=
  {| st_pc := st_pc s; st_workers := st_workers s; st_chan := st_chan s;
     st_closed := st_closed s; st_ctx := st_ctx s; st_log := [];
     st_handled := map (fun wvr => (fst wvr, HOk)) (st_handled s) |}.

(** The values inside a handler call, the values the producers send in a
    schedule, and the values whose handler call has completed. *)
Definition single {T : Type} (w : worker_state T) : list T :=
  match w with WHandling v => [v] | _ => [] end.

Definition in_flight {T : Type} (ws : list (worker_state T)) : list T :=
  flat_map single ws.

Definition sent {T : Type} (evs : list (event T)) : list T :=
  flat_map (fun ev => match ev with SvSend v => [v] | _ => [] end) evs.

Definition handled_values {T : Type} (s : state T) : list T :=
  map (fun wvr => snd (fst wvr)) (st_handled s).

(** Every value the pool has seen or can still see. *)
Definition content {T : Type} (s : state T) : list T :=
  handled_values s ++ in_flight (st_workers s) ++ st_chan s.

(** The panics among the completed handler calls, by worker. *)
Definition pool_panics {T : Type} (hs : list (nat * T * handler_result))
  : list (nat * string) :=
  flat_map (fun wvr => match snd wvr with
                       | HPanic p => [(fst (fst wvr), p)]
                       | _ => []
                       end) hs.

(** The steps a worker has left before it can leave, and the steps the
    calling thread and the workers have left before [Start] can return, for
    a pool of [c] workers. *)
Definition worker_rank {T : Type} (w : worker_state T) : nat :=
  match w with
  | WSelect => 1
  | WHandling _ => 2
  | WExited => 0
  end.

Definition pool_rank {T : Type} (c : Z) (s : state T) : nat :=
  match st_pc s with
  | SSpawn i => 3 * Z.to_nat (c - Z.of_nat i) + 2
  | SWait => 1
  | SReturned => 0
  end + list_sum (map worker_rank (st_workers s)).

(** The steps of the pool itself, those of the calling thread and of the
    workers; the other steps are the producers' and the context owner's. *)
Definition own {T : Type} (ev : event T) : bool :=
  match ev with
  | SvMain | SvRecv _ | SvHandled _ _ | SvCtxExit _ | SvClosedExit _ => true
  | SvSend _ | SvClose | SvCtxDone _ => false
  end.

(** The input is ending: the context is done, or the channel is closed,
    with the values sent before possibly still waiting in it. *)
Definition input_ending {T : Type} (s : state T) : Prop :=
  is_some (st_ctx s) = true \/ st_closed s = true.

(** A bound on the steps the pool itself can still take: each value waiting
    in the channel costs a receive and a handler call. *)
Definition pool_measure {T : Type} (c : Z) (s : state T) : nat :=
  pool_rank c s + 2 * length (st_chan s).

End StreamInv.

Module StreamExamples.
Import Stream.

(** Three workers over numbers; the handler fails on 1 and panics on 2. *)
Definition pool : Worker nat :=
  NewStreamWorker 3
    (fun _ v => if Nat.eqb v 1 then HErr (ErrorString "bad item")
                else if Nat.eqb v 2 then HPanic "wild"
                else HOk).

(** The three workers start; worker 0 handles 1 and then 3, worker 1
    handles 2; the producer closes the channel and the workers leave. *)
Definition drain : list (event nat) :=
  [SvMain; SvMain; SvMain; SvMain;
   SvRecv 0; SvHandled 0 false; SvRecv 1; SvRecv 0; SvHandled 0 false;
   SvHandled 1 false; SvClose;
   SvClosedExit 2; SvClosedExit 0; SvClosedExit 1; SvMain].

(** The three workers start and worker 0 receives 1; the producer closes
    the channel with 2 and 3 still waiting in it. *)
Definition shut : list (event nat) :=
  [SvMain; SvMain; SvMain; SvMain; SvRecv 0; SvClose].

(** Two workers start and worker 0 receives 1; the producer sends 4; worker
    1 receives 2 and worker 0 completes its call. *)
Definition busy : list (event nat) :=
  [SvMain; SvMain; SvRecv 0; SvSend 4%nat; SvRecv 1; SvHandled 0 false].

End StreamExamples.

Module Examples.
Import Batch.

(** ** Concrete executors, handlers and schedules *)

Definition boom : error := ErrorString "boom".

(** A handler on numbers: it fails on the numbers in [bad], panics on those
    in [wild] and returns [nil] on the others. *)
Definition behaves (bad wild : list nat) : Handler nat :=
  fun _ v =>
    if mem_index v bad then HErr boom
    else if mem_index v wild then HPanic "wild"
    else HOk.

Definition failFast : BatchExecutor := NewBatchExecutor [].

Definition collecting : BatchExecutor :=
  NewBatchExecutor [WithIgnoreError true].

Definition throttled : BatchExecutor :=
  NewBatchExecutor [WithRateLimit 1].

Definition throttledCollecting : BatchExecutor :=
  NewBatchExecutor [WithRateLimit 5; WithBurst 2; WithIgnoreError true].

(** The calling thread alone, for [n] steps. *)
Definition main_steps (n : nat) : list event := repeat EvMain n.

(** The goroutines of the indices [l] complete in that order. *)
Definition finish_all (l : list nat) : list event :=
  map (fun i => EvFinish i false) l.

(** Ten items, 0 to 9. *)
Definition ten : list nat := seq 0 10.

(** Five items, 1 to 5; the handler panics on item 4. *)
Definition five : list nat := seq 1 5.

(** All ten items are dispatched (two steps of the calling thread per item
    without a limiter), the loop ends, and the goroutines
    complete with index 5 first. *)
Definition all_dispatched : list event := main_steps 21.
Definition all_complete : list event :=
  finish_all [5; 0; 1; 2; 3; 4; 6; 7; 8; 9]%nat.

End Examples.

Module BatchFacts.
Import Batch BatchInv.

Lemma remove_index_perm (i : nat) (l : list nat) :
  mem_index i l = true -> Permutation l (i :: remove_index i l).
Proof.
  induction l as [|j l IH]; simpl; [discriminate|].
  destruct (Nat.eqb i j) eqn:E.
  - apply Nat.eqb_eq in E. subst j. intros _. reflexivity.
  - simpl. intros H. rewrite perm_swap. constructor. now apply IH.
Qed.

Lemma remove_index_length (i : nat) (l : list nat) :
  (length (remove_index i l) <= length l)%nat.
Proof.
  induction l as [|j l IH]; simpl; [lia|].
  destruct (Nat.eqb i j); simpl; lia.
Qed.

Lemma first_failure_app (l : list (nat * handler_result)) i r :
  first_failure (l ++ [(i, r)]) =
  match first_failure l with
  | Some e => Some e
  | None => match r with HErr e => Some e | _ => None end
  end.
Proof.
  induction l as [|[j q] l IH]; simpl.
  - destruct r; reflexivity.
  - destruct q; auto.
Qed.

Lemma recorded_app (l : list (nat * handler_result)) i r :
  recorded (l ++ [(i, r)]) =
  recorded l ++ match r with HErr e => [ItemFailed i e] | _ => [] end.
Proof.
  unfold recorded. rewrite flat_map_app. simpl. now rewrite app_nil_r.
Qed.

Lemma panics_app (l : list (nat * handler_result)) i r :
  panics (l ++ [(i, r)]) =
  panics l ++ match r with HPanic p => [(i, p)] | _ => [] end.
Proof.
  unfold panics. rewrite flat_map_app. simpl. now rewrite app_nil_r.
Qed.

Section Facts.

Variable T : Type.
Variable b : BatchExecutor.
Variable items : list T.
Variable handler : Handler T.

#[local] Abbreviation step := (step b items handler).
#[local] Abbreviation run := (run b items handler).
#[local] Abbreviation Execute := (Execute b items handler).
#[local] Abbreviation Execute_init := (Execute_init b items).

Lemma run_app (evs1 evs2 : list event) (s : state) :
  run (evs1 ++ evs2) s =
  match run evs1 s with
  | Some s' => run evs2 s'
  | None => None
  end.
Proof.
  revert s. induction evs1 as [|ev evs1 IH]; intros s; simpl; [reflexivity|].
  destruct (step ev s); auto.
Qed.

(** The invariant rule: a property of the initial state that every step
    preserves holds after every schedule. *)
Lemma run_invariant (P : state -> Prop) :
  (forall ev s s', P s -> step ev s = Some s' -> P s') ->
  forall evs s s', P s -> run evs s = Some s' -> P s'.
Proof.
  intros Hstep. induction evs as [|ev evs IH]; intros s s' HP Hrun; simpl in Hrun.
  - now inversion Hrun; subst.
  - destruct (step ev s) as [s1|] eqn:E; [|discriminate].
    eapply IH; [|exact Hrun]. eapply Hstep; eauto.
Qed.

(** Case analysis of one step. *)
Lemma finish_step_inv i seen s s' :
  finish_step b items handler i seen s = Some s' ->
  exists v, mem_index i (st_running s) = true /\ nth_error items i = Some v /\
    let r := handler (if seen then st_ctx s else None) v in
    st_pc s' = st_pc s /\ st_limiter s' = st_limiter s /\
    st_running s' = remove_index i (st_running s) /\
    st_dispatched s' = st_dispatched s /\
    st_finished s' = st_finished s ++ [(i, r)] /\
    st_log s' = st_log s ++ match r with HPanic p => [(i, p)] | _ => [] end /\
    match r with
    | HErr e =>
        if IgnoreError (config b)
        then st_errs s' = st_errs s ++ [ItemFailed i e] /\
             st_gerr s' = st_gerr s /\ st_ctx s' = st_ctx s
        else st_errs s' = st_errs s /\
             st_gerr s' = match st_gerr s with Some e0 => Some e0 | None => Some e end /\
             st_ctx s' = match st_gerr s with
                         | Some _ => st_ctx s
                         | None => cancel_with Canceled (st_ctx s)
                         end
    | _ => st_errs s' = st_errs s /\ st_gerr s' = st_gerr s /\
           st_ctx s' = st_ctx s
    end.
Proof.
  unfold finish_step. destruct (mem_index i (st_running s)) eqn:M; [|discriminate].
  destruct (nth_error items i) as [v|] eqn:N; [|discriminate].
  intros H. inversion H; subst s'; clear H. exists v.
  split; [reflexivity|]. split; [reflexivity|]. cbv zeta.
  destruct (handler (if seen then st_ctx s else None) v) as [|e|p]; simpl.
  - rewrite app_nil_r. repeat split.
  - destruct (IgnoreError (config b)); simpl.
    + rewrite app_nil_r; repeat split.
    + unfold group_error; simpl.
      destruct (st_gerr s); simpl; rewrite app_nil_r; repeat split.
  - repeat split.
Qed.

Lemma main_step_inv s s' :
  main_step b items s = Some s' ->
  st_limiter s' = st_limiter s /\ st_gerr s' = st_gerr s /\
  st_errs s' = st_errs s /\ st_log s' = st_log s /\
  st_finished s' = st_finished s /\
  match st_pc s with
  | PLoop i =>
      st_running s' = st_running s /\ st_dispatched s' = st_dispatched s /\
      st_ctx s' = st_ctx s /\
      match nth_error items i with
      | None => st_pc s' = PWait
      | Some _ =>
          if is_some (st_ctx s) then st_pc s' = PWait
          else match st_limiter s with
               | Some _ => st_pc s' = PLimiter i
               | None => st_pc s' = PGo i
               end
      end
  | PLimiter i =>
      st_running s' = st_running s /\ st_dispatched s' = st_dispatched s /\
      st_ctx s' = st_ctx s /\
      match st_limiter s with
      | None => st_pc s' = PGo i
      | Some (_, burst) =>
          match limiter_Wait burst (st_ctx s) with
          | Some err => st_pc s' = PDone (Some (RateLimiterError i err))
          | None => st_pc s' = PGo i
          end
      end
  | PGo i =>
      slot_free (Concurrency (config b)) (st_running s) = true /\
      st_running s' = st_running s ++ [i] /\
      st_dispatched s' = st_dispatched s ++ [i] /\
      st_ctx s' = st_ctx s /\ st_pc s' = PLoop (S i)
  | PWait =>
      st_running s = [] /\ st_running s' = [] /\
      st_dispatched s' = st_dispatched s /\
      st_ctx s' = cancel_with Canceled (st_ctx s) /\
      st_pc s' = PDone (outcome b (st_gerr s) (st_errs s))
  | PDone _ => False
  end.
Proof.
  unfold main_step. destruct (st_pc s) as [i|i|i| |r].
  - destruct (nth_error items i).
    + destruct (is_some (st_ctx s)).
      * intros H; inversion H; subst; simpl; repeat split.
      * destruct (st_limiter s) eqn:E; intros H; inversion H; subst; simpl;
          rewrite ?E; repeat split.
    + intros H; inversion H; subst; simpl; repeat split.
  - destruct (st_limiter s) as [[l burst]|] eqn:E.
    + destruct (limiter_Wait burst (st_ctx s)) eqn:W;
        intros H; inversion H; subst; simpl; rewrite ?E, ?W; repeat split.
    + intros H; inversion H; subst; simpl; rewrite ?E; repeat split.
  - destruct (slot_free _ _); [|discriminate].
    intros H; inversion H; subst; simpl; repeat split.
  - destruct (st_running s) eqn:E; [|discriminate].
    intros H; inversion H; subst; simpl; repeat split.
  - discriminate.
Qed.

Lemma wait_deadline_step_inv s s' :
  wait_deadline_step s = Some s' ->
  exists i, st_pc s = PLimiter i /\ st_limiter s <> None /\
    s' = set_pc (PDone (Some (RateLimiterError i WouldExceedDeadline))) s.
Proof.
  unfold wait_deadline_step. destruct (st_pc s) as [i|i|i| |r]; try discriminate.
  destruct (st_limiter s) as [[l burst]|]; [|discriminate].
  destruct (limiter_Wait burst (st_ctx s)); [discriminate|].
  intros H; inversion H; subst. exists i. repeat split. discriminate.
Qed.

Lemma ctx_done_step_inv timeout s s' :
  ctx_done_step timeout s = Some s' ->
  st_ctx s = None /\ is_some (st_ctx s') = true /\
  st_pc s' = st_pc s /\ st_limiter s' = st_limiter s /\
  st_running s' = st_running s /\ st_gerr s' = st_gerr s /\
  st_errs s' = st_errs s /\ st_log s' = st_log s /\
  st_dispatched s' = st_dispatched s /\ st_finished s' = st_finished s.
Proof.
  unfold ctx_done_step. destruct (st_ctx s); [discriminate|].
  intros H; inversion H; subst; simpl. repeat split.
Qed.

(** *** The invariants hold along every schedule *)

Lemma history_ok_init ctx : history_ok items handler (Execute_init ctx).
Proof.
  unfold Batch.Execute_init. destruct items as [|v l]; split; simpl; auto;
    try (exists 0%nat; simpl; repeat split; lia).
Qed.

Lemma history_ok_step ev s s' :
  history_ok items handler s -> step ev s = Some s' ->
  history_ok items handler s'.
Proof.
  intros [(k & Hd & Hk & Hpc) Hperm Hcalls Hlog] Hstep.
  destruct ev as [| |i seen|timeout]; simpl in Hstep.
  - apply main_step_inv in Hstep.
    destruct Hstep as (Hl & Hg & He & Hlg & Hf & Hrest).
    destruct (st_pc s) as [i|i|i| |r] eqn:Epc; simpl in Hpc.
    + destruct Hrest as (Hr & Hdd & Hc & Hp). subst k.
      split; rewrite ?Hr, ?Hdd, ?Hf, ?Hlg; auto.
      exists i. repeat split; auto.
      destruct (nth_error items i) eqn:N.
      * assert (i < length items)%nat by (apply nth_error_Some; congruence).
        destruct (is_some (st_ctx s)); [now rewrite Hp|].
        destruct (st_limiter s); rewrite Hp; simpl; auto.
      * now rewrite Hp.
    + destruct Hrest as (Hr & Hdd & Hc & Hp). destruct Hpc as [-> Hlt].
      split; rewrite ?Hr, ?Hdd, ?Hf, ?Hlg; auto.
      exists k. repeat split; auto.
      destruct (st_limiter s) as [[l burst]|];
        [destruct (limiter_Wait burst (st_ctx s))|]; rewrite Hp; simpl; auto.
    + destruct Hrest as (_ & Hr & Hdd & Hc & Hp). destruct Hpc as [-> Hlt].
      split; rewrite ?Hr, ?Hdd, ?Hf, ?Hlg; auto.
      * exists (S k). rewrite Hd, Hp, seq_S. simpl. repeat split; auto.
      * rewrite app_assoc. now apply Permutation_app_tail.
    + destruct Hrest as (Hr0 & Hr & Hdd & Hc & Hp).
      split; rewrite ?Hr, ?Hdd, ?Hf, ?Hlg; auto.
      * exists k. rewrite Hp. simpl. auto.
      * now rewrite Hr0 in Hperm.
    + contradiction.
  - apply wait_deadline_step_inv in Hstep. destruct Hstep as (i & Epc & _ & ->).
    split; simpl; auto. exists k. repeat split; auto.
  - apply finish_step_inv in Hstep.
    destruct Hstep as (v & M & N & Hp & Hl & Hr & Hdd & Hf & Hlg & _).
    split; rewrite ?Hr, ?Hdd, ?Hf, ?Hlg, ?Hp; auto.
    + exists k. auto.
    + rewrite map_app. simpl. rewrite <- app_assoc. simpl.
      rewrite Hperm. apply Permutation_app_head.
      now apply remove_index_perm.
    + apply Forall_app. split; auto. constructor; auto. simpl. eauto.
    + now rewrite panics_app, Hlog.
  - apply ctx_done_step_inv in Hstep.
    destruct Hstep as (_ & _ & Hp & Hl & Hr & Hg & He & Hlg & Hdd & Hf).
    split; rewrite ?Hr, ?Hdd, ?Hf, ?Hlg, ?Hp; auto.
    exists k. auto.
Qed.

Lemma history_ok_run ctx evs s :
  Execute ctx evs = Some s -> history_ok items handler s.
Proof.
  apply (run_invariant (history_ok items handler) history_ok_step).
  apply history_ok_init.
Qed.

Lemma policy_ok_init ctx : policy_ok b (Execute_init ctx).
Proof.
  unfold policy_ok, Batch.Execute_init.
  destruct (IgnoreError (config b)); destruct items; simpl; repeat split;
    discriminate.
Qed.

Lemma policy_ok_step ev s s' :
  policy_ok b s -> step ev s = Some s' -> policy_ok b s'.
Proof.
  unfold policy_ok. intros Hs Hstep.
  destruct ev as [| |i seen|timeout]; simpl in Hstep.
  - apply main_step_inv in Hstep.
    destruct Hstep as (Hl & Hg & He & Hlg & Hf & Hrest).
    rewrite Hg, He, Hf.
    destruct (IgnoreError (config b)); [exact Hs|].
    destruct Hs as (H1 & H2 & H3). repeat split; auto.
    intros Hsome. specialize (H3 Hsome).
    destruct (st_pc s) as [i|i|i| |r].
    + destruct Hrest as (_ & _ & -> & _); auto.
    + destruct Hrest as (_ & _ & -> & _); auto.
    + destruct Hrest as (_ & _ & _ & -> & _); auto.
    + destruct Hrest as (_ & _ & _ & -> & _).
      destruct (st_ctx s); reflexivity.
    + contradiction.
  - apply wait_deadline_step_inv in Hstep. destruct Hstep as (i & _ & _ & ->).
    exact Hs.
  - apply finish_step_inv in Hstep.
    destruct Hstep as (v & M & N & Hp & Hl & Hr & Hdd & Hf & Hlg & Hres).
    cbv zeta in Hf, Hres. rewrite Hf, first_failure_app, recorded_app.
    destruct (handler (if seen then st_ctx s else None) v) as [|e|p].
    + destruct Hres as (-> & -> & ->). rewrite app_nil_r.
      destruct (IgnoreError (config b)); [exact Hs|].
      destruct Hs as (H1 & H2 & H3). rewrite <- H2.
      repeat split; auto. destruct (st_gerr s); auto.
    + destruct (IgnoreError (config b)).
      * destruct Hres as (-> & -> & _). destruct Hs as [H1 H2].
        now rewrite H2.
      * destruct Hres as (-> & -> & ->). destruct Hs as (H1 & H2 & H3).
        rewrite <- H2. repeat split; auto.
        destruct (st_gerr s); auto.
        intros _. destruct (st_ctx s); reflexivity.
    + destruct Hres as (-> & -> & ->). rewrite app_nil_r.
      destruct (IgnoreError (config b)); [exact Hs|].
      destruct Hs as (H1 & H2 & H3). rewrite <- H2.
      repeat split; auto. destruct (st_gerr s); auto.
  - apply ctx_done_step_inv in Hstep.
    destruct Hstep as (_ & Hc & Hp & Hl & Hr & -> & -> & Hlg & Hdd & ->).
    destruct (IgnoreError (config b)); [exact Hs|].
    destruct Hs as (H1 & H2 & H3). repeat split; auto.
Qed.

Lemma policy_ok_run ctx evs s :
  Execute ctx evs = Some s -> policy_ok b s.
Proof.
  apply (run_invariant (policy_ok b) policy_ok_step).
  apply policy_ok_init.
Qed.

Lemma limit_ok_init ctx : limit_ok b (Execute_init ctx).
Proof.
  unfold limit_ok, Batch.Execute_init. destruct items; simpl; lia.
Qed.

Lemma limit_ok_step ev s s' :
  limit_ok b s -> step ev s = Some s' -> limit_ok b s'.
Proof.
  unfold limit_ok. intros Hs Hstep Hlim. specialize (Hs Hlim).
  destruct ev as [| |i seen|timeout]; simpl in Hstep.
  - apply main_step_inv in Hstep.
    destruct Hstep as (_ & _ & _ & _ & _ & Hrest).
    destruct (st_pc s) as [i|i|i| |r].
    + destruct Hrest as (-> & _); auto.
    + destruct Hrest as (-> & _); auto.
    + destruct Hrest as (Hfree & -> & _).
      unfold slot_free in Hfree. apply orb_true_iff in Hfree.
      rewrite length_app. simpl.
      destruct Hfree as [H|H]; [apply Z.ltb_lt in H; lia|].
      apply Z.ltb_lt in H. lia.
    + destruct Hrest as (_ & -> & _). simpl. lia.
    + contradiction.
  - apply wait_deadline_step_inv in Hstep. destruct Hstep as (i & _ & _ & ->).
    exact Hs.
  - apply finish_step_inv in Hstep.
    destruct Hstep as (v & M & N & Hp & Hl & -> & _).
    pose proof (remove_index_length i (st_running s)). lia.
  - apply ctx_done_step_inv in Hstep.
    destruct Hstep as (_ & _ & _ & _ & -> & _). exact Hs.
Qed.

Lemma limit_ok_run ctx evs s :
  Execute ctx evs = Some s -> limit_ok b s.
Proof.
  apply (run_invariant (limit_ok b) limit_ok_step).
  apply limit_ok_init.
Qed.

(** Once the loop has been left it stays left, and nothing more is handed
    to [g.Go]. *)
Lemma loop_left_step ev s s' :
  loop_left s -> step ev s = Some s' ->
  loop_left s' /\ st_dispatched s' = st_dispatched s /\
  (forall r, st_pc s = PDone r -> st_pc s' = PDone r).
Proof.
  unfold loop_left. intros Hs Hstep.
  destruct ev as [| |i seen|timeout]; simpl in Hstep.
  - apply main_step_inv in Hstep.
    destruct Hstep as (_ & _ & _ & _ & _ & Hrest).
    destruct (st_pc s) as [i|i|i| |r]; try contradiction.
    destruct Hrest as (_ & _ & -> & _ & ->). repeat split. discriminate.
  - apply wait_deadline_step_inv in Hstep. destruct Hstep as (i & E & _ & ->).
    rewrite E in Hs. contradiction.
  - apply finish_step_inv in Hstep.
    destruct Hstep as (v & M & N & -> & Hl & _ & -> & _). auto.
  - apply ctx_done_step_inv in Hstep.
    destruct Hstep as (_ & _ & -> & _ & _ & _ & _ & _ & -> & _). auto.
Qed.

Lemma loop_left_run evs s s' :
  loop_left s -> run evs s = Some s' ->
  loop_left s' /\ st_dispatched s' = st_dispatched s /\
  (forall r, st_pc s = PDone r -> st_pc s' = PDone r).
Proof.
  revert s. induction evs as [|ev evs IH]; intros s Hs Hrun; simpl in Hrun.
  - inversion Hrun; subst. auto.
  - destruct (step ev s) as [s1|] eqn:E; [|discriminate].
    destruct (loop_left_step _ _ _ Hs E) as (H1 & H2 & H3).
    destruct (IH _ H1 Hrun) as (H4 & H5 & H6).
    split; [exact H4|]. split; [congruence|]. intros r Hr. auto.
Qed.

Lemma step_limiter ev s s' :
  step ev s = Some s' -> st_limiter s' = st_limiter s.
Proof.
  destruct ev as [| |i seen|timeout]; simpl; intros Hstep.
  - now apply main_step_inv in Hstep.
  - apply wait_deadline_step_inv in Hstep. now destruct Hstep as (i & _ & _ & ->).
  - apply finish_step_inv in Hstep. now destruct Hstep as (v & _ & _ & _ & H & _).
  - now apply ctx_done_step_inv in Hstep.
Qed.

Lemma return_ok_init ctx : return_ok b (Execute_init ctx).
Proof.
  unfold return_ok, Batch.Execute_init. destruct items; simpl; auto.
Qed.

Lemma return_ok_step ev s s' :
  return_ok b s -> step ev s = Some s' -> return_ok b s'.
Proof.
  unfold return_ok. intros Hs Hstep.
  pose proof (step_limiter _ _ _ Hstep) as Hlim.
  destruct ev as [| |i seen|timeout]; simpl in Hstep.
  - apply main_step_inv in Hstep.
    destruct Hstep as (Hl & Hg & He & Hlg & Hf & Hrest).
    destruct (st_pc s) as [i|i|i| |r].
    + destruct Hrest as (_ & _ & _ & Hp).
      destruct (nth_error items i); [destruct (is_some (st_ctx s))|];
        try (now rewrite Hp).
      destruct (st_limiter s); now rewrite Hp.
    + destruct Hrest as (_ & _ & _ & Hp).
      destruct (st_limiter s) as [[l burst]|] eqn:E; [|now rewrite Hp].
      destruct (limiter_Wait burst (st_ctx s)); rewrite Hp; auto.
      left. split; [congruence|eauto].
    + destruct Hrest as (_ & _ & _ & _ & ->). exact I.
    + destruct Hrest as (_ & Hr & _ & _ & ->). right. now rewrite Hg, He.
    + contradiction.
  - apply wait_deadline_step_inv in Hstep. destruct Hstep as (i & E & Hn & ->).
    simpl. left. split; [exact Hn|eauto].
  - apply finish_step_inv in Hstep.
    destruct Hstep as (v & M & N & Hp & _ & _).
    rewrite Hp. destruct (st_pc s) as [i0|i0|i0| |r]; auto.
    destruct Hs as [(Hl & Hx)|(Hr & _)].
    + left. split; [congruence|exact Hx].
    + rewrite Hr in M. discriminate.
  - apply ctx_done_step_inv in Hstep.
    destruct Hstep as (_ & _ & -> & _ & -> & -> & -> & _).
    now rewrite Hlim.
Qed.

Lemma return_ok_run ctx evs s :
  Execute ctx evs = Some s -> return_ok b s.
Proof.
  apply (run_invariant (return_ok b) return_ok_step).
  apply return_ok_init.
Qed.

Lemma perm_nil_parts (fin : list (nat * handler_result)) (running : list nat) :
  Permutation [] (map fst fin ++ running) -> fin = [] /\ running = [].
Proof.
  intros H. apply Permutation_nil in H. apply app_eq_nil in H.
  destruct H as [H1 H2]. split; [|exact H2].
  destruct fin; [reflexivity|discriminate].
Qed.

(** *** Empty input *)

(** C8: on an empty slice [Execute] has returned [nil] at once, whatever the
    configuration, the handler and the context: under every schedule the
    state is a returned one with result [nil], no limiter was constructed,
    nothing was dispatched and no goroutine exists. *)
Theorem Execute_empty_input ctx evs s :
  items = [] ->
  Execute ctx evs = Some s ->
  st_pc (Execute_init ctx) = PDone None /\
  st_pc s = PDone None /\ st_limiter s = None /\
  st_dispatched s = [] /\ st_running s = [] /\ st_finished s = [].
Proof.
  intros Hitems Hrun.
  pose proof (history_ok_run _ _ _ Hrun) as Hh.
  assert (Hinit : Execute_init ctx =
                  {| st_pc := PDone None; st_limiter := None; st_running := [];
                     st_ctx := ctx; st_gerr := None; st_errs := [];
                     st_log := []; st_dispatched := []; st_finished := [] |}).
  { unfold Batch.Execute_init. now rewrite Hitems. }
  unfold Batch.Execute in Hrun. rewrite Hinit in *.
  assert (Hlim : st_limiter s = None).
  { revert Hrun. apply (run_invariant (fun s => st_limiter s = None)); auto.
    intros ev s1 s2 H1 H2. now rewrite (step_limiter _ _ _ H2). }
  apply loop_left_run in Hrun; [|exact I].
  destruct Hrun as (_ & Hd & Hp).
  simpl in Hd. specialize (Hp None eq_refl).
  destruct Hh as [_ Hperm _ _]. rewrite Hd in Hperm.
  destruct (perm_nil_parts _ _ Hperm) as [Hf Hr].
  repeat split; auto.
Qed.

(** *** A context that is already cancelled *)

Lemma precancelled_step ev s s' rank :
  precancelled s rank -> step ev s = Some s' ->
  exists rank', precancelled s' rank' /\ (S rank' <= rank)%nat.
Proof.
  intros (Hc & Hd & Hr & Hf & Hg & He & Hpc) Hstep.
  destruct ev as [| |i seen|timeout]; simpl in Hstep.
  - apply main_step_inv in Hstep.
    destruct Hstep as (Hl' & Hg' & He' & Hlg' & Hf' & Hrest).
    destruct Hpc as [[Hp ->]|[[Hp ->]|[Hp ->]]]; rewrite Hp in Hrest.
    + destruct Hrest as (Hr' & Hd' & Hc' & Hp'). exists 1%nat. split; [|lia].
      unfold precancelled. rewrite Hc', Hd', Hr', Hf', Hg', He'.
      repeat split; auto. right; left. split; auto.
      destruct (nth_error items 0); auto. now rewrite Hc in Hp'.
    + destruct Hrest as (_ & Hr' & Hd' & Hc' & Hp'). exists 0%nat. split; [|lia].
      unfold precancelled. rewrite Hc', Hd', Hr', Hf', Hg', He'.
      repeat split; auto.
      * destruct (st_ctx s); reflexivity.
      * right; right. split; auto. rewrite Hp', Hg, He. reflexivity.
    + contradiction.
  - apply wait_deadline_step_inv in Hstep. destruct Hstep as (i & E & _).
    destruct Hpc as [[Hp _]|[[Hp _]|[Hp _]]]; congruence.
  - apply finish_step_inv in Hstep. destruct Hstep as (v & M & _).
    rewrite Hr in M. discriminate.
  - apply ctx_done_step_inv in Hstep. destruct Hstep as (Hn & _).
    rewrite Hn in Hc. discriminate.
Qed.

Lemma precancelled_run evs s s' rank :
  precancelled s rank -> run evs s = Some s' ->
  exists rank', precancelled s' rank' /\ (length evs + rank' <= rank)%nat.
Proof.
  revert s rank. induction evs as [|ev evs IH]; intros s rank Hs Hrun;
    simpl in Hrun.
  - inversion Hrun; subst. exists rank. split; [exact Hs|simpl; lia].
  - destruct (step ev s) as [s1|] eqn:E; [|discriminate].
    destruct (precancelled_step _ _ _ _ Hs E) as (r1 & H1 & Hle).
    destruct (IH _ _ H1 Hrun) as (r2 & H2 & Hle2).
    exists r2. split; [exact H2|simpl; lia].
Qed.

(** C9: when the context is already done at the call and the slice is not
    empty, the first test of [grpCtx.Err()] leaves the loop: under every
    schedule nothing is dispatched, the limiter is never waited on, no
    handler runs, a schedule has at most two steps, and the two steps of
    the calling thread return [nil]. *)
Theorem Execute_cancelled_before_dispatch cause evs s :
  items <> [] ->
  Execute (Some cause) evs = Some s ->
  st_dispatched s = [] /\ st_running s = [] /\ st_finished s = [] /\
  (st_pc s = PLoop 0 \/ st_pc s = PWait \/ st_pc s = PDone None) /\
  (length evs <= 2)%nat /\
  exists s', Execute (Some cause) [EvMain; EvMain] = Some s' /\
             st_pc s' = PDone None /\ st_dispatched s' = [].
Proof.
  intros Hitems Hrun.
  assert (Hinit : precancelled (Execute_init (Some cause)) 2).
  { unfold precancelled, Batch.Execute_init.
    destruct items; [congruence|]. simpl. repeat split; auto. }
  destruct (precancelled_run _ _ _ _ Hinit Hrun)
    as (rank & (Hc & Hd & Hr & Hf & Hg & He & Hpc) & Hlen).
  repeat split; auto; try lia.
  - destruct Hpc as [[Hp _]|[[Hp _]|[Hp _]]]; auto.
  - unfold Batch.Execute, Batch.Execute_init.
    destruct items as [|v l]; [congruence|]. simpl.
    unfold main_step. simpl. eexists. split; [reflexivity|]. simpl.
    split; reflexivity.
Qed.

(** *** Failure of the limiter's wait *)

(** C5: when [limiter.Wait] fails for index [i] (its context is done),
    the next step of the calling thread returns the wrapped failure tagged
    with [i], under either error policy; the result stays and no index is
    dispatched from then on. *)
Theorem limiter_failure_escalates ctx evs s i limit burst cause :
  Execute ctx evs = Some s ->
  st_pc s = PLimiter i ->
  st_limiter s = Some (limit, burst) ->
  limiter_Wait burst (st_ctx s) = Some cause ->
  exists s',
    step EvMain s = Some s' /\
    st_pc s' = PDone (Some (RateLimiterError i cause)) /\
    st_dispatched s' = st_dispatched s /\
    forall evs' s'', run evs' s' = Some s'' ->
      st_pc s'' = PDone (Some (RateLimiterError i cause)) /\
      st_dispatched s'' = st_dispatched s.
Proof.
  intros _ Hpc Hlim Hwait.
  exists (set_pc (PDone (Some (RateLimiterError i cause))) s).
  split; [|split; [reflexivity|split; [reflexivity|]]].
  - simpl. unfold main_step. now rewrite Hpc, Hlim, Hwait.
  - intros evs' s'' Hrun.
    apply loop_left_run in Hrun; [|exact I].
    destruct Hrun as (_ & Hd & Hp). split; [now apply Hp|exact Hd].
Qed.

(** *** Collect-and-continue *)

Lemma outcome_collect errs :
  IgnoreError (config b) = true -> outcome b None errs = aggregate errs.
Proof.
  intros H. unfold outcome, aggregate. rewrite H. destruct errs; reflexivity.
Qed.



(** *** Fail-fast *)

Lemma mem_index_In i l : mem_index i l = true <-> In i l.
Proof.
  unfold mem_index. rewrite existsb_exists. split.
  - intros (x & Hx & E). apply Nat.eqb_eq in E. now subst.
  - intros H. exists i. split; [exact H|apply Nat.eqb_refl].
Qed.

(** A goroutine in flight can always complete: nothing aborts it. *)
Lemma running_can_finish s j seen :
  history_ok items handler s -> In j (st_running s) ->
  exists s', step (EvFinish j seen) s = Some s'.
Proof.
  intros [(k & Hd & Hk & _) Hperm _ _] Hin.
  assert (Hj : In j (st_dispatched s)).
  { eapply Permutation_in; [symmetry; exact Hperm|].
    apply in_or_app. now right. }
  rewrite Hd in Hj. apply in_seq in Hj.
  simpl. unfold finish_step.
  apply mem_index_In in Hin. rewrite Hin.
  destruct (nth_error items j) eqn:N; [eauto|].
  apply nth_error_None in N. lia.
Qed.

(** After the loop head has seen the context done, nothing is dispatched. *)
Lemma halted_run evs' s s' :
  (exists i, st_pc s = PLoop i) -> is_some (st_ctx s) = true ->
  run evs' s = Some s' -> st_dispatched s' = st_dispatched s.
Proof.
  revert s. induction evs' as [|ev evs' IH]; intros s Hpc Hctx Hrun;
    simpl in Hrun.
  - now inversion Hrun.
  - destruct (step ev s) as [s1|] eqn:E; [|discriminate].
    destruct Hpc as [i Hpc].
    destruct ev as [| |j seen|timeout]; simpl in E.
    + apply main_step_inv in E. destruct E as (_ & _ & _ & _ & _ & Hrest).
      rewrite Hpc in Hrest. destruct Hrest as (_ & Hd & _ & Hp).
      rewrite Hctx in Hp.
      assert (Hp1 : st_pc s1 = PWait) by (destruct (nth_error items i); auto).
      apply loop_left_run in Hrun; [|unfold loop_left; now rewrite Hp1].
      destruct Hrun as (_ & Hd' & _). congruence.
    + apply wait_deadline_step_inv in E. destruct E as (i0 & E & _). congruence.
    + apply finish_step_inv in E.
      destruct E as (v & M & N & Hp & _ & _ & Hd & _ & _ & Hres).
      cbv zeta in Hres. rewrite <- Hd. apply IH; auto.
      * exists i. congruence.
      * destruct (handler (if seen then st_ctx s else None) v);
          [destruct Hres as (_ & _ & ->); auto| |
           destruct Hres as (_ & _ & ->); auto].
        destruct (IgnoreError (config b)); destruct Hres as (_ & _ & ->); auto.
        destruct (st_gerr s); auto. destruct (st_ctx s); auto.
    + apply ctx_done_step_inv in E. destruct E as (Hn & _).
      rewrite Hn in Hctx. discriminate.
Qed.

(** C4 (amended): under fail-fast the group keeps the first failure that a
    handler call returned, in completion order, and a kept failure means a
    cancelled context; the goroutine that returns a failure cancels the
    context and leaves the other goroutines in flight, each of which can
    still complete; once the loop head sees the context done nothing more
    is dispatched; and when [Execute] returns through the wait of the
    group, which needs every goroutine to have completed, its result is the
    failure the group kept.  A result of [Execute] that is not the kept
    failure is the failure of the limiter's wait. *)
Theorem fail_fast_through_wait ctx evs s :
  IgnoreError (config b) = false ->
  Execute ctx evs = Some s ->
  st_gerr s = first_failure (st_finished s) /\
  (is_some (st_gerr s) = true -> is_some (st_ctx s) = true) /\
  (forall i seen s' e,
     step (EvFinish i seen) s = Some s' ->
     st_finished s' = st_finished s ++ [(i, HErr e)] ->
     is_some (st_ctx s') = true /\
     st_gerr s' = Some (match st_gerr s with Some e0 => e0 | None => e end) /\
     st_pc s' = st_pc s /\
     st_running s' = remove_index i (st_running s) /\
     forall j seen', In j (st_running s') ->
       exists s'', step (EvFinish j seen') s' = Some s'') /\
  (forall i, st_pc s = PLoop i -> is_some (st_ctx s) = true ->
     forall evs' s', run evs' s = Some s' ->
       st_dispatched s' = st_dispatched s) /\
  (st_pc s = PWait -> st_running s = [] ->
     exists s', step EvMain s = Some s' /\ st_pc s' = PDone (st_gerr s)) /\
  (st_pc s = PWait -> st_running s <> [] -> step EvMain s = None) /\
  (forall r, st_pc s = PDone r ->
     (st_running s = [] /\ r = st_gerr s) \/
     (st_limiter s <> None /\
      exists i cause, r = Some (RateLimiterError i cause))).
Proof.
  intros Hig Hrun.
  pose proof (policy_ok_run _ _ _ Hrun) as Hpol.
  pose proof (history_ok_run _ _ _ Hrun) as Hh.
  pose proof (return_ok_run _ _ _ Hrun) as Hret.
  unfold policy_ok in Hpol. rewrite Hig in Hpol.
  destruct Hpol as (He & Hg & Hc).
  assert (Hout : outcome b (st_gerr s) (st_errs s) = st_gerr s).
  { unfold outcome. rewrite He. destruct (st_gerr s); reflexivity. }
  split; [exact Hg|]. split; [exact Hc|].
  split; [|split; [|split; [|split]]].
  - intros i seen s' e Hstep Hfin.
    assert (Hh' : history_ok items handler s')
      by (eapply history_ok_step; eauto).
    simpl in Hstep. apply finish_step_inv in Hstep.
    destruct Hstep as (v & M & N & Hp & Hl & Hr & Hdd & Hf & Hlg & Hres).
    cbv zeta in Hf, Hres. rewrite Hf in Hfin.
    apply app_inv_head in Hfin. inversion Hfin as [Hre]. rewrite Hre in Hres.
    rewrite Hig in Hres. destruct Hres as (_ & Hg' & Hc').
    repeat split; auto.
    + rewrite Hc'. destruct (st_gerr s); [now apply Hc|].
      destruct (st_ctx s); reflexivity.
    + rewrite Hg'. destruct (st_gerr s); reflexivity.
    + intros j seen' Hin. now apply running_can_finish.
  - intros i Hpc Hctx evs' s' Hrun'. eapply halted_run; eauto.
  - intros Hpc Hrn. simpl. unfold main_step. rewrite Hpc, Hrn.
    eexists. split; [reflexivity|]. simpl. now rewrite Hout.
  - intros Hpc Hrn. simpl. unfold main_step. rewrite Hpc.
    destruct (st_running s); [congruence|reflexivity].
  - intros r Hpc. unfold return_ok in Hret. rewrite Hpc in Hret.
    destruct Hret as [Hlim|[Hr Hres]]; [now right|left].
    split; [exact Hr|]. now rewrite Hres.
Qed.

Lemma first_failure_In fin e :
  first_failure fin = Some e -> exists i, In (i, HErr e) fin.
Proof.
  induction fin as [|[j r] fin IH]; simpl; [discriminate|].
  destruct r as [|e0|p].
  - intros H. destruct (IH H) as [i Hi]. eauto.
  - intros H. inversion H; subst. eauto.
  - intros H. destruct (IH H) as [i Hi]. eauto.
Qed.

Lemma recorded_In fin err :
  In err (recorded fin) ->
  exists i cause, err = ItemFailed i cause /\ In (i, HErr cause) fin.
Proof.
  unfold recorded. rewrite in_flat_map. intros ([i r] & Hin & Hx).
  simpl in Hx. destruct r as [|e|p]; simpl in Hx; try contradiction.
  destruct Hx as [<-|[]]. eauto.
Qed.

Lemma finished_call s i r :
  history_ok items handler s -> In (i, r) (st_finished s) ->
  exists v c, nth_error items i = Some v /\ handler c v = r.
Proof.
  intros [_ _ Hcalls _] Hin. rewrite Forall_forall in Hcalls.
  destruct (Hcalls _ Hin) as (v & c & Hv & Hr). simpl in *. eauto.
Qed.

(** C10 (amended): under fail-fast a failure that [Execute] returns is
    either the very value a completed handler call returned, with no
    wrapper and no index, or the failure of the limiter's wait, which
    carries an index; under collect-and-continue every element of the
    accumulator is a handler's failure wrapped with the index of its
    item. *)
Theorem fail_fast_error_is_unwrapped ctx evs s :
  Execute ctx evs = Some s ->
  (IgnoreError (config b) = false ->
   forall err, st_pc s = PDone (Some err) ->
     (exists i v c, In (i, HErr err) (st_finished s) /\
                    nth_error items i = Some v /\ handler c v = HErr err) \/
     (st_limiter s <> None /\ exists i cause, err = RateLimiterError i cause)) /\
  (IgnoreError (config b) = true ->
   forall err, In err (st_errs s) ->
     exists i v c cause,
       err = ItemFailed i cause /\ In (i, HErr cause) (st_finished s) /\
       nth_error items i = Some v /\ handler c v = HErr cause).
Proof.
  intros Hrun.
  pose proof (policy_ok_run _ _ _ Hrun) as Hpol.
  pose proof (history_ok_run _ _ _ Hrun) as Hh.
  pose proof (return_ok_run _ _ _ Hrun) as Hret.
  unfold policy_ok in Hpol. split; intros Hig; rewrite Hig in Hpol.
  - destruct Hpol as (He & Hg & Hc). intros err Hpc.
    unfold return_ok in Hret. rewrite Hpc in Hret.
    destruct Hret as [(Hl & i & cause & E)|[Hr Hres]].
    + right. split; [exact Hl|]. inversion E; subst. eauto.
    + left. unfold outcome in Hres. rewrite He in Hres.
      assert (Hgs : st_gerr s = Some err)
        by (destruct (st_gerr s); [now inversion Hres|discriminate]).
      rewrite Hg in Hgs. destruct (first_failure_In _ _ Hgs) as [i Hi].
      destruct (finished_call _ _ _ Hh Hi) as (v & c & Hv & Hcall).
      exists i, v, c. auto.
  - destruct Hpol as [Hg He]. intros err Hin. rewrite He in Hin.
    destruct (recorded_In _ _ Hin) as (i & cause & -> & Hi).
    destruct (finished_call _ _ _ Hh Hi) as (v & c & Hv & Hcall).
    exists i, v, c, cause. auto.
Qed.

(** *** Panics *)

Lemma step_silent ev s :
  Batch.step b items (without_panics handler) ev (silent s) =
  option_map silent (step ev s).
Proof.
  destruct ev as [| |i seen|timeout]; simpl.
  - unfold main_step. simpl. destruct (st_pc s) as [i|i|i| |r]; simpl; auto.
    + destruct (nth_error items i); auto.
      destruct (is_some (st_ctx s)); auto. destruct (st_limiter s); auto.
    + destruct (st_limiter s) as [[l burst]|]; auto.
      destruct (limiter_Wait burst (st_ctx s)); auto.
    + destruct (slot_free _ _); auto.
    + destruct (st_running s); auto.
  - unfold wait_deadline_step. simpl.
    destruct (st_pc s) as [i|i|i| |r]; simpl; auto.
    destruct (st_limiter s) as [[l burst]|]; auto.
    destruct (limiter_Wait burst (st_ctx s)); auto.
  - unfold finish_step. simpl.
    destruct (mem_index i (st_running s)); auto.
    destruct (nth_error items i) as [v|]; auto.
    unfold without_panics.
    destruct (handler (if seen then st_ctx s else None) v) as [|e|p]; simpl.
    + unfold silent; simpl. now rewrite map_app.
    + destruct (IgnoreError (config b)); simpl.
      * unfold silent; simpl. now rewrite map_app.
      * unfold group_error; simpl. destruct (st_gerr s); unfold silent; simpl;
          now rewrite map_app.
    + unfold silent; simpl. now rewrite map_app.
  - unfold ctx_done_step. simpl. destruct (st_ctx s); auto.
Qed.

Lemma run_silent evs s :
  Batch.run b items (without_panics handler) evs (silent s) =
  option_map silent (run evs s).
Proof.
  revert s. induction evs as [|ev evs IH]; intros s; simpl; [reflexivity|].
  rewrite step_silent. destruct (step ev s); simpl; auto.
Qed.

(** C6: a handler call that panics is recovered inside its goroutine: the
    goroutine leaves the group like one whose handler returned [nil], the
    panic is printed with the index, and the group's error, the context,
    the accumulator and the calling thread are untouched.  Hence, under
    either policy and every schedule, [Execute] with a handler that panics
    does exactly what it does with the handler that returns [nil] in place
    of each panic, up to the printed lines: the same items are dispatched
    and complete, and the same result is returned. *)
Theorem panic_is_swallowed ctx evs s i (seen : bool) v p s' :
  Execute ctx evs = Some s ->
  nth_error items i = Some v ->
  handler (if seen then st_ctx s else None) v = HPanic p ->
  step (EvFinish i seen) s = Some s' ->
  (st_gerr s' = st_gerr s /\ st_ctx s' = st_ctx s /\ st_errs s' = st_errs s /\
   st_pc s' = st_pc s /\ st_dispatched s' = st_dispatched s /\
   st_running s' = remove_index i (st_running s) /\
   st_log s' = st_log s ++ [(i, p)]) /\
  (forall ctx' evs',
     Batch.Execute b items (without_panics handler) ctx' evs' =
     option_map silent (Execute ctx' evs')).
Proof.
  intros _ Hv Hp Hstep. split.
  - simpl in Hstep. apply finish_step_inv in Hstep.
    destruct Hstep as (v' & M & N & Hpc & Hl & Hr & Hdd & Hf & Hlg & Hres).
    cbv zeta in Hf, Hlg, Hres. rewrite Hv in N. inversion N; subst v'.
    rewrite Hp in Hlg, Hres. destruct Hres as (He & Hg & Hc).
    repeat split; auto.
  - intros ctx' evs'. unfold Batch.Execute.
    rewrite <- run_silent. f_equal.
    unfold silent, Batch.Execute_init. destruct items; reflexivity.
Qed.

(** *** The early return of the limiter's failure *)

(** Every goroutine has completed when [Execute] returns through the wait
    of the group. *)
Lemma Execute_returns_after_wait ctx evs s r :
  Execute ctx evs = Some s -> st_pc s = PDone r ->
  (forall i cause, r <> Some (RateLimiterError i cause)) ->
  st_running s = [] /\
  Permutation (st_dispatched s) (map fst (st_finished s)).
Proof.
  intros Hrun Hpc Hr.
  pose proof (history_ok_run _ _ _ Hrun) as [_ Hperm _ _].
  pose proof (return_ok_run _ _ _ Hrun) as Hret.
  unfold return_ok in Hret. rewrite Hpc in Hret.
  destruct Hret as [(_ & i & cause & E)|[Hrn _]].
  - now apply Hr in E.
  - split; [exact Hrn|]. now rewrite Hrn, app_nil_r in Hperm.
Qed.

(** *** Termination *)

Lemma remove_index_length_mem i l :
  mem_index i l = true -> S (length (remove_index i l)) = length l.
Proof.
  induction l as [|j l IH]; simpl; [discriminate|].
  destruct (Nat.eqb i j); simpl; auto.
Qed.

Lemma cancel_with_rank reason ctx :
  ((if is_some (cancel_with reason ctx) then 0 else 1) <=
   (if is_some ctx then 0 else 1))%nat.
Proof.
  destruct ctx; simpl; lia.
Qed.

(** Every step decreases the measure. *)
Lemma step_measure ev s s' :
  history_ok items handler s -> step ev s = Some s' ->
  (measure (length items) s' < measure (length items) s)%nat.
Proof.
  intros [(k & Hd & Hk & Hpc) _ _ _] Hstep. unfold measure.
  destruct ev as [| |i seen|timeout]; simpl in Hstep.
  - apply main_step_inv in Hstep.
    destruct Hstep as (_ & _ & _ & _ & _ & Hrest).
    destruct (st_pc s) as [i|i|i| |r]; simpl in Hpc.
    + destruct Hrest as (-> & _ & -> & Hp).
      destruct (nth_error items i) eqn:N.
      * assert (i < length items)%nat by (apply nth_error_Some; congruence).
        destruct (is_some (st_ctx s)); [rewrite Hp; simpl; lia|].
        destruct (st_limiter s); rewrite Hp; simpl; lia.
      * rewrite Hp. simpl. lia.
    + destruct Hrest as (-> & _ & -> & Hp). destruct Hpc as [-> Hlt].
      destruct (st_limiter s) as [[l burst]|];
        [destruct (limiter_Wait burst (st_ctx s))|]; rewrite Hp; simpl; lia.
    + destruct Hrest as (_ & -> & _ & -> & ->). destruct Hpc as [-> Hlt].
      rewrite length_app. simpl. lia.
    + destruct Hrest as (-> & -> & _ & -> & ->).
      pose proof (cancel_with_rank Canceled (st_ctx s)). simpl. lia.
    + contradiction.
  - apply wait_deadline_step_inv in Hstep.
    destruct Hstep as (i & E & _ & ->). rewrite E in *. simpl in *. lia.
  - apply finish_step_inv in Hstep.
    destruct Hstep as (v & M & N & -> & _ & -> & _ & _ & _ & Hres).
    cbv zeta in Hres. apply remove_index_length_mem in M.
    assert (Hc : ((if is_some (st_ctx s') then 0 else 1) <=
                  (if is_some (st_ctx s) then 0 else 1))%nat).
    { destruct (handler (if seen then st_ctx s else None) v);
        [destruct Hres as (_ & _ & ->); lia| |
         destruct Hres as (_ & _ & ->); lia].
      destruct (IgnoreError (config b)); destruct Hres as (_ & _ & ->);
        [lia|]. destruct (st_gerr s); [lia|apply cancel_with_rank]. }
    lia.
  - apply ctx_done_step_inv in Hstep.
    destruct Hstep as (Hn & Hs & -> & _ & -> & _). rewrite Hn, Hs. simpl. lia.
Qed.

(** Unless the limit of the group is 0, a state in which [Execute] has not
    returned has a step. *)
Lemma step_progress s :
  history_ok items handler s -> Concurrency (config b) <> 0 ->
  (forall r, st_pc s <> PDone r) ->
  exists ev s', step ev s = Some s'.
Proof.
  intros Hh Hlim Hpc.
  destruct (st_pc s) as [i|i|i| |r] eqn:Epc.
  - exists EvMain. simpl. unfold main_step. rewrite Epc.
    destruct (nth_error items i); [|eauto].
    destruct (is_some (st_ctx s)); [eauto|].
    destruct (st_limiter s); eauto.
  - exists EvMain. simpl. unfold main_step. rewrite Epc.
    destruct (st_limiter s) as [[l burst]|]; [|eauto].
    destruct (limiter_Wait burst (st_ctx s)); eauto.
  - destruct (slot_free (Concurrency (config b)) (st_running s)) eqn:F.
    + exists EvMain. simpl. unfold main_step. rewrite Epc, F. eauto.
    + unfold slot_free in F. apply orb_false_iff in F. destruct F as [F1 F2].
      apply Z.ltb_ge in F1, F2.
      destruct (st_running s) as [|j l] eqn:R; [simpl in F2; lia|].
      exists (EvFinish j false).
      apply running_can_finish; [exact Hh|]. rewrite R. now left.
  - destruct (st_running s) as [|j l] eqn:R.
    + exists EvMain. simpl. unfold main_step. rewrite Epc, R. eauto.
    + exists (EvFinish j false).
      apply running_can_finish; [exact Hh|]. rewrite R. now left.
  - now destruct (Hpc r).
Qed.

Lemma measure_run evs s s' :
  history_ok items handler s -> run evs s = Some s' ->
  (length evs + measure (length items) s' <= measure (length items) s)%nat.
Proof.
  revert s. induction evs as [|ev evs IH]; intros s Hh Hrun; simpl in Hrun.
  - inversion Hrun; subst. simpl. lia.
  - destruct (step ev s) as [s1|] eqn:E; [|discriminate].
    pose proof (step_measure _ _ _ Hh E).
    pose proof (IH _ (history_ok_step _ _ _ Hh E) Hrun). simpl. lia.
Qed.

Lemma run_to_return s :
  history_ok items handler s -> Concurrency (config b) <> 0 ->
  exists evs s' r, run evs s = Some s' /\ st_pc s' = PDone r.
Proof.
  intros Hh Hlim.
  remember (measure (length items) s) as m eqn:Hm.
  revert s Hh Hm. induction m as [m IH] using lt_wf_ind. intros s Hh Hm.
  destruct (st_pc s) as [i|i|i| |r] eqn:Epc;
    try (destruct (step_progress s Hh Hlim) as (ev & s1 & Hstep);
         [intros r; congruence|];
         destruct (IH (measure (length items) s1)) with (s := s1)
           as (evs & s' & r & Hrun & Hp);
         [subst m; eapply step_measure; eauto|
          eapply history_ok_step; eauto|reflexivity|];
         exists (ev :: evs), s', r; simpl; rewrite Hstep; auto).
  exists [], s, r. auto.
Qed.

(** X24: [Execute] terminates: unless the limit of the group is 0 (which the
    package's options exclude), no schedule has more than
    [4 * len(items) + 3] steps, and every schedule can be continued to a
    state in which [Execute] has returned. *)
Lemma Execute_terminates ctx evs s :
  Concurrency (config b) <> 0 ->
  Execute ctx evs = Some s ->
  (length evs <= 4 * length items + 3)%nat /\
  exists evs' s' r, run evs' s = Some s' /\ st_pc s' = PDone r.
Proof.
  intros Hlim Hrun. split.
  - pose proof (measure_run _ _ _ (history_ok_init ctx) Hrun) as H.
    assert (measure (length items) (Execute_init ctx) <= 4 * length items + 3)%nat.
    { unfold measure, Batch.Execute_init. destruct items; simpl.
      - destruct (is_some ctx); lia.
      - destruct (is_some ctx); lia. }
    lia.
  - apply run_to_return; [|exact Hlim]. eapply history_ok_run; eauto.
Qed.

(** *** Further properties of Execute *)

(** X16: with a limit [Concurrency] that is not negative, at no point of any
    schedule are more than [Concurrency] handler calls in flight. *)
Theorem Execute_concurrency_bound ctx evs s :
  0 <= Concurrency (config b) ->
  Execute ctx evs = Some s ->
  Z.of_nat (length (st_running s)) <= Concurrency (config b).
Proof.
  intros Hc Hrun. now apply (limit_ok_run _ _ _ Hrun).
Qed.

(** X17: items are handed to the group in input order, each at most once:
    the indices dispatched are [0, 1, ..., k-1] for some [k] up to the
    length of the slice, every one of them is either in flight or
    completed, none is both or twice, and every completed call is a call of
    the handler on the item of its index. *)
Theorem Execute_dispatch_order ctx evs s :
  Execute ctx evs = Some s ->
  exists k,
    (k <= length items)%nat /\ st_dispatched s = seq 0 k /\
    Permutation (seq 0 k) (map fst (st_finished s) ++ st_running s) /\
    NoDup (map fst (st_finished s) ++ st_running s) /\
    forall i r, In (i, r) (st_finished s) ->
      exists v c, nth_error items i = Some v /\ handler c v = r.
Proof.
  intros Hrun. pose proof (history_ok_run _ _ _ Hrun) as Hh.
  destruct (history_ok_run _ _ _ Hrun) as [(k & Hd & Hk & _) Hperm _ _].
  exists k. rewrite Hd in Hperm. repeat split; auto.
  - eapply Permutation_NoDup; [exact Hperm|apply seq_NoDup].
  - intros i r Hin. eapply finished_call; eauto.
Qed.

(** X18: the lines printed are exactly the panics of the completed handler
    calls, one line each with the index of the item, in completion
    order. *)
Theorem Execute_log_is_panics ctx evs s :
  Execute ctx evs = Some s ->
  st_log s = panics (st_finished s) /\
  (forall i p, In (i, p) (st_log s) <-> In (i, HPanic p) (st_finished s)).
Proof.
  intros Hrun. pose proof (history_ok_run _ _ _ Hrun) as [_ _ _ Hlog].
  split; [exact Hlog|]. intros i p. rewrite Hlog. unfold panics.
  rewrite in_flat_map. split.
  - intros ([j r] & Hin & Hx). simpl in Hx.
    destruct r as [|e|q]; simpl in Hx; try contradiction.
    destruct Hx as [Hx|[]]. inversion Hx; subst. exact Hin.
  - intros Hin. exists (i, HPanic p). split; [exact Hin|]. simpl. now left.
Qed.

Lemma limiter_none_run ctx evs s :
  RateLimit (config b) = Inf -> Execute ctx evs = Some s ->
  st_limiter s = None.
Proof.
  intros Hinf.
  apply (run_invariant (fun s => st_limiter s = None)).
  - intros ev s1 s2 H1 H2. now rewrite (step_limiter _ _ _ H2).
  - unfold Batch.Execute_init. destruct items; simpl; [reflexivity|].
    now rewrite Hinf.
Qed.

(** X19: without a rate limiter [Execute] returns only through the wait of
    the group: when it has returned no goroutine is in flight, every
    dispatched item has completed exactly once, and the result is the first
    failure in completion order under fail-fast, and under
    collect-and-continue the aggregate of all failures ([nil] if there are
    none). *)
Theorem Execute_without_limiter ctx evs s r :
  RateLimit (config b) = Inf ->
  Execute ctx evs = Some s ->
  st_pc s = PDone r ->
  st_running s = [] /\
  Permutation (st_dispatched s) (map fst (st_finished s)) /\
  r = if IgnoreError (config b)
      then aggregate (recorded (st_finished s))
      else first_failure (st_finished s).
Proof.
  intros Hinf Hrun Hpc.
  pose proof (limiter_none_run _ _ _ Hinf Hrun) as Hlim.
  pose proof (history_ok_run _ _ _ Hrun) as [_ Hperm _ _].
  pose proof (return_ok_run _ _ _ Hrun) as Hret.
  pose proof (policy_ok_run _ _ _ Hrun) as Hpol.
  unfold return_ok in Hret. rewrite Hpc in Hret.
  destruct Hret as [(Hl & _)|[Hrn Hres]]; [congruence|].
  split; [exact Hrn|]. split; [now rewrite Hrn, app_nil_r in Hperm|].
  unfold policy_ok in Hpol. destruct (IgnoreError (config b)) eqn:Hig.
  - destruct Hpol as [Hg He]. rewrite Hres, Hg, <- He.
    now apply outcome_collect.
  - destruct Hpol as (He & Hg & _). rewrite Hres, <- Hg. unfold outcome.
    rewrite He. destruct (st_gerr s); reflexivity.
Qed.

Lemma limiter_grants_run ctx evs s :
  RateLimit (config b) = Inf \/ 1 <= Burst (config b) ->
  Execute ctx evs = Some s -> limiter_grants s.
Proof.
  intros Hb.
  apply (run_invariant limiter_grants).
  - intros ev s1 s2 H1 H2. unfold limiter_grants in *.
    now rewrite (step_limiter _ _ _ H2).
  - unfold limiter_grants, Batch.Execute_init. destruct items; simpl; auto.
    destruct (RateLimit (config b)); auto. destruct Hb; [discriminate|auto].
Qed.

Lemma gerr_monotone ev s s' :
  step ev s = Some s' -> st_gerr s' = None -> st_gerr s = None.
Proof.
  destruct ev as [| |i seen|timeout]; simpl; intros Hstep Hg.
  - apply main_step_inv in Hstep. destruct Hstep as (_ & E & _). congruence.
  - apply wait_deadline_step_inv in Hstep.
    destruct Hstep as (i & _ & _ & ->). exact Hg.
  - apply finish_step_inv in Hstep.
    destruct Hstep as (v & _ & _ & _ & _ & _ & _ & _ & _ & Hres).
    cbv zeta in Hres.
    destruct (handler (if seen then st_ctx s else None) v);
      [destruct Hres as (_ & E & _); congruence| |
       destruct Hres as (_ & E & _); congruence].
    destruct (IgnoreError (config b)); destruct Hres as (_ & E & _);
      [congruence|]. destruct (st_gerr s); congruence.
  - apply ctx_done_step_inv in Hstep.
    destruct Hstep as (_ & _ & _ & _ & _ & E & _). congruence.
Qed.

Lemma undisturbed_step ev s s' :
  history_ok items handler s -> limiter_grants s ->
  (forall timeout, ev <> EvCtxDone timeout) -> ev <> EvWaitDeadline ->
  undisturbed b items s -> step ev s = Some s' -> undisturbed b items s'.
Proof.
  intros [(k & Hd & Hk & Hpc) _ _ _] Hlg Hev1 Hev2 Hu Hstep Hg'.
  pose proof (gerr_monotone _ _ _ Hstep Hg') as Hg. specialize (Hu Hg).
  unfold limiter_grants in Hlg.
  destruct ev as [| |i seen|timeout]; simpl in Hstep.
  - apply main_step_inv in Hstep.
    destruct Hstep as (_ & _ & He & _ & _ & Hrest).
    destruct (st_pc s) as [i|i|i| |r]; simpl in Hpc.
    + destruct Hrest as (_ & Hdd & Hc & Hp). rewrite Hu in Hp. simpl in Hp.
      destruct (nth_error items i) eqn:N.
      * destruct (st_limiter s); rewrite Hp; congruence.
      * rewrite Hp. split; [congruence|]. rewrite Hdd, Hd. f_equal.
        apply nth_error_None in N. lia.
    + destruct Hrest as (_ & _ & Hc & Hp).
      destruct (st_limiter s) as [[l burst]|]; [|rewrite Hp; congruence].
      unfold limiter_Wait in Hp. rewrite Hu in Hp.
      replace (burst <? 1) with false in Hp
        by (symmetry; apply Z.ltb_ge; lia).
      rewrite Hp. congruence.
    + destruct Hrest as (_ & _ & _ & Hc & ->). congruence.
    + destruct Hrest as (_ & Hr & Hdd & _ & ->). destruct Hu as [_ Hu].
      rewrite Hdd, Hr, He, Hg. auto.
    + contradiction.
  - congruence.
  - apply finish_step_inv in Hstep.
    destruct Hstep as (v & M & _ & Hp & _ & Hr & Hdd & _ & _ & Hres).
    cbv zeta in Hres. rewrite Hp, Hdd.
    assert (Hc : st_ctx s' = st_ctx s).
    { destruct (handler (if seen then st_ctx s else None) v);
        [destruct Hres as (_ & _ & ->); auto| |
         destruct Hres as (_ & _ & ->); auto].
      destruct (IgnoreError (config b)); destruct Hres as (_ & Hge & Hce);
        [exact Hce|].
      rewrite Hg in Hge. congruence. }
    rewrite Hc.
    destruct (st_pc s) as [i0|i0|i0| |r]; auto.
    destruct Hu as (_ & Hrn & _). rewrite Hrn in M. discriminate.
  - now destruct (Hev1 timeout).
Qed.

Lemma undisturbed_run evs s s' :
  history_ok items handler s -> limiter_grants s ->
  (forall timeout, ~ In (EvCtxDone timeout) evs) -> ~ In EvWaitDeadline evs ->
  undisturbed b items s -> run evs s = Some s' -> undisturbed b items s'.
Proof.
  revert s. induction evs as [|ev evs IH];
    intros s Hh Hlg Hev1 Hev2 Hu Hrun; simpl in Hrun.
  - now inversion Hrun; subst.
  - destruct (step ev s) as [s1|] eqn:E; [|discriminate].
    apply (IH s1); auto.
    + eapply history_ok_step; eauto.
    + unfold limiter_grants in *. now rewrite (step_limiter _ _ _ E).
    + intros t Hin. apply (Hev1 t). now right.
    + intros Hin. apply Hev2. now right.
    + eapply undisturbed_step; eauto.
      * intros t ->. apply (Hev1 t). now left.
      * intros ->. apply Hev2. now left.
Qed.

(** X20: if the caller's context is live and stays so, the limiter (if any,
    with a burst of at least 1) does not give up on a deadline, and no
    failure has reached the group, then [Execute] returns only when every
    item of the slice has been dispatched and has completed; it returns
    [nil] under fail-fast and the aggregate of the recorded failures under
    collect-and-continue, where no failure ever reaches the group. *)
Theorem Execute_completes_all evs s r :
  RateLimit (config b) = Inf \/ 1 <= Burst (config b) ->
  (forall timeout, ~ In (EvCtxDone timeout) evs) ->
  ~ In EvWaitDeadline evs ->
  Execute None evs = Some s ->
  st_pc s = PDone r ->
  st_gerr s = None ->
  st_dispatched s = seq 0 (length items) /\
  Permutation (seq 0 (length items)) (map fst (st_finished s)) /\
  st_running s = [] /\
  r = (if IgnoreError (config b)
       then aggregate (recorded (st_finished s)) else None) /\
  (IgnoreError (config b) = true -> st_gerr s = None).
Proof.
  intros Hb Hev1 Hev2 Hrun Hpc Hg.
  pose proof (history_ok_run _ _ _ Hrun) as [_ Hperm _ _].
  pose proof (policy_ok_run _ _ _ Hrun) as Hpol.
  assert (Hu : undisturbed b items s).
  { apply (undisturbed_run evs (Execute_init None)); auto.
    - apply history_ok_init.
    - apply (limiter_grants_run None []); auto.
    - intros _. unfold Batch.Execute_init. destruct items; simpl; auto. }
  specialize (Hu Hg). rewrite Hpc in Hu. destruct Hu as (Hd & Hr & Hres).
  rewrite Hd, Hr, app_nil_r in Hperm. repeat split; auto.
  unfold policy_ok in Hpol. destruct (IgnoreError (config b)) eqn:Hig.
  - destruct Hpol as [_ He]. rewrite Hres, <- He. now apply outcome_collect.
  - destruct Hpol as (He & _). rewrite Hres, He. reflexivity.
Qed.

(** Once the context is done, at most one more item is handed to the
    group. *)
Lemma cancelled_run evs' s s' :
  is_some (st_ctx s) = true -> run evs' s = Some s' ->
  st_dispatched s' = st_dispatched s \/
  exists i, st_dispatched s' = st_dispatched s ++ [i].
Proof.
  revert s. induction evs' as [|ev evs' IH]; intros s Hctx Hrun;
    simpl in Hrun.
  - inversion Hrun; subst. now left.
  - destruct (step ev s) as [s1|] eqn:E; [|discriminate].
    destruct ev as [| |j seen|timeout]; simpl in E.
    + apply main_step_inv in E. destruct E as (_ & _ & _ & _ & _ & Hrest).
      destruct (st_pc s) as [i|i|i| |r] eqn:Epc.
      * destruct Hrest as (_ & Hd & _ & Hp). rewrite Hctx in Hp.
        assert (Hp1 : st_pc s1 = PWait) by (destruct (nth_error items i); auto).
        apply loop_left_run in Hrun; [|unfold loop_left; now rewrite Hp1].
        destruct Hrun as (_ & Hd' & _). left. congruence.
      * destruct Hrest as (_ & Hd & Hc & Hp). rewrite <- Hd.
        apply IH; [congruence|exact Hrun].
      * destruct Hrest as (_ & _ & Hd & Hc & Hp). right. exists i.
        rewrite <- Hd. eapply halted_run; eauto. congruence.
      * destruct Hrest as (_ & _ & Hd & _ & Hp).
        apply loop_left_run in Hrun; [|unfold loop_left; now rewrite Hp].
        destruct Hrun as (_ & Hd' & _). left. congruence.
      * contradiction.
    + apply wait_deadline_step_inv in E. destruct E as (i & _ & _ & ->).
      apply loop_left_run in Hrun; [|exact I].
      destruct Hrun as (_ & Hd' & _). now left.
    + apply finish_step_inv in E.
      destruct E as (v & _ & _ & _ & _ & _ & Hd & _ & _ & Hres).
      cbv zeta in Hres. rewrite <- Hd. apply IH; [|exact Hrun].
      destruct (handler (if seen then st_ctx s else None) v);
        [destruct Hres as (_ & _ & ->); auto| |
         destruct Hres as (_ & _ & ->); auto].
      destruct (IgnoreError (config b)); destruct Hres as (_ & _ & ->); auto.
      destruct (st_gerr s); auto. destruct (st_ctx s); auto.
    + apply ctx_done_step_inv in E. destruct E as (Hn & _).
      rewrite Hn in Hctx. discriminate.
Qed.

(** X21: once the context of the group is done - cancelled by the caller, by
    a deadline, or by the first failure under fail-fast - it stays done and
    at most one more item is dispatched: the one whose context check had
    already passed. *)
Theorem Execute_stops_after_cancellation ctx evs s evs' s' :
  Execute ctx evs = Some s ->
  is_some (st_ctx s) = true ->
  run evs' s = Some s' ->
  (length (st_dispatched s') <= S (length (st_dispatched s)))%nat /\
  is_some (st_ctx s') = true.
Proof.
  intros Hrun Hctx Hrun'. split.
  - destruct (cancelled_run _ _ _ Hctx Hrun') as [->|(i & ->)];
      [lia|rewrite length_app; simpl; lia].
  - revert Hrun'. apply (run_invariant (fun s => is_some (st_ctx s) = true));
      [|exact Hctx].
    intros ev s1 s2 H1 H2.
    destruct ev as [| |j seen|timeout]; simpl in H2.
    + apply main_step_inv in H2. destruct H2 as (_ & _ & _ & _ & _ & Hrest).
      destruct (st_pc s1) as [i|i|i| |r].
      * destruct Hrest as (_ & _ & -> & _); auto.
      * destruct Hrest as (_ & _ & -> & _); auto.
      * destruct Hrest as (_ & _ & _ & -> & _); auto.
      * destruct Hrest as (_ & _ & _ & -> & _). destruct (st_ctx s1); auto.
      * contradiction.
    + apply wait_deadline_step_inv in H2. now destruct H2 as (i & _ & _ & ->).
    + apply finish_step_inv in H2.
      destruct H2 as (v & _ & _ & _ & _ & _ & _ & _ & _ & Hres).
      cbv zeta in Hres.
      destruct (handler (if seen then st_ctx s1 else None) v);
        [destruct Hres as (_ & _ & ->); auto| |
         destruct Hres as (_ & _ & ->); auto].
      destruct (IgnoreError (config b)); destruct Hres as (_ & _ & ->); auto.
      destruct (st_gerr s1); auto. destruct (st_ctx s1); auto.
    + apply ctx_done_step_inv in H2. now destruct H2 as (_ & ? & _).
Qed.

(** The states of [Execute] whose group has the limit 0: nothing is ever
    dispatched. *)
Lemma zero_limit_step ev s s' :
  Concurrency (config b) = 0 ->
  st_dispatched s = [] /\ st_running s = [] /\ st_finished s = [] ->
  step ev s = Some s' ->
  (st_dispatched s' = [] /\ st_running s' = [] /\ st_finished s' = []) /\
  (st_pc s = PGo 0 -> st_pc s' = PGo 0).
Proof.
  intros Hz (Hd & Hr & Hf) Hstep.
  destruct ev as [| |i seen|timeout]; simpl in Hstep.
  - apply main_step_inv in Hstep.
    destruct Hstep as (_ & _ & _ & _ & Hf' & Hrest).
    destruct (st_pc s) as [i|i|i| |r].
    + destruct Hrest as (-> & -> & _). repeat split; try congruence.
    + destruct Hrest as (-> & -> & _). repeat split; try congruence.
    + destruct Hrest as (Hfree & _). rewrite Hz, Hr in Hfree. discriminate.
    + destruct Hrest as (_ & -> & -> & _). repeat split; try congruence.
    + contradiction.
  - apply wait_deadline_step_inv in Hstep.
    destruct Hstep as (i & E & _ & ->). simpl. repeat split; auto. congruence.
  - apply finish_step_inv in Hstep. destruct Hstep as (v & M & _).
    rewrite Hr in M. discriminate.
  - apply ctx_done_step_inv in Hstep.
    destruct Hstep as (_ & _ & -> & _ & -> & _ & _ & _ & -> & ->). auto.
Qed.

(** X22: with the limit 0 (a value only a hand-written option can set; the
    package's options keep it at 1 or more) [g.Go] blocks for ever: nothing
    is ever dispatched, and once the calling thread is at [g.Go] for the
    first item it stays there under every schedule, so [Execute] does not
    return. *)
Theorem Execute_zero_limit_blocks ctx evs s :
  Concurrency (config b) = 0 ->
  Execute ctx evs = Some s ->
  st_dispatched s = [] /\ st_running s = [] /\ st_finished s = [] /\
  (st_pc s = PGo 0 ->
   step EvMain s = None /\
   forall evs' s', run evs' s = Some s' -> st_pc s' = PGo 0).
Proof.
  intros Hz Hrun.
  assert (Hinv : st_dispatched s = [] /\ st_running s = [] /\
                 st_finished s = []).
  { revert Hrun.
    apply (run_invariant (fun s => st_dispatched s = [] /\
                                   st_running s = [] /\ st_finished s = [])).
    - intros ev s1 s2 H1 H2. now apply (zero_limit_step _ _ _ Hz H1 H2).
    - unfold Batch.Execute_init. destruct items; simpl; auto. }
  destruct Hinv as (Hd & Hr & Hf).
  split; [exact Hd|]. split; [exact Hr|]. split; [exact Hf|].
  intros Hpc. split.
  - simpl. unfold main_step. rewrite Hpc, Hz, Hr. reflexivity.
  - intros evs'. clear Hrun. revert s Hd Hr Hf Hpc.
    induction evs' as [|ev evs' IH]; intros s Hd Hr Hf Hpc s' Hrun';
      simpl in Hrun'.
    + now inversion Hrun'; subst.
    + destruct (step ev s) as [s1|] eqn:E; [|discriminate].
      destruct (zero_limit_step _ _ _ Hz (conj Hd (conj Hr Hf)) E)
        as ((Hd1 & Hr1 & Hf1) & Hp1).
      apply (IH s1); auto.
Qed.

End Facts.

Import Examples.

(** *** Configuration *)

Lemma package_options_concurrency (opts : list Option_) (c : BatchConfig) :
  Forall package_option opts -> 1 <= Concurrency c ->
  1 <= Concurrency (fold_left (fun cfg opt => opt cfg) opts c).
Proof.
  intros Hopts. revert c. induction Hopts as [|o opts Ho _ IH]; intros c Hc.
  - exact Hc.
  - simpl. apply IH. destruct Ho as [n|rps|n|ig].
    + unfold WithConcurrency. destruct (0 <? n) eqn:E; simpl; auto.
      apply Z.ltb_lt in E. lia.
    + unfold WithRateLimit. destruct (0 <? rps); simpl; auto.
    + unfold WithBurst. destruct (0 <? n); simpl; auto.
    + exact Hc.
Qed.

(** C2 (as stated, refuted): [WithConcurrency(0)] does not make the
    concurrency 1; the executor keeps the default of 10. *)
Lemma WithConcurrency_zero_not_one :
  0 <= 0 /\
  Concurrency (config (NewBatchExecutor [WithConcurrency 0])) = 10 /\
  Concurrency (config (NewBatchExecutor [WithConcurrency 0])) <> 1.
Proof.
  repeat split; [lia|discriminate].
Qed.

(** C2 (amended): an option [WithConcurrency(n)] with [n <= 0] is ignored, so
    the configuration is the one the other options built (10 by default),
    not 1; and for every list of the package's options the concurrency of
    the executor, which is the limit [Execute] gives to its group, is at
    least 1 and bounds the number of goroutines in flight. *)
Theorem WithConcurrency_nonpositive_ignored
  (opts : list Option_) (n : Z) :
  Forall package_option opts -> n <= 0 ->
  (forall c, WithConcurrency n c = c) /\
  config (NewBatchExecutor (opts ++ [WithConcurrency n])) =
    config (NewBatchExecutor opts) /\
  1 <= Concurrency (config (NewBatchExecutor (opts ++ [WithConcurrency n]))) /\
  forall (T : Type) (items : list T) (h : Handler T) ctx evs s,
    Execute (NewBatchExecutor (opts ++ [WithConcurrency n])) items h ctx evs
      = Some s ->
    Z.of_nat (length (st_running s)) <=
      Concurrency (config (NewBatchExecutor (opts ++ [WithConcurrency n]))).
Proof.
  intros Hopts Hn.
  assert (Hid : forall c, WithConcurrency n c = c).
  { intros c. unfold WithConcurrency.
    destruct (0 <? n) eqn:E; [apply Z.ltb_lt in E; lia|reflexivity]. }
  assert (Hcfg : config (NewBatchExecutor (opts ++ [WithConcurrency n])) =
                 config (NewBatchExecutor opts)).
  { unfold NewBatchExecutor. simpl. rewrite fold_left_app. simpl. apply Hid. }
  assert (Hpos : 1 <= Concurrency (config (NewBatchExecutor opts))).
  { unfold NewBatchExecutor. simpl.
    apply package_options_concurrency; [exact Hopts|simpl; lia]. }
  repeat split; auto.
  - now rewrite Hcfg.
  - intros T items h ctx evs s Hrun.
    apply limit_ok_run in Hrun. apply Hrun. rewrite Hcfg. lia.
Qed.

(** [WithConcurrency(-3)] after [WithRateLimit(5)]: the concurrency stays 10. *)
Lemma WithConcurrency_nonpositive_ignored_witness :
  config (NewBatchExecutor [WithRateLimit 5; WithConcurrency (-3)]) =
    config (NewBatchExecutor [WithRateLimit 5]) /\
  Concurrency (config (NewBatchExecutor [WithRateLimit 5; WithConcurrency (-3)]))
    = 10.
Proof.
  destruct (WithConcurrency_nonpositive_ignored [WithRateLimit 5] (-3))
    as (_ & H & _).
  - repeat constructor.
  - lia.
  - split; [exact H|reflexivity].
Defined.

(** *** Concrete runs *)

(** C1 (the code at the failing input): with a limiter of one request per
    second, two items and a handler that returns [nil], the goroutine of
    index 0 is in flight when the caller's context is cancelled during the
    limiter's wait for index 1.  [Execute] returns the limiter's failure
    while that goroutine has not completed: it completes after the
    return. *)
Theorem Execute_limiter_failure_leaks :
  exists s,
    Execute throttled [0; 1]%nat (behaves [] []) None
      [EvMain; EvMain; EvMain; EvMain; EvCtxDone false; EvMain] = Some s /\
    st_pc s = PDone (Some (RateLimiterError 1 Canceled)) /\
    st_running s = [0%nat] /\ st_finished s = [] /\
    exists s',
      step throttled [0; 1]%nat (behaves [] []) (EvFinish 0 false) s = Some s' /\
      st_pc s' = PDone (Some (RateLimiterError 1 Canceled)) /\
      st_running s' = [] /\ st_finished s' = [(0%nat, HOk)].
Proof.
  eexists. split; [vm_compute; reflexivity|].
  repeat split. eexists. split; [vm_compute; reflexivity|].
  repeat split.
Qed.

(** C4 (as stated, refuted): fail-fast with a limiter.  The handler of
    index 0 fails while the calling thread is in the limiter's wait for
    index 1; the group keeps that failure and cancels the context, the wait
    fails, and [Execute] returns the limiter's failure, not the failure the
    group observed. *)
Lemma fail_fast_outcome_masked_by_limiter :
  exists s,
    Execute throttled [0; 1]%nat (behaves [0%nat] []) None
      [EvMain; EvMain; EvMain; EvMain; EvFinish 0 false; EvMain] = Some s /\
    IgnoreError (config throttled) = false /\
    st_gerr s = Some boom /\
    first_failure (st_finished s) = Some boom /\
    st_running s = [] /\
    st_pc s = PDone (Some (RateLimiterError 1 Canceled)) /\
    st_pc s <> PDone (Some boom).
Proof.
  eexists. split; [vm_compute; reflexivity|].
  repeat split. discriminate.
Qed.

(** C10 (as stated, refuted): fail-fast with a limiter and three items.  The
    handler of index 1 fails during the limiter's wait for index 2; the
    failure [Execute] returns carries the index 2 and wraps
    [context.Canceled]: it is not the value the failing handler returned,
    nor a value any handler call returned. *)
Lemma fail_fast_returns_tagged_limiter_failure :
  exists s,
    Execute throttled [0; 1; 2]%nat (behaves [1%nat] []) None
      [EvMain; EvMain; EvMain; EvFinish 0 false;
       EvMain; EvMain; EvMain; EvMain; EvFinish 1 false; EvMain] = Some s /\
    IgnoreError (config throttled) = false /\
    st_finished s = [(0%nat, HOk); (1%nat, HErr boom)] /\
    st_pc s = PDone (Some (RateLimiterError 2 Canceled)) /\
    (forall c v, behaves [1%nat] [] c v <> HErr (RateLimiterError 2 Canceled)).
Proof.
  eexists. split; [vm_compute; reflexivity|].
  repeat split. intros c v. unfold behaves.
  destruct (mem_index v [1%nat]); [discriminate|].
  destruct (mem_index v []); discriminate.
Qed.

(** *** Instances of the theorems *)

(** Replaces the result of a concrete run by its value. *)
Ltac evaluate E := vm_compute in E; injection E as <-.

(** An empty slice with a finite rate and a handler that would fail. *)
Lemma Execute_empty_input_witness :
  exists s,
    Execute throttled ([] : list nat) (behaves [0%nat] []) None [] = Some s /\
    st_pc s = PDone None /\ st_limiter s = None /\ st_running s = [].
Proof.
  destruct (Execute throttled ([] : list nat) (behaves [0%nat] []) None [])
    as [s|] eqn:E; [|vm_compute in E; discriminate].
  exists s. split; [reflexivity|].
  destruct (Execute_empty_input nat throttled [] (behaves [0%nat] []) None []
              s eq_refl E) as (_ & H1 & H2 & _ & H3 & _).
  auto.
Defined.

(** Three items, a limiter, a context cancelled before the call. *)
Lemma Execute_cancelled_before_dispatch_witness :
  exists s,
    Execute throttledCollecting [0; 1; 2]%nat (behaves [0%nat] [])
      (Some Canceled) [EvMain] = Some s /\
    st_dispatched s = [] /\ st_finished s = [] /\
    exists s',
      Execute throttledCollecting [0; 1; 2]%nat (behaves [0%nat] [])
        (Some Canceled) [EvMain; EvMain] = Some s' /\
      st_pc s' = PDone None /\ st_dispatched s' = [].
Proof.
  destruct (Execute throttledCollecting [0; 1; 2]%nat (behaves [0%nat] [])
              (Some Canceled) [EvMain]) as [s|] eqn:E;
    [|vm_compute in E; discriminate].
  exists s. split; [reflexivity|].
  destruct (Execute_cancelled_before_dispatch nat throttledCollecting
              [0; 1; 2]%nat (behaves [0%nat] []) Canceled [EvMain] s)
    as (H1 & _ & H2 & _ & _ & H3).
  - discriminate.
  - exact E.
  - auto.
Defined.

(** The wait for index 1 is cancelled, under fail-fast, and times out, under
    collect-and-continue. *)
Lemma limiter_failure_escalates_witness :
  (exists s s',
     Execute throttled [0; 1]%nat (behaves [] []) None
       [EvMain; EvMain; EvMain; EvMain; EvCtxDone false] = Some s /\
     step throttled [0; 1]%nat (behaves [] []) EvMain s = Some s' /\
     st_pc s' = PDone (Some (RateLimiterError 1 Canceled)) /\
     st_dispatched s' = [0%nat]) /\
  (exists s s',
     Execute throttledCollecting [0; 1]%nat (behaves [] []) None
       [EvMain; EvMain; EvMain; EvMain; EvCtxDone true] = Some s /\
     step throttledCollecting [0; 1]%nat (behaves [] []) EvMain s = Some s' /\
     st_pc s' = PDone (Some (RateLimiterError 1 DeadlineExceeded)) /\
     st_dispatched s' = [0%nat]).
Proof.
  split.
  - destruct (Execute throttled [0; 1]%nat (behaves [] []) None
                [EvMain; EvMain; EvMain; EvMain; EvCtxDone false])
      as [s|] eqn:E; [|vm_compute in E; discriminate].
    destruct (limiter_failure_escalates nat throttled [0; 1]%nat
                (behaves [] []) None _ s 1%nat (PerSecond 1) 1 Canceled E)
      as (s' & H1 & H2 & H3 & _);
      try (evaluate E; reflexivity).
    exists s, s'. repeat split; auto. rewrite H3. evaluate E. reflexivity.
  - destruct (Execute throttledCollecting [0; 1]%nat (behaves [] []) None
                [EvMain; EvMain; EvMain; EvMain; EvCtxDone true])
      as [s|] eqn:E; [|vm_compute in E; discriminate].
    destruct (limiter_failure_escalates nat throttledCollecting [0; 1]%nat
                (behaves [] []) None _ s 1%nat (PerSecond 5) 2
                DeadlineExceeded E)
      as (s' & H1 & H2 & H3 & _);
      try (evaluate E; reflexivity).
    exists s, s'. repeat split; auto. rewrite H3. evaluate E. reflexivity.
Defined.


(** Ten items of which 3 fails once five are in flight: the failure cancels,
    the four others stay in flight, items 5 to 9 are never dispatched, and
    the wait of the group returns the failure. *)
Lemma fail_fast_through_wait_witness :
  exists s s' s3 s4,
    Execute failFast ten (behaves [3%nat] []) None (main_steps 10) = Some s /\
    step failFast ten (behaves [3%nat] []) (EvFinish 3 false) s = Some s' /\
    st_gerr s' = Some boom /\ is_some (st_ctx s') = true /\
    st_running s' = [0; 1; 2; 4]%nat /\
    (forall evs' s'', run failFast ten (behaves [3%nat] []) evs' s' = Some s'' ->
       st_dispatched s'' = [0; 1; 2; 3; 4]%nat) /\
    Execute failFast ten (behaves [3%nat] []) None
      (main_steps 10 ++ [EvFinish 3 false; EvMain] ++
       finish_all [0; 1; 2; 4]%nat) = Some s3 /\
    step failFast ten (behaves [3%nat] []) EvMain s3 = Some s4 /\
    st_pc s4 = PDone (Some boom).
Proof.
  destruct (Execute failFast ten (behaves [3%nat] []) None (main_steps 10))
    as [s|] eqn:E; [|vm_compute in E; discriminate].
  destruct (Execute failFast ten (behaves [3%nat] []) None
              (main_steps 10 ++ [EvFinish 3 false]))
    as [s'|] eqn:E'; [|vm_compute in E'; discriminate].
  destruct (Execute failFast ten (behaves [3%nat] []) None
              (main_steps 10 ++ [EvFinish 3 false; EvMain] ++
               finish_all [0; 1; 2; 4]%nat))
    as [s3|] eqn:E3; [|vm_compute in E3; discriminate].
  destruct (fail_fast_through_wait nat failFast ten (behaves [3%nat] []) None
              _ s eq_refl E) as (_ & _ & Hfail & _).
  destruct (fail_fast_through_wait nat failFast ten (behaves [3%nat] []) None
              _ s' eq_refl E') as (_ & _ & _ & Hhalt & _).
  destruct (fail_fast_through_wait nat failFast ten (behaves [3%nat] []) None
              _ s3 eq_refl E3) as (_ & _ & _ & _ & Hwait & _).
  evaluate E. evaluate E'. evaluate E3.
  destruct (Hfail 3%nat false _ boom eq_refl eq_refl)
    as (Hc & Hg & _ & Hr & _).
  destruct (Hwait eq_refl eq_refl) as (s4 & Hs4 & Hp4).
  do 3 eexists. exists s4.
  split; [reflexivity|]. split; [reflexivity|].
  split; [exact Hg|]. split; [exact Hc|]. split; [exact Hr|].
  split; [exact (Hhalt 5%nat eq_refl eq_refl)|].
  split; [reflexivity|]. split; [exact Hs4|exact Hp4].
Defined.

(** The failure returned under fail-fast is the handler's own value; the
    accumulator under collect-and-continue holds it wrapped with index 7. *)
Lemma fail_fast_error_is_unwrapped_witness :
  (exists s,
     Execute failFast ten (behaves [3%nat] []) None
       (main_steps 10 ++ [EvFinish 3 false; EvMain] ++
        finish_all [0; 1; 2; 4]%nat ++ [EvMain]) = Some s /\
     st_pc s = PDone (Some boom) /\
     exists i v c, In (i, HErr boom) (st_finished s) /\
                   nth_error ten i = Some v /\
                   behaves [3%nat] [] c v = HErr boom) /\
  (exists s,
     Execute collecting ten (behaves [2; 5; 7]%nat []) None
       (all_dispatched ++ all_complete) = Some s /\
     In (ItemFailed 7 boom) (st_errs s) /\
     exists i v c cause,
       ItemFailed 7 boom = ItemFailed i cause /\
       In (i, HErr cause) (st_finished s) /\
       nth_error ten i = Some v /\
       behaves [2; 5; 7]%nat [] c v = HErr cause).
Proof.
  split.
  - destruct (Execute failFast ten (behaves [3%nat] []) None
                (main_steps 10 ++ [EvFinish 3 false; EvMain] ++
                 finish_all [0; 1; 2; 4]%nat ++ [EvMain]))
      as [s|] eqn:E; [|vm_compute in E; discriminate].
    destruct (fail_fast_error_is_unwrapped nat failFast ten
                (behaves [3%nat] []) None _ s E) as [Hff _].
    evaluate E. eexists. split; [reflexivity|]. split; [reflexivity|].
    destruct (Hff eq_refl boom eq_refl) as [H|[Hlim _]]; [exact H|].
    exfalso. apply Hlim. reflexivity.
  - destruct (Execute collecting ten (behaves [2; 5; 7]%nat []) None
                (all_dispatched ++ all_complete))
      as [s|] eqn:E; [|vm_compute in E; discriminate].
    destruct (fail_fast_error_is_unwrapped nat collecting ten
                (behaves [2; 5; 7]%nat []) None _ s E) as [_ Hcc].
    evaluate E. eexists. split; [reflexivity|].
    assert (Hin : In (ItemFailed 7 boom)
                    [ItemFailed 5 boom; ItemFailed 2 boom; ItemFailed 7 boom])
      by (simpl; auto).
    split; [exact Hin|]. exact (Hcc eq_refl _ Hin).
Defined.

(** Five items, the handler panics on the fourth: the others complete and
    [Execute] returns [nil]. *)
Lemma panic_is_swallowed_witness :
  exists s s',
    Execute failFast five (behaves [] [4%nat]) None
      (main_steps 11 ++ finish_all [0; 1; 2]%nat) = Some s /\
    step failFast five (behaves [] [4%nat]) (EvFinish 3 false) s = Some s' /\
    st_gerr s' = None /\ st_ctx s' = None /\ st_errs s' = [] /\
    st_running s' = [4%nat] /\ st_log s' = [(3%nat, "wild"%string)] /\
    option_map st_pc
      (Execute failFast five (behaves [] [4%nat]) None
         (main_steps 11 ++ finish_all [0; 1; 2; 3; 4]%nat ++ [EvMain]))
      = Some (PDone None) /\
    Execute failFast five (without_panics (behaves [] [4%nat])) None
      (main_steps 11 ++ finish_all [0; 1; 2; 3; 4]%nat ++ [EvMain]) =
    option_map silent
      (Execute failFast five (behaves [] [4%nat]) None
         (main_steps 11 ++ finish_all [0; 1; 2; 3; 4]%nat ++ [EvMain])).
Proof.
  destruct (Execute failFast five (behaves [] [4%nat]) None
              (main_steps 11 ++ finish_all [0; 1; 2]%nat))
    as [s|] eqn:E; [|vm_compute in E; discriminate].
  destruct (step failFast five (behaves [] [4%nat]) (EvFinish 3 false) s)
    as [s'|] eqn:E'; [|evaluate E; vm_compute in E'; discriminate].
  destruct (panic_is_swallowed nat failFast five (behaves [] [4%nat]) None
              _ s 3%nat false 4%nat "wild"%string s' E eq_refl)
    as ((Hg & Hc & He & _ & _ & Hr & Hl) & Hsim).
  - evaluate E. reflexivity.
  - exact E'.
  - exists s, s'. split; [reflexivity|]. split; [exact E'|].
    rewrite Hg, Hc, He, Hr, Hl. evaluate E.
    repeat (split; [reflexivity|]). apply Hsim.
Defined.

(** *** Further properties: configuration and instances *)

(** X23: every executor built from the package's options has a concurrency
    and a burst of at least 1 and a rate that is unlimited or positive, so
    its limiter never refuses a token for want of burst. *)
Theorem package_options_valid (opts : list Option_) :
  Forall package_option opts ->
  1 <= Concurrency (config (NewBatchExecutor opts)) /\
  1 <= Burst (config (NewBatchExecutor opts)) /\
  (RateLimit (config (NewBatchExecutor opts)) = Inf \/
   exists rps, 0 < rps /\
               RateLimit (config (NewBatchExecutor opts)) = PerSecond rps) /\
  limiter_Wait (Burst (config (NewBatchExecutor opts))) None = None.
Proof.
  intros Hopts.
  assert (Hgen : forall c,
    (1 <= Concurrency c /\ 1 <= Burst c /\
     (RateLimit c = Inf \/ exists rps, 0 < rps /\ RateLimit c = PerSecond rps)) ->
    let c' := fold_left (fun cfg opt => opt cfg) opts c in
    1 <= Concurrency c' /\ 1 <= Burst c' /\
    (RateLimit c' = Inf \/ exists rps, 0 < rps /\ RateLimit c' = PerSecond rps)).
  { induction Hopts as [|o opts Ho _ IH]; intros c Hc; [exact Hc|].
    simpl. apply IH. destruct Hc as (H1 & H2 & H3).
    destruct Ho as [n|rps|n|ig].
    - unfold WithConcurrency. destruct (0 <? n) eqn:E; simpl; auto.
      apply Z.ltb_lt in E. repeat split; auto; lia.
    - unfold WithRateLimit. destruct (0 <? rps) eqn:E; simpl; auto.
      apply Z.ltb_lt in E. repeat split; auto. right. eauto.
    - unfold WithBurst. destruct (0 <? n) eqn:E; simpl; auto.
      apply Z.ltb_lt in E. repeat split; auto; lia.
    - simpl. auto. }
  destruct (Hgen defaultConfig) as (H1 & H2 & H3).
  - simpl. repeat split; try lia. now left.
  - unfold NewBatchExecutor. simpl. repeat split; auto.
    unfold limiter_Wait.
    replace (Burst (fold_left (fun cfg opt => opt cfg) opts defaultConfig) <? 1)
      with false by (symmetry; apply Z.ltb_ge; lia).
    reflexivity.
Qed.

Lemma package_options_valid_witness :
  Burst (config (NewBatchExecutor [WithBurst 0; WithRateLimit (-4);
                                   WithConcurrency (-1)])) = 1 /\
  RateLimit (config (NewBatchExecutor [WithBurst 0; WithRateLimit (-4);
                                       WithConcurrency (-1)])) = Inf /\
  1 <= Burst (config (NewBatchExecutor [WithBurst 3; WithRateLimit 5])).
Proof.
  destruct (package_options_valid [WithBurst 3; WithRateLimit 5])
    as (_ & H & _); [repeat constructor|].
  repeat split. exact H.
Defined.

(** With a limit of 2, the third item waits for a slot. *)
Lemma Execute_concurrency_bound_witness :
  exists s,
    Execute (NewBatchExecutor [WithConcurrency 2]) ten (behaves [] []) None
      (main_steps 5) = Some s /\
    st_running s = [0; 1]%nat /\
    Z.of_nat (length (st_running s)) <= 2 /\
    step (NewBatchExecutor [WithConcurrency 2]) ten (behaves [] []) EvMain s
      = None.
Proof.
  destruct (Execute (NewBatchExecutor [WithConcurrency 2]) ten (behaves [] [])
              None (main_steps 5)) as [s|] eqn:E;
    [|vm_compute in E; discriminate].
  pose proof (Execute_concurrency_bound nat (NewBatchExecutor [WithConcurrency 2])
                ten (behaves [] []) None _ s ltac:(discriminate) E) as H.
  exists s. split; [reflexivity|]. split; [evaluate E; reflexivity|].
  split; [exact H|evaluate E; reflexivity].
Defined.

Lemma Execute_dispatch_order_witness :
  exists s k,
    Execute failFast ten (behaves [3%nat] []) None
      (main_steps 10 ++ [EvFinish 3 false; EvFinish 0 false]) = Some s /\
    st_dispatched s = seq 0 k /\ k = 5%nat /\
    NoDup (map fst (st_finished s) ++ st_running s).
Proof.
  destruct (Execute failFast ten (behaves [3%nat] []) None
              (main_steps 10 ++ [EvFinish 3 false; EvFinish 0 false]))
    as [s|] eqn:E; [|vm_compute in E; discriminate].
  destruct (Execute_dispatch_order nat failFast ten (behaves [3%nat] []) None
              _ s E) as (k & Hk & Hd & _ & Hn & _).
  exists s, k. split; [reflexivity|]. split; [exact Hd|]. split; [|exact Hn].
  evaluate E. simpl in Hd.
  assert (Hl : length (seq 0 k) = 5%nat) by (rewrite <- Hd; reflexivity).
  now rewrite length_seq in Hl.
Defined.

Lemma Execute_log_is_panics_witness :
  exists s,
    Execute failFast five (behaves [] [4%nat]) None
      (main_steps 11 ++ finish_all [0; 1; 2; 3; 4]%nat) = Some s /\
    st_log s = [(3%nat, "wild"%string)] /\
    In (3%nat, HPanic "wild") (st_finished s).
Proof.
  destruct (Execute failFast five (behaves [] [4%nat]) None
              (main_steps 11 ++ finish_all [0; 1; 2; 3; 4]%nat))
    as [s|] eqn:E; [|vm_compute in E; discriminate].
  destruct (Execute_log_is_panics nat failFast five (behaves [] [4%nat]) None
              _ s E) as [_ H].
  exists s. split; [reflexivity|]. split; [evaluate E; reflexivity|].
  apply H. evaluate E. simpl. now left.
Defined.

Lemma Execute_without_limiter_witness :
  exists s,
    Execute failFast ten (behaves [3%nat] []) None
      (main_steps 10 ++ [EvFinish 3 false; EvMain] ++
       finish_all [0; 1; 2; 4]%nat ++ [EvMain]) = Some s /\
    st_pc s = PDone (Some boom) /\ st_running s = [] /\
    first_failure (st_finished s) = Some boom.
Proof.
  destruct (Execute failFast ten (behaves [3%nat] []) None
              (main_steps 10 ++ [EvFinish 3 false; EvMain] ++
               finish_all [0; 1; 2; 4]%nat ++ [EvMain]))
    as [s|] eqn:E; [|vm_compute in E; discriminate].
  destruct (Execute_without_limiter nat failFast ten (behaves [3%nat] []) None
              _ s (Some boom) eq_refl E) as (Hr & _ & Hres).
  - evaluate E. reflexivity.
  - exists s. split; [reflexivity|]. split; [evaluate E; reflexivity|].
    split; [exact Hr|]. symmetry. exact Hres.
Defined.

Lemma Execute_completes_all_witness :
  exists s,
    Execute throttledCollecting ten (behaves [2; 5; 7]%nat []) None
      (main_steps 31 ++ all_complete ++ [EvMain]) = Some s /\
    st_dispatched s = ten /\
    st_pc s = PDone (Some (BatchFinished 3 (ItemFailed 5 boom))).
Proof.
  destruct (Execute throttledCollecting ten (behaves [2; 5; 7]%nat []) None
              (main_steps 31 ++ all_complete ++ [EvMain]))
    as [s|] eqn:E; [|vm_compute in E; discriminate].
  destruct (Execute_completes_all nat throttledCollecting ten
              (behaves [2; 5; 7]%nat [])
              (main_steps 31 ++ all_complete ++ [EvMain]) s
              (Some (BatchFinished 3 (ItemFailed 5 boom))))
    as (Hd & _); try (evaluate E; reflexivity); try exact E.
  - right. vm_compute. discriminate.
  - intros timeout Hin. vm_compute in Hin.
    repeat (destruct Hin as [Hin|Hin]; [discriminate|]). exact Hin.
  - intros Hin. vm_compute in Hin.
    repeat (destruct Hin as [Hin|Hin]; [discriminate|]). exact Hin.
  - exists s. split; [reflexivity|]. split; [exact Hd|].
    evaluate E. reflexivity.
Defined.

Lemma Execute_stops_after_cancellation_witness :
  exists s s',
    Execute failFast ten (behaves [] []) None
      (main_steps 5 ++ [EvCtxDone false]) = Some s /\
    run failFast ten (behaves [] []) (main_steps 2 ++ finish_all [0; 1; 2]%nat ++ [EvMain])
      s = Some s' /\
    st_dispatched s = [0; 1]%nat /\ st_dispatched s' = [0; 1; 2]%nat /\
    (length (st_dispatched s') <= S (length (st_dispatched s)))%nat.
Proof.
  destruct (Execute failFast ten (behaves [] []) None
              (main_steps 5 ++ [EvCtxDone false]))
    as [s|] eqn:E; [|vm_compute in E; discriminate].
  destruct (run failFast ten (behaves [] [])
              (main_steps 2 ++ finish_all [0; 1; 2]%nat ++ [EvMain]) s)
    as [s'|] eqn:E'; [|evaluate E; vm_compute in E'; discriminate].
  destruct (Execute_stops_after_cancellation nat failFast ten (behaves [] [])
              None (main_steps 5 ++ [EvCtxDone false]) s
              (main_steps 2 ++ finish_all [0; 1; 2]%nat ++ [EvMain]) s' E)
    as [H _]; [evaluate E; reflexivity|exact E'|].
  exists s, s'. split; [reflexivity|]. split; [exact E'|].
  split; [evaluate E; reflexivity|].
  split; [evaluate E; vm_compute in E'; injection E' as <-; reflexivity|].
  exact H.
Defined.

(** An executor whose concurrency a hand-written option has set to 0. *)
Lemma Execute_zero_limit_blocks_witness :
  exists s,
    Execute {| config := mkConfig 0 Inf 1 false |} [7; 8]%nat (behaves [] [])
      None [EvMain] = Some s /\
    st_pc s = PGo 0 /\
    step {| config := mkConfig 0 Inf 1 false |} [7; 8]%nat (behaves [] [])
      EvMain s = None.
Proof.
  destruct (Execute {| config := mkConfig 0 Inf 1 false |} [7; 8]%nat
              (behaves [] []) None [EvMain])
    as [s|] eqn:E; [|vm_compute in E; discriminate].
  destruct (Execute_zero_limit_blocks nat {| config := mkConfig 0 Inf 1 false |}
              [7; 8]%nat (behaves [] []) None _ s eq_refl E)
    as (_ & _ & _ & H).
  exists s. split; [reflexivity|].
  assert (Hpc : st_pc s = PGo 0) by (evaluate E; reflexivity).
  split; [exact Hpc|]. exact (proj1 (H Hpc)).
Defined.

Lemma Execute_terminates_witness :
  exists s evs' s' r,
    Execute throttled ten (behaves [3%nat] []) None (main_steps 7) = Some s /\
    (length (main_steps 7) <= 4 * length ten + 3)%nat /\
    run throttled ten (behaves [3%nat] []) evs' s = Some s' /\
    st_pc s' = PDone r.
Proof.
  destruct (Execute throttled ten (behaves [3%nat] []) None (main_steps 7))
    as [s|] eqn:E; [|vm_compute in E; discriminate].
  destruct (Execute_terminates nat throttled ten (behaves [3%nat] []) None
              _ s ltac:(discriminate) E) as (Hlen & evs' & s' & r & Hrun & Hp).
  exists s, evs', s', r. auto.
Defined.

End BatchFacts.

Module StreamFacts.
Import Stream StreamInv.

Section Facts.

Variable T : Type.
Variable s0 : Worker T.

#[local] Abbreviation step := (Stream.step T s0).
#[local] Abbreviation run := (Stream.run T s0).

Lemma pool_invariant (P : state T -> Prop) :
  (forall ev s s', P s -> step ev s = Some s' -> P s') ->
  forall evs s s', P s -> run evs s = Some s' -> P s'.
Proof.
  intros Hstep. induction evs as [|ev evs IH]; intros s s' HP Hrun;
    simpl in Hrun.
  - now inversion Hrun; subst.
  - destruct (step ev s) as [s1|] eqn:E; [|discriminate].
    eapply IH; [|exact Hrun]. eapply Hstep; eauto.
Qed.

Lemma set_worker_length w (x : worker_state T) l :
  length (set_worker w x l) = length l.
Proof.
  revert w. induction l as [|y l IH]; intros [|w]; simpl; auto.
Qed.

Lemma set_worker_nth w (x : worker_state T) l y :
  nth_error l w = Some y -> nth_error (set_worker w x l) w = Some x.
Proof.
  revert w. induction l as [|z l IH]; intros [|w]; simpl; try discriminate; auto.
Qed.

(** Replacing a worker that has not left keeps the workers that have. *)
Lemma set_worker_exited w (x y : worker_state T) l :
  nth_error l w = Some y -> exited y = false ->
  existsb exited (set_worker w x l) = exited x || existsb exited l.
Proof.
  revert w. induction l as [|z l IH]; intros [|w]; simpl; try discriminate.
  - intros H Hy. inversion H; subst. now rewrite Hy.
  - intros H Hy. rewrite (IH _ H Hy).
    destruct (exited z), (exited x); reflexivity.
Qed.

Lemma forallb_exited_nth l w (y : worker_state T) :
  forallb exited l = true -> nth_error l w = Some y -> exited y = true.
Proof.
  rewrite forallb_forall. intros H Hn. apply H. eapply nth_error_In; eauto.
Qed.

(** Case analysis of one step. *)
Lemma step_cases ev s s' :
  step ev s = Some s' ->
  (exists i, ev = SvMain /\ st_pc s = SSpawn i /\
     st_chan s' = st_chan s /\ st_closed s' = st_closed s /\
     st_ctx s' = st_ctx s /\
     ((Z.of_nat i <? concurrency s0) = true /\ st_pc s' = SSpawn (S i) /\
      st_workers s' = st_workers s ++ [WSelect] \/
      (Z.of_nat i <? concurrency s0) = false /\ st_pc s' = SWait /\
      st_workers s' = st_workers s)) \/
  (ev = SvMain /\ st_pc s = SWait /\ st_pc s' = SReturned /\
     forallb exited (st_workers s) = true /\
     st_workers s' = st_workers s /\
     st_chan s' = st_chan s /\ st_closed s' = st_closed s /\
     st_ctx s' = st_ctx s) \/
  (exists w x y, nth_error (st_workers s) w = Some y /\ exited y = false /\
     st_workers s' = set_worker w x (st_workers s) /\
     st_pc s' = st_pc s /\ st_closed s' = st_closed s /\
     st_ctx s' = st_ctx s /\
     ((exists val, ev = SvRecv w /\ x = WHandling val /\ y = WSelect /\
                   st_chan s = val :: st_chan s') \/
      (exists seen val, ev = SvHandled w seen /\ y = WHandling val /\
                   x = WSelect /\ st_chan s' = st_chan s) \/
      ((ev = SvCtxExit w \/ ev = SvClosedExit w) /\ y = WSelect /\
       x = WExited /\ st_chan s' = st_chan s /\ input_over s))) \/
  (st_pc s' = st_pc s /\ st_workers s' = st_workers s /\
     ((exists val, ev = SvSend val /\ st_closed s = false /\
                   st_closed s' = false /\ st_ctx s' = st_ctx s) \/
      (ev = SvClose /\ st_closed s' = true /\ st_chan s' = st_chan s /\
       st_ctx s' = st_ctx s) \/
      (exists timeout, ev = SvCtxDone timeout /\ is_some (st_ctx s') = true /\
       st_closed s' = st_closed s /\ st_chan s' = st_chan s))).
Proof.
  destruct ev as [|w|w seen|w|w|val| |timeout]; simpl.
  - unfold main_step. destruct (st_pc s) as [i| |] eqn:Epc.
    + destruct (Z.of_nat i <? concurrency s0) eqn:E;
        intros H; inversion H; subst; simpl; left; exists i;
        repeat split; auto.
    + destruct (forallb exited (st_workers s)) eqn:E; [|discriminate].
      intros H; inversion H; subst; simpl. right; left. repeat split.
    + discriminate.
  - unfold recv_step.
    destruct (nth_error (st_workers s) w) as [[|v|]|] eqn:N; try discriminate.
    destruct (st_chan s) as [|val rest] eqn:C; [discriminate|].
    intros H; inversion H; subst; simpl. right; right; left.
    exists w, (WHandling val), WSelect. repeat split; auto.
    left. exists val. auto.
  - unfold handled_step.
    destruct (nth_error (st_workers s) w) as [[|v|]|] eqn:N; try discriminate.
    intros H; inversion H; subst; simpl. right; right; left.
    exists w, WSelect, (WHandling v). repeat split; auto.
    right; left. exists seen, v. auto.
  - unfold ctx_exit_step.
    destruct (nth_error (st_workers s) w) as [[|v|]|] eqn:N; try discriminate.
    destruct (st_ctx s) eqn:C; [|discriminate].
    intros H; inversion H; subst; simpl. right; right; left.
    exists w, WExited, WSelect. repeat split; auto.
    right; right. repeat split; auto. left. now rewrite C.
  - unfold closed_exit_step.
    destruct (nth_error (st_workers s) w) as [[|v|]|] eqn:N; try discriminate.
    destruct (st_chan s) eqn:C; [|discriminate].
    destruct (st_closed s) eqn:Cl; [|discriminate].
    intros H; inversion H; subst; simpl. right; right; left.
    exists w, WExited, WSelect. repeat split; auto.
    right; right. repeat split; auto. right. auto.
  - unfold send_step. destruct (st_closed s) eqn:Cl; [discriminate|].
    intros H; inversion H; subst; simpl. right; right; right.
    repeat split. left. exists val. auto.
  - unfold close_step. destruct (st_closed s) eqn:Cl; [discriminate|].
    intros H; inversion H; subst; simpl. right; right; right.
    repeat split. right; left. auto.
  - unfold ctx_done_step. destruct (st_ctx s) eqn:C; [discriminate|].
    intros H; inversion H; subst; simpl. right; right; right.
    repeat split. right; right. exists timeout. auto.
Qed.

Lemma input_over_step ev s s' :
  input_over s -> step ev s = Some s' -> input_over s'.
Proof.
  unfold input_over. intros Hs Hstep. apply step_cases in Hstep.
  destruct Hstep as [(i & _ & _ & Hch & Hcl & Hc & _)|
                     [(_ & _ & _ & _ & _ & Hch & Hcl & Hc)|
                      [(w & x & y & _ & _ & _ & _ & Hcl & Hc & Hk)|
                       (_ & _ & Hk)]]].
  - now rewrite Hch, Hcl, Hc.
  - now rewrite Hch, Hcl, Hc.
  - rewrite Hcl, Hc.
    destruct Hk as [(val & _ & _ & _ & Hch)|
                    [(seen & val & _ & _ & _ & Hch)|(_ & _ & _ & Hch & _)]];
      try (now rewrite Hch).
    destruct Hs as [Hs|[_ Hs]]; [now left|]. rewrite Hch in Hs. discriminate.
  - destruct Hk as [(val & _ & Hcl & Hcl' & Hc)|
                    [(_ & Hcl & Hch & Hc)|(timeout & _ & Hc & _)]].
    + destruct Hs as [Hs|[Hs _]]; [left; now rewrite Hc|congruence].
    + rewrite Hc, Hch, Hcl. destruct Hs as [Hs|[_ Hs]]; auto.
    + now left.
Qed.

Lemma spawned_ok_step ev s s' :
  spawned_ok s0 s -> step ev s = Some s' -> spawned_ok s0 s'.
Proof.
  unfold spawned_ok. intros Hs Hstep. apply step_cases in Hstep.
  destruct Hstep as [(i & _ & Hpc & _ & _ & _ & Hk)|
                     [(_ & Hpc & Hpc' & _ & Hw & _)|
                      [(w & x & y & _ & _ & Hw & Hpc & _)|
                       (Hpc & Hw & _)]]].
  - rewrite Hpc in Hs. destruct Hs as [Hlen Hle].
    destruct Hk as [(Hlt & -> & ->)|(Hge & -> & ->)].
    + apply Z.ltb_lt in Hlt. rewrite length_app. simpl. split; lia.
    + apply Z.ltb_ge in Hge. lia.
  - rewrite Hpc in Hs. now rewrite Hpc', Hw.
  - now rewrite Hpc, Hw, set_worker_length.
  - now rewrite Hpc, Hw.
Qed.

Lemma exits_ok_step ev s s' :
  exits_ok s -> step ev s = Some s' -> exits_ok s'.
Proof.
  unfold exits_ok. intros [Hex Hret] Hstep.
  pose proof (fun H => input_over_step _ _ _ H Hstep) as Hstable.
  apply step_cases in Hstep.
  destruct Hstep as [(i & _ & Hpc & _ & _ & _ & Hk)|
                     [(_ & Hpc & Hpc' & Hall & Hw & _)|
                      [(w & x & y & Hn & Hy & Hw & Hpc & _ & _ & Hk)|
                       (Hpc & Hw & _)]]].
  - destruct Hk as [(_ & -> & ->)|(_ & -> & ->)]; split; try discriminate.
    + rewrite existsb_app. simpl. rewrite !orb_false_r. auto.
    + auto.
  - rewrite Hw. split; auto.
  - rewrite Hw, Hpc. split.
    + rewrite (set_worker_exited _ _ _ _ Hn Hy).
      destruct Hk as [(val & _ & -> & _)|
                      [(seen & val & _ & _ & -> & _)|(_ & _ & -> & _ & Hov)]];
        simpl; auto.
    + intros Hr. specialize (Hret Hr).
      rewrite (forallb_exited_nth _ _ _ Hret Hn) in Hy. discriminate.
  - rewrite Hw, Hpc. split; auto.
Qed.

Lemma invariants_run ctx buffered closed evs s :
  0 <= concurrency s0 ->
  Start T s0 ctx buffered closed evs = Some s ->
  spawned_ok s0 s /\ exits_ok s.
Proof.
  intros Hc.
  apply (pool_invariant (fun s => spawned_ok s0 s /\ exits_ok s)).
  - intros ev s1 s2 [H1 H2] Hstep.
    split; [eapply spawned_ok_step|eapply exits_ok_step]; eauto.
  - unfold spawned_ok, exits_ok, Start_init. simpl.
    repeat split; try lia; discriminate.
Qed.

(** *** Handler results do not reach the pool *)

Lemma step_quiet ev s :
  Stream.step T (mkWorker (concurrency s0) always_ok) ev (quiet s) =
  option_map quiet (step ev s).
Proof.
  destruct ev as [|w|w seen|w|w|val| |timeout]; simpl.
  - unfold main_step. simpl. destruct (st_pc s) as [i| |]; simpl; auto.
    + destruct (Z.of_nat i <? concurrency s0); reflexivity.
    + destruct (forallb exited (st_workers s)); reflexivity.
  - unfold recv_step. simpl.
    destruct (nth_error (st_workers s) w) as [[|v|]|]; auto.
    destruct (st_chan s); reflexivity.
  - unfold handled_step. simpl.
    destruct (nth_error (st_workers s) w) as [[|v|]|]; auto.
    simpl. unfold quiet. simpl. rewrite map_app. simpl.
    destruct (handler s0 (if seen then st_ctx s else None) v); reflexivity.
  - unfold ctx_exit_step. simpl.
    destruct (nth_error (st_workers s) w) as [[|v|]|]; auto.
    destruct (st_ctx s); reflexivity.
  - unfold closed_exit_step. simpl.
    destruct (nth_error (st_workers s) w) as [[|v|]|]; auto.
    destruct (st_chan s); auto. destruct (st_closed s); reflexivity.
  - unfold send_step. simpl. destruct (st_closed s); reflexivity.
  - unfold close_step. simpl. destruct (st_closed s); reflexivity.
  - unfold ctx_done_step. simpl. destruct (st_ctx s); reflexivity.
Qed.

Lemma run_quiet evs s :
  Stream.run T (mkWorker (concurrency s0) always_ok) evs (quiet s) =
  option_map quiet (run evs s).
Proof.
  revert s. induction evs as [|ev evs IH]; intros s; simpl; [reflexivity|].
  rewrite step_quiet. destruct (step ev s); simpl; auto.
Qed.

End Facts.

(** *** Conservation, termination and the log *)

Section More.

Variable T : Type.
Variable s0 : Worker T.

#[local] Abbreviation step := (Stream.step T s0).
#[local] Abbreviation run := (Stream.run T s0).

Lemma in_flight_set_worker w (x y : worker_state T) ws :
  nth_error ws w = Some y ->
  Permutation (single y ++ in_flight (set_worker w x ws))
              (single x ++ in_flight ws).
Proof.
  revert w. induction ws as [|z ws IH]; intros [|w]; simpl; try discriminate.
  - intros H. inversion H; subst. fold (single y). fold (single x).
    rewrite !app_assoc. apply Permutation_app_tail. apply Permutation_app_comm.
  - intros H. specialize (IH _ H). fold (single z).
    rewrite !app_assoc.
    rewrite (Permutation_app_comm (single y) (single z)).
    rewrite (Permutation_app_comm (single x) (single z)).
    rewrite <- !app_assoc. now apply Permutation_app_head.
Qed.

Lemma content_step ev s s' :
  step ev s = Some s' ->
  Permutation (content s') (content s ++ sent [ev]).
Proof.
  intros Hstep. unfold content, handled_values, sent.
  destruct ev as [|w|w seen|w|w|val| |timeout]; simpl in *;
    rewrite ?app_nil_r.
  - unfold main_step in Hstep. destruct (st_pc s) as [i| |].
    + destruct (Z.of_nat i <? concurrency s0); inversion Hstep; subst; simpl;
        auto.
      unfold in_flight. rewrite flat_map_app. simpl. now rewrite app_nil_r.
    + destruct (forallb exited (st_workers s)); inversion Hstep; subst; auto.
    + discriminate.
  - unfold recv_step in Hstep.
    destruct (nth_error (st_workers s) w) as [[|v|]|] eqn:N; try discriminate.
    destruct (st_chan s) as [|val rest] eqn:C; [discriminate|].
    inversion Hstep; subst; simpl. apply Permutation_app_head.
    pose proof (in_flight_set_worker w (WHandling val) _ _ N) as H.
    simpl in H. rewrite H. simpl. apply Permutation_middle.
  - unfold handled_step in Hstep.
    destruct (nth_error (st_workers s) w) as [[|v|]|] eqn:N; try discriminate.
    inversion Hstep; subst; simpl. rewrite map_app. simpl.
    rewrite <- app_assoc. apply Permutation_app_head. simpl.
    pose proof (in_flight_set_worker w WSelect _ _ N) as H.
    apply (Permutation_app_tail (st_chan s)) in H. exact H.
  - unfold ctx_exit_step in Hstep.
    destruct (nth_error (st_workers s) w) as [[|v|]|] eqn:N; try discriminate.
    destruct (st_ctx s); [|discriminate].
    inversion Hstep; subst; simpl. apply Permutation_app_head.
    apply Permutation_app_tail.
    exact (in_flight_set_worker w WExited _ _ N).
  - unfold closed_exit_step in Hstep.
    destruct (nth_error (st_workers s) w) as [[|v|]|] eqn:N; try discriminate.
    destruct (st_chan s) eqn:C; [|discriminate].
    destruct (st_closed s); [|discriminate].
    inversion Hstep; subst; simpl. rewrite C. apply Permutation_app_head.
    apply Permutation_app_tail.
    exact (in_flight_set_worker w WExited _ _ N).
  - unfold send_step in Hstep. destruct (st_closed s); [discriminate|].
    inversion Hstep; subst; simpl. now rewrite !app_assoc.
  - unfold close_step in Hstep. destruct (st_closed s); [discriminate|].
    inversion Hstep; subst; auto.
  - unfold ctx_done_step in Hstep. destruct (st_ctx s); [discriminate|].
    inversion Hstep; subst; auto.
Qed.

Lemma content_run evs s s' :
  run evs s = Some s' -> Permutation (content s') (content s ++ sent evs).
Proof.
  revert s. induction evs as [|ev evs IH]; intros s Hrun; simpl in Hrun.
  - inversion Hrun; subst. unfold sent. simpl. now rewrite app_nil_r.
  - destruct (step ev s) as [s1|] eqn:E; [|discriminate].
    rewrite (IH _ Hrun), (content_step _ _ _ E).
    change (ev :: evs) with ([ev] ++ evs). unfold sent.
    rewrite flat_map_app, app_assoc. reflexivity.
Qed.

(** X25: the pool neither loses nor duplicates a value: at every point of
    every schedule the values whose handler call has completed, the values
    inside a handler call and the values still in the channel are, taken
    together, exactly the values the channel held at the call and the
    values sent since. *)
Theorem Start_conserves_values ctx buffered closed evs s :
  Start T s0 ctx buffered closed evs = Some s ->
  Permutation
    (handled_values s ++ in_flight (st_workers s) ++ st_chan s)
    (buffered ++ sent evs).
Proof.
  intros Hrun. apply content_run in Hrun. exact Hrun.
Qed.

Lemma pool_log_step ev s s' :
  st_log s = pool_panics (st_handled s) ->
  Forall (fun wvr => exists c, snd wvr = handler s0 c (snd (fst wvr)))
         (st_handled s) ->
  step ev s = Some s' ->
  st_log s' = pool_panics (st_handled s') /\
  Forall (fun wvr => exists c, snd wvr = handler s0 c (snd (fst wvr)))
         (st_handled s').
Proof.
  intros Hl Hf Hstep.
  destruct ev as [|w|w seen|w|w|val| |timeout]; simpl in Hstep.
  - unfold main_step in Hstep. destruct (st_pc s) as [i| |].
    + destruct (Z.of_nat i <? concurrency s0); inversion Hstep; subst; auto.
    + destruct (forallb exited (st_workers s)); inversion Hstep; subst; auto.
    + discriminate.
  - unfold recv_step in Hstep.
    destruct (nth_error (st_workers s) w) as [[|v|]|]; try discriminate.
    destruct (st_chan s); inversion Hstep; subst; auto.
  - unfold handled_step in Hstep.
    destruct (nth_error (st_workers s) w) as [[|v|]|]; try discriminate.
    inversion Hstep; subst; simpl. split.
    + unfold pool_panics. rewrite flat_map_app. simpl.
      fold (pool_panics (st_handled s)). rewrite <- Hl.
      destruct (handler s0 _ v); now rewrite ?app_nil_r.
    + apply Forall_app. split; auto. constructor; auto. simpl. eauto.
  - unfold ctx_exit_step in Hstep.
    destruct (nth_error (st_workers s) w) as [[|v|]|]; try discriminate.
    destruct (st_ctx s); inversion Hstep; subst; auto.
  - unfold closed_exit_step in Hstep.
    destruct (nth_error (st_workers s) w) as [[|v|]|]; try discriminate.
    destruct (st_chan s); try discriminate.
    destruct (st_closed s); inversion Hstep; subst; auto.
  - unfold send_step in Hstep.
    destruct (st_closed s); inversion Hstep; subst; auto.
  - unfold close_step in Hstep.
    destruct (st_closed s); inversion Hstep; subst; auto.
  - unfold ctx_done_step in Hstep.
    destruct (st_ctx s); inversion Hstep; subst; auto.
Qed.

(** X26: the lines the pool prints are exactly the panics of the completed
    handler calls, each with the number of the worker that ran the call, in
    completion order; a returned failure prints nothing, and every completed
    call is a call of the pool's handler on a received value. *)
Theorem Start_log_is_panics ctx buffered closed evs s :
  Start T s0 ctx buffered closed evs = Some s ->
  st_log s = pool_panics (st_handled s) /\
  Forall (fun wvr => exists c, snd wvr = handler s0 c (snd (fst wvr)))
         (st_handled s).
Proof.
  apply (pool_invariant T s0
           (fun s => st_log s = pool_panics (st_handled s) /\
                     Forall (fun wvr => exists c,
                               snd wvr = handler s0 c (snd (fst wvr)))
                            (st_handled s))).
  - intros ev s1 s2 [H1 H2] Hstep. eapply pool_log_step; eauto.
  - simpl. split; [reflexivity|constructor].
Qed.

Lemma in_flight_length (ws : list (worker_state T)) :
  (length (in_flight ws) <= length ws)%nat.
Proof.
  induction ws as [|w ws IH]; simpl; [lia|].
  rewrite length_app. destruct w; simpl; lia.
Qed.

Lemma in_flight_exited (ws : list (worker_state T)) :
  forallb exited ws = true -> in_flight ws = [].
Proof.
  induction ws as [|w ws IH]; simpl; [reflexivity|].
  intros H. apply andb_true_iff in H. destruct H as [Hw Hws].
  rewrite (IH Hws). now destruct w.
Qed.

Lemma rank_set_worker w (x y : worker_state T) ws :
  nth_error ws w = Some y ->
  (list_sum (map worker_rank (set_worker w x ws)) + worker_rank y =
   list_sum (map worker_rank ws) + worker_rank x)%nat.
Proof.
  revert w. induction ws as [|z ws IH]; intros [|w]; simpl; try discriminate.
  - intros H. inversion H; subst. lia.
  - intros H. specialize (IH _ H). lia.
Qed.

Lemma find_running (ws : list (worker_state T)) :
  forallb exited ws = false ->
  exists w y, nth_error ws w = Some y /\ exited y = false.
Proof.
  induction ws as [|z ws IH]; simpl; [discriminate|].
  destruct (exited z) eqn:E; simpl.
  - intros H. destruct (IH H) as (w & y & Hn & Hy). exists (S w), y. auto.
  - intros _. exists 0%nat, z. auto.
Qed.

(** With the context done, a pool that has not returned has a step that
    brings it nearer to the return and takes nothing from the channel. *)
Lemma cancelled_pool_step s :
  spawned_ok s0 s -> is_some (st_ctx s) = true -> st_pc s <> SReturned ->
  exists ev s',
    step ev s = Some s' /\
    (pool_rank (concurrency s0) s' < pool_rank (concurrency s0) s)%nat /\
    st_chan s' = st_chan s /\ is_some (st_ctx s') = true /\ sent [ev] = [].
Proof.
  intros Hsp Hctx Hpc. unfold pool_rank, spawned_ok in *.
  destruct (st_pc s) as [i| |] eqn:Epc; [| |congruence].
  - exists SvMain. simpl. unfold main_step. rewrite Epc.
    destruct (Z.of_nat i <? concurrency s0) eqn:E.
    + apply Z.ltb_lt in E. eexists. split; [reflexivity|]. simpl.
      rewrite map_app, list_sum_app. simpl. repeat split; auto.
      replace (Z.to_nat (concurrency s0 - Z.of_nat (S i)))
        with (Z.to_nat (concurrency s0 - Z.of_nat i) - 1)%nat by lia.
      assert (1 <= Z.to_nat (concurrency s0 - Z.of_nat i))%nat by lia. lia.
    + eexists. split; [reflexivity|]. simpl. repeat split; auto. lia.
  - destruct (forallb exited (st_workers s)) eqn:Eall.
    + exists SvMain. simpl. unfold main_step. rewrite Epc, Eall.
      eexists. split; [reflexivity|]. simpl. repeat split; auto.
    + destruct (find_running _ Eall) as (w & y & Hn & Hy).
      pose proof (rank_set_worker w) as Hrank.
      destruct y as [|v|]; [| |discriminate].
      * exists (SvCtxExit w). simpl. unfold ctx_exit_step. rewrite Hn.
        destruct (st_ctx s) eqn:Ec; [|discriminate].
        eexists. split; [reflexivity|]. simpl. rewrite Epc, Ec.
        specialize (Hrank WExited _ _ Hn). simpl in Hrank.
        repeat split; auto. lia.
      * exists (SvHandled w false). simpl. unfold handled_step. rewrite Hn.
        eexists. split; [reflexivity|]. simpl. rewrite Epc.
        specialize (Hrank WSelect _ _ Hn). simpl in Hrank.
        repeat split; auto. lia.
Qed.

Lemma cancelled_pool_run m s :
  (pool_rank (concurrency s0) s <= m)%nat ->
  spawned_ok s0 s -> is_some (st_ctx s) = true ->
  exists evs' s',
    run evs' s = Some s' /\ st_pc s' = SReturned /\
    st_chan s' = st_chan s /\ sent evs' = [] /\ (length evs' <= m)%nat.
Proof.
  revert s. induction m as [|m IH]; intros s Hm Hsp Hctx.
  - exists [], s. repeat split; auto.
    destruct (st_pc s) as [i| |] eqn:Epc; auto;
      unfold pool_rank in Hm; rewrite Epc in Hm; lia.
  - assert (Hdec : st_pc s = SReturned \/ st_pc s <> SReturned)
      by (destruct (st_pc s); auto; right; discriminate).
    destruct Hdec as [Hret|Hnot].
    + exists [], s. repeat split; auto. simpl. lia.
    + destruct (cancelled_pool_step s Hsp Hctx Hnot)
        as (ev & s1 & Hstep & Hlt & Hch & Hc1 & Hsent).
      destruct (IH s1) as (evs' & s' & Hrun & Hp & Hch' & Hs' & Hlen);
        [lia|eapply spawned_ok_step; eauto|exact Hc1|].
      assert (Hs2 : sent (ev :: evs') = []).
      { change (ev :: evs') with ([ev] ++ evs'). unfold sent in *.
        rewrite flat_map_app, Hsent, Hs'. reflexivity. }
      exists (ev :: evs'), s'. simpl Stream.run. rewrite Hstep.
      split; [exact Hrun|]. split; [exact Hp|]. split; [congruence|].
      split; [exact Hs2|simpl; lia].
Qed.

(** A step of the pool itself leaves the context and the closing of the
    channel as they are, and uses up some of the steps the pool has left. *)
Lemma own_step ev s s' :
  spawned_ok s0 s -> own ev = true -> step ev s = Some s' ->
  st_ctx s' = st_ctx s /\ st_closed s' = st_closed s /\
  (pool_measure (concurrency s0) s' < pool_measure (concurrency s0) s)%nat.
Proof.
  intros Hsp Hown Hstep. unfold pool_measure, pool_rank, spawned_ok in *.
  apply step_cases in Hstep.
  destruct Hstep as [(i & _ & Hpc & Hch & Hcl & Hc & Hk)|
                     [(_ & Hpc & Hpc' & _ & Hw & Hch & Hcl & Hc)|
                      [(w & x & y & Hn & _ & Hw & Hpc & Hcl & Hc & Hk)|
                       (_ & _ & Hk)]]].
  - rewrite Hpc in *. rewrite Hch. repeat split; auto.
    destruct Hsp as [Hlen Hle].
    destruct Hk as [(Hlt & -> & ->)|(Hge & -> & ->)].
    + apply Z.ltb_lt in Hlt. rewrite map_app, list_sum_app. simpl. lia.
    + lia.
  - rewrite Hpc, Hpc', Hw, Hch. repeat split; auto.
  - rewrite Hpc, Hw. repeat split; auto.
    pose proof (rank_set_worker w x y _ Hn) as Hrank.
    destruct Hk as [(val & _ & -> & -> & Hch)|
                    [(seen & val & _ & -> & -> & Hch)|
                     (_ & -> & -> & Hch & _)]];
      rewrite Hch; simpl in *; lia.
  - destruct Hk as [(val & -> & _)|[(-> & _)|(timeout & -> & _)]];
      discriminate.
Qed.

(** While the input is ending, a pool that has not returned has a step of
    its own: the calling thread starts a worker or finds all of them gone,
    a worker completes its call, receives a waiting value, or leaves. *)
Lemma ending_pool_step s :
  input_ending s -> st_pc s <> SReturned ->
  exists ev s', own ev = true /\ step ev s = Some s'.
Proof.
  intros Hend Hpc.
  destruct (st_pc s) as [i| |] eqn:Epc; [| |congruence].
  - exists SvMain. simpl. unfold main_step. rewrite Epc.
    destruct (Z.of_nat i <? concurrency s0); eauto.
  - destruct (forallb exited (st_workers s)) eqn:Eall.
    + exists SvMain. simpl. unfold main_step. rewrite Epc, Eall. eauto.
    + destruct (find_running _ Eall) as (w & y & Hn & Hy).
      destruct y as [|v|]; [| |discriminate].
      * destruct (st_ctx s) as [e|] eqn:Ec.
        { exists (SvCtxExit w). simpl. unfold ctx_exit_step.
          rewrite Hn, Ec. eauto. }
        destruct Hend as [Hend|Hend]; [rewrite Ec in Hend; discriminate|].
        destruct (st_chan s) as [|val rest] eqn:Ech.
        { exists (SvClosedExit w). simpl. unfold closed_exit_step.
          rewrite Hn, Ech, Hend. eauto. }
        exists (SvRecv w). simpl. unfold recv_step. rewrite Hn, Ech. eauto.
      * exists (SvHandled w false). simpl. unfold handled_step. rewrite Hn.
        eauto.
Qed.

(** A schedule of the pool's own steps is no longer than the measure. *)
Lemma own_run evs' s s' :
  forallb own evs' = true -> run evs' s = Some s' ->
  spawned_ok s0 s -> input_ending s ->
  spawned_ok s0 s' /\ input_ending s' /\
  (length evs' + pool_measure (concurrency s0) s'
     <= pool_measure (concurrency s0) s)%nat.
Proof.
  revert s. induction evs' as [|ev evs' IH]; intros s Hown Hrun Hsp Hend;
    simpl in *.
  - inversion Hrun; subst. auto.
  - apply andb_true_iff in Hown. destruct Hown as [Hev Hown].
    destruct (step ev s) as [s1|] eqn:E; [|discriminate].
    destruct (own_step _ _ _ Hsp Hev E) as (Hc & Hcl & Hlt).
    destruct (IH s1 Hown Hrun) as (Hsp' & Hend' & Hle).
    + eapply spawned_ok_step; eauto.
    + unfold input_ending in *. now rewrite Hc, Hcl.
    + repeat split; auto. lia.
Qed.

(** While the input is ending, the pool's own steps bring [Start] to its
    return. *)
Lemma ending_pool_run m s :
  (pool_measure (concurrency s0) s <= m)%nat ->
  spawned_ok s0 s -> input_ending s ->
  exists evs' s',
    forallb own evs' = true /\ run evs' s = Some s' /\ st_pc s' = SReturned.
Proof.
  revert s. induction m as [|m IH]; intros s Hm Hsp Hend.
  - exists [], s. repeat split; auto.
    destruct (st_pc s) as [i| |] eqn:Epc; auto;
      unfold pool_measure, pool_rank in Hm; rewrite Epc in Hm; lia.
  - assert (Hdec : st_pc s = SReturned \/ st_pc s <> SReturned)
      by (destruct (st_pc s); auto; right; discriminate).
    destruct Hdec as [Hret|Hnot].
    + exists [], s. repeat split; auto.
    + destruct (ending_pool_step s Hend Hnot) as (ev & s1 & Hev & Hstep).
      destruct (own_step _ _ _ Hsp Hev Hstep) as (Hc & Hcl & Hlt).
      destruct (IH s1) as (evs' & s' & Hown & Hrun & Hp);
        [lia|eapply spawned_ok_step; eauto|
         unfold input_ending in *; now rewrite Hc, Hcl|].
      exists (ev :: evs'), s'. simpl. rewrite Hev, Hstep. auto.
Qed.

End More.

(** C7: for a pool made by [NewStreamWorker] the concurrency is at least 1,
    and at every point [s] of every schedule of [Start]:
    - if [Start] has returned, it had started exactly that many workers,
      every one of them has left its loop, and the input is over: the
      context is done, or the channel is closed and drained;
    - while the input is not over, [Start] has not returned and the calling
      thread cannot leave [wg.Wait()];
    - once the context is done or the channel is closed, the blocking ends:
      every schedule of the pool's own steps from [s] has at most
      [pool_measure] steps, after each of them the pool has a step to take
      unless [Start] has returned, and some such schedule leads to the
      return;
    - a worker that completes a handler call is back at its [select]
      whatever the call did (returned [nil], returned a failure, panicked);
    - nothing of the results reaches the caller: under every schedule the
      pool goes through the same states, up to the printed lines, as with
      the handler that always returns [nil]. *)
Theorem Start_returns_when_all_workers_left
  (T : Type) (n : Z) (h : Handler T) ctx buffered closed evs s :
  Start T (NewStreamWorker n h) ctx buffered closed evs = Some s ->
  1 <= concurrency (NewStreamWorker n h) /\
  (st_pc s = SReturned ->
     Z.of_nat (length (st_workers s)) = concurrency (NewStreamWorker n h) /\
     Forall (fun w => w = WExited) (st_workers s) /\
     input_over s) /\
  (~ input_over s ->
     st_pc s <> SReturned /\
     (st_pc s = SWait ->
      Stream.step T (NewStreamWorker n h) SvMain s = None)) /\
  (input_ending s ->
     (forall evs' s',
        forallb own evs' = true ->
        Stream.run T (NewStreamWorker n h) evs' s = Some s' ->
        (length evs'
           <= pool_measure (concurrency (NewStreamWorker n h)) s)%nat /\
        (st_pc s' <> SReturned ->
         exists ev s'',
           own ev = true /\
           Stream.step T (NewStreamWorker n h) ev s' = Some s'')) /\
     (exists evs' s',
        forallb own evs' = true /\
        Stream.run T (NewStreamWorker n h) evs' s = Some s' /\
        st_pc s' = SReturned)) /\
  (forall evs' s1 w seen s2,
     Start T (NewStreamWorker n h) ctx buffered closed evs' = Some s1 ->
     Stream.step T (NewStreamWorker n h) (SvHandled w seen) s1 = Some s2 ->
     nth_error (st_workers s2) w = Some WSelect /\ st_pc s2 = st_pc s1) /\
  (forall evs',
     Start T (mkWorker (concurrency (NewStreamWorker n h)) always_ok)
       ctx buffered closed evs' =
     option_map quiet (Start T (NewStreamWorker n h) ctx buffered closed evs')).
Proof.
  intros Hrun.
  assert (Hc : 1 <= concurrency (NewStreamWorker n h)).
  { unfold NewStreamWorker. simpl. destruct (n <=? 0) eqn:E; [lia|].
    apply Z.leb_gt in E. lia. }
  assert (Hc0 : 0 <= concurrency (NewStreamWorker n h)) by lia.
  destruct (invariants_run T _ _ _ _ _ _ Hc0 Hrun) as [Hsp [Hex Hret]].
  assert (Hgone : forallb exited (st_workers s) = true ->
                  Z.of_nat (length (st_workers s))
                    = concurrency (NewStreamWorker n h) ->
                  input_over s).
  { intros Hall Hlen. apply Hex.
    remember (concurrency (NewStreamWorker n h)) as c.
    destruct (st_workers s) as [|w ws]; [simpl in Hlen; lia|].
    simpl in Hall. apply andb_true_iff in Hall. destruct Hall as [Hw _].
    simpl. now rewrite Hw. }
  split; [exact Hc|]. split; [|split; [|split; [|split]]].
  - intros Hpc. unfold spawned_ok in Hsp. rewrite Hpc in Hsp.
    specialize (Hret Hpc).
    split; [exact Hsp|]. split; [|now apply Hgone].
    rewrite forallb_forall in Hret. apply Forall_forall. intros w Hw.
    specialize (Hret _ Hw). destruct w; auto; discriminate.
  - intros Hnot. split.
    + intros Hpc. apply Hnot. unfold spawned_ok in Hsp. rewrite Hpc in Hsp.
      apply Hgone; auto.
    + intros Hpc. simpl. unfold main_step. rewrite Hpc.
      destruct (forallb exited (st_workers s)) eqn:Eall; [|reflexivity].
      exfalso. apply Hnot. unfold spawned_ok in Hsp. rewrite Hpc in Hsp.
      apply Hgone; auto.
  - intros Hend. split.
    + intros evs' s' Hown Hrun'.
      destruct (own_run T _ _ _ _ Hown Hrun' Hsp Hend) as (_ & Hend' & Hle).
      split; [lia|]. intros Hpc. now apply ending_pool_step.
    + exact (ending_pool_run T _ _ s (le_n _) Hsp Hend).
  - intros evs' s1 w seen s2 _ Hstep. simpl in Hstep.
    unfold handled_step in Hstep.
    destruct (nth_error (st_workers s1) w) as [[|v|]|] eqn:N; try discriminate.
    inversion Hstep; subst; simpl. split; [|reflexivity].
    eapply set_worker_nth; eauto.
  - intros evs'. unfold Start. rewrite <- run_quiet. reflexivity.
Qed.

(** Three workers drain the values 1, 2 and 3, of which 1 fails and 2
    panics; the channel is closed, the workers leave and [Start] returns.
    With the three workers waiting on the open channel and a live context
    the calling thread cannot leave [wg.Wait()].  When the producer closes
    the channel while worker 0 is inside its call and 2 and 3 are still
    waiting, the pool returns by itself within 9 steps. *)
Lemma Start_returns_when_all_workers_left_witness :
  (exists s,
     Start nat StreamExamples.pool None [1; 2; 3]%nat false
       StreamExamples.drain = Some s /\
     st_pc s = SReturned /\
     st_workers s = [WExited; WExited; WExited] /\
     st_closed s = true /\ st_chan s = [] /\
     st_log s = [(1%nat, "wild"%string)] /\
     input_over s) /\
  (exists s,
     Start nat StreamExamples.pool None [1; 2; 3]%nat false
       [SvMain; SvMain; SvMain; SvMain] = Some s /\
     st_pc s = SWait /\
     Stream.step nat StreamExamples.pool SvMain s = None) /\
  (exists s evs' s',
     Start nat StreamExamples.pool None [1; 2; 3]%nat false
       StreamExamples.shut = Some s /\
     st_pc s = SWait /\ st_chan s = [2; 3]%nat /\
     forallb own evs' = true /\ (length evs' <= 9)%nat /\
     Stream.run nat StreamExamples.pool evs' s = Some s' /\
     st_pc s' = SReturned).
Proof.
  split; [|split].
  - destruct (Start nat StreamExamples.pool None [1; 2; 3]%nat false
                StreamExamples.drain) as [s|] eqn:E;
      [|vm_compute in E; discriminate].
    destruct (Start_returns_when_all_workers_left nat 3
                (handler StreamExamples.pool) None [1; 2; 3]%nat false
                StreamExamples.drain s E)
      as (_ & Hsafe & _).
    assert (Hpc : st_pc s = SReturned)
      by (vm_compute in E; injection E as <-; reflexivity).
    destruct (Hsafe Hpc) as (_ & _ & Hover).
    exists s. split; [reflexivity|].
    split; [|split; [|split; [|split; [|split]]]];
      try exact Hover; vm_compute in E; injection E as <-; reflexivity.
  - destruct (Start nat StreamExamples.pool None [1; 2; 3]%nat false
                [SvMain; SvMain; SvMain; SvMain]) as [s|] eqn:E;
      [|vm_compute in E; discriminate].
    destruct (Start_returns_when_all_workers_left nat 3
                (handler StreamExamples.pool) None [1; 2; 3]%nat false
                [SvMain; SvMain; SvMain; SvMain] s E)
      as (_ & _ & Hblock & _).
    assert (Hpc : st_pc s = SWait)
      by (vm_compute in E; injection E as <-; reflexivity).
    assert (Hnot : ~ input_over s).
    { vm_compute in E. injection E as <-. intros [H|[H _]]; discriminate. }
    exists s. split; [reflexivity|]. split; [exact Hpc|].
    exact (proj2 (Hblock Hnot) Hpc).
  - destruct (Start nat StreamExamples.pool None [1; 2; 3]%nat false
                StreamExamples.shut) as [s|] eqn:E;
      [|vm_compute in E; discriminate].
    destruct (Start_returns_when_all_workers_left nat 3
                (handler StreamExamples.pool) None [1; 2; 3]%nat false
                StreamExamples.shut s E)
      as (_ & _ & _ & Hprog & _).
    assert (Hend : input_ending s).
    { vm_compute in E. injection E as <-. right. reflexivity. }
    destruct (Hprog Hend) as (Hbound & evs' & s' & Hown & Hrun & Hret).
    destruct (Hbound evs' s' Hown Hrun) as (Hlen & _).
    exists s, evs', s'. split; [reflexivity|].
    split; [vm_compute in E; injection E as <-; reflexivity|].
    split; [vm_compute in E; injection E as <-; reflexivity|].
    split; [exact Hown|]. split; [|split; [exact Hrun|exact Hret]].
    vm_compute in E. injection E as <-. exact Hlen.
Defined.

(** X27: a pool never runs more handler calls at once than its concurrency:
    at every point of every schedule the number of workers started, and so
    the number of values inside a handler call, is at most the concurrency
    that [NewStreamWorker] kept. *)
Theorem Start_concurrency_bound
  (T : Type) (n : Z) (h : Handler T) ctx buffered closed evs s :
  Start T (NewStreamWorker n h) ctx buffered closed evs = Some s ->
  Z.of_nat (length (in_flight (st_workers s))) <=
    concurrency (NewStreamWorker n h) /\
  Z.of_nat (length (st_workers s)) <= concurrency (NewStreamWorker n h) /\
  concurrency (NewStreamWorker n h) = Z.max 1 n.
Proof.
  intros Hrun.
  assert (Hc : concurrency (NewStreamWorker n h) = Z.max 1 n).
  { unfold NewStreamWorker. simpl. destruct (n <=? 0) eqn:E;
      [apply Z.leb_le in E|apply Z.leb_gt in E]; lia. }
  assert (Hc0 : 0 <= concurrency (NewStreamWorker n h)) by lia.
  destruct (invariants_run T _ _ _ _ _ _ Hc0 Hrun) as [Hsp _].
  pose proof (in_flight_length T (st_workers s)) as Hl.
  unfold spawned_ok in Hsp. remember (concurrency (NewStreamWorker n h)) as c.
  destruct (st_pc s); repeat split; try lia.
Qed.

(** X28: if the context is not done when [Start] has returned, the channel
    has been closed and every value that was in the channel at the call or
    was sent afterwards has been handled exactly once. *)
Theorem Start_handles_everything
  (T : Type) (n : Z) (h : Handler T) buffered closed evs s :
  Start T (NewStreamWorker n h) None buffered closed evs = Some s ->
  st_pc s = SReturned ->
  st_ctx s = None ->
  st_closed s = true /\ st_chan s = [] /\
  Permutation (handled_values s) (buffered ++ sent evs).
Proof.
  intros Hrun Hpc Hctx.
  assert (Hc0 : 0 <= concurrency (NewStreamWorker n h)).
  { unfold NewStreamWorker. simpl. destruct (n <=? 0) eqn:E;
      [lia|apply Z.leb_gt in E; lia]. }
  destruct (invariants_run T _ _ _ _ _ _ Hc0 Hrun) as [Hsp [Hex Hret]].
  specialize (Hret Hpc).
  assert (Hover : input_over s).
  { apply Hex. unfold spawned_ok in Hsp. rewrite Hpc in Hsp.
    assert (Hc1 : 1 <= concurrency (NewStreamWorker n h)).
    { unfold NewStreamWorker. simpl. destruct (n <=? 0) eqn:E;
        [lia|apply Z.leb_gt in E; lia]. }
    remember (concurrency (NewStreamWorker n h)) as c.
    destruct (st_workers s) as [|w ws]; [simpl in Hsp; lia|].
    simpl in Hret. apply andb_true_iff in Hret. destruct Hret as [Hw _].
    simpl. now rewrite Hw. }
  pose proof (content_run T _ _ _ _ Hrun) as Hperm.
  unfold content in Hperm. simpl in Hperm.
  destruct Hover as [Hd|[Hcl Hch]]; [rewrite Hctx in Hd; discriminate|].
  assert (Hin : in_flight (st_workers s) = [])
    by (now apply in_flight_exited).
  rewrite Hin, Hch in Hperm. simpl in Hperm.
  rewrite ?app_nil_r in Hperm. auto.
Qed.

(** X29: cancellation always lets [Start] return: from every point of every
    schedule at which the context is done, the calling thread and the
    workers can bring [Start] to its return by themselves, taking nothing
    more from the channel; a worker inside a handler call completes that
    call first. *)
Theorem Start_returns_after_cancellation
  (T : Type) (n : Z) (h : Handler T) ctx buffered closed evs s :
  Start T (NewStreamWorker n h) ctx buffered closed evs = Some s ->
  is_some (st_ctx s) = true ->
  exists evs' s',
    Stream.run T (NewStreamWorker n h) evs' s = Some s' /\
    st_pc s' = SReturned /\ st_chan s' = st_chan s /\ sent evs' = [] /\
    Permutation (handled_values s')
      (handled_values s ++ in_flight (st_workers s)).
Proof.
  intros Hrun Hctx.
  assert (Hc0 : 0 <= concurrency (NewStreamWorker n h)).
  { unfold NewStreamWorker. simpl. destruct (n <=? 0) eqn:E;
      [lia|apply Z.leb_gt in E; lia]. }
  destruct (invariants_run T _ _ _ _ _ _ Hc0 Hrun) as [Hsp [Hex Hret]].
  destruct (cancelled_pool_run T (NewStreamWorker n h) _ s (le_n _) Hsp Hctx)
    as (evs' & s' & Hrun' & Hp & Hch & Hsent & _).
  exists evs', s'. repeat split; auto.
  pose proof (content_run T _ _ _ _ Hrun') as Hperm.
  unfold content in Hperm. rewrite Hsent, app_nil_r, Hch in Hperm.
  assert (Hin : in_flight (st_workers s') = []).
  { apply in_flight_exited.
    assert (Hall : Start T (NewStreamWorker n h) ctx buffered closed
                     (evs ++ evs') = Some s').
    { unfold Start in *. clear - Hrun Hrun'.
      revert Hrun. generalize (Start_init T ctx buffered closed).
      induction evs as [|ev evs IH]; intros s1 Hrun; simpl in *.
      - inversion Hrun; subst. exact Hrun'.
      - destruct (Stream.step T (NewStreamWorker n h) ev s1); [|discriminate].
        now apply IH. }
    destruct (invariants_run T _ _ _ _ _ _ Hc0 Hall) as [_ [_ Hret']].
    now apply Hret'. }
  rewrite Hin in Hperm. simpl in Hperm.
  rewrite !app_assoc in Hperm.
  apply Permutation_app_inv_r in Hperm. exact Hperm.
Qed.

(** *** Instances *)

Ltac evaluate E := vm_compute in E; injection E as <-.

Lemma Start_conserves_values_witness :
  exists s,
    Start nat StreamExamples.pool None [1; 2; 3]%nat false StreamExamples.busy
      = Some s /\
    handled_values s = [1%nat] /\ in_flight (st_workers s) = [2%nat] /\
    st_chan s = [3; 4]%nat /\
    Permutation (handled_values s ++ in_flight (st_workers s) ++ st_chan s)
                ([1; 2; 3]%nat ++ sent StreamExamples.busy).
Proof.
  destruct (Start nat StreamExamples.pool None [1; 2; 3]%nat false
              StreamExamples.busy) as [s|] eqn:E;
    [|vm_compute in E; discriminate].
  pose proof (Start_conserves_values nat StreamExamples.pool None
                [1; 2; 3]%nat false StreamExamples.busy s E) as H.
  exists s. split; [reflexivity|].
  split; [evaluate E; reflexivity|]. split; [evaluate E; reflexivity|].
  split; [evaluate E; reflexivity|exact H].
Defined.

Lemma Start_log_is_panics_witness :
  exists s,
    Start nat StreamExamples.pool None [1; 2; 3]%nat false StreamExamples.drain
      = Some s /\
    st_log s = [(1%nat, "wild"%string)] /\
    st_log s = pool_panics (st_handled s).
Proof.
  destruct (Start nat StreamExamples.pool None [1; 2; 3]%nat false
              StreamExamples.drain) as [s|] eqn:E;
    [|vm_compute in E; discriminate].
  destruct (Start_log_is_panics nat StreamExamples.pool None
              [1; 2; 3]%nat false StreamExamples.drain s E) as [H _].
  exists s. split; [reflexivity|]. split; [evaluate E; reflexivity|exact H].
Defined.

Lemma Start_concurrency_bound_witness :
  exists s,
    Start nat (NewStreamWorker (-2) (handler StreamExamples.pool)) None
      [1; 2; 3]%nat false [SvMain; SvRecv 0; SvMain] = Some s /\
    st_pc s = SWait /\
    Z.of_nat (length (st_workers s)) <= 1.
Proof.
  destruct (Start nat (NewStreamWorker (-2) (handler StreamExamples.pool)) None
              [1; 2; 3]%nat false [SvMain; SvRecv 0; SvMain]) as [s|] eqn:E;
    [|vm_compute in E; discriminate].
  destruct (Start_concurrency_bound nat (-2) (handler StreamExamples.pool) None
              [1; 2; 3]%nat false [SvMain; SvRecv 0; SvMain] s E)
    as (_ & H & _).
  exists s. split; [reflexivity|]. split; [evaluate E; reflexivity|exact H].
Defined.

Lemma Start_handles_everything_witness :
  exists s,
    Start nat StreamExamples.pool None [1; 2; 3]%nat false StreamExamples.drain
      = Some s /\
    st_closed s = true /\
    Permutation (handled_values s) ([1; 2; 3]%nat ++ sent StreamExamples.drain).
Proof.
  destruct (Start nat StreamExamples.pool None [1; 2; 3]%nat false
              StreamExamples.drain) as [s|] eqn:E;
    [|vm_compute in E; discriminate].
  destruct (Start_handles_everything nat 3 (handler StreamExamples.pool)
              [1; 2; 3]%nat false StreamExamples.drain s E)
    as (H1 & _ & H2); try (evaluate E; reflexivity).
  exists s. split; [reflexivity|]. split; [exact H1|exact H2].
Defined.

Lemma Start_returns_after_cancellation_witness :
  exists s evs' s',
    Start nat StreamExamples.pool None [1; 2; 3]%nat false
      [SvMain; SvMain; SvRecv 0; SvCtxDone false] = Some s /\
    Stream.run nat StreamExamples.pool evs' s = Some s' /\
    st_pc s' = SReturned /\ st_chan s' = [2; 3]%nat.
Proof.
  destruct (Start nat StreamExamples.pool None [1; 2; 3]%nat false
              [SvMain; SvMain; SvRecv 0; SvCtxDone false]) as [s|] eqn:E;
    [|vm_compute in E; discriminate].
  destruct (Start_returns_after_cancellation nat 3
              (handler StreamExamples.pool) None [1; 2; 3]%nat false
              [SvMain; SvMain; SvRecv 0; SvCtxDone false] s E)
    as (evs' & s' & Hrun & Hp & Hch & _); [evaluate E; reflexivity|].
  exists s, evs', s'. split; [reflexivity|]. split; [exact Hrun|].
  split; [exact Hp|]. rewrite Hch. evaluate E. reflexivity.
Defined.

End StreamFacts.

Module AmountFacts.
Import Amount.

(** *** Arithmetic *)

Lemma Precision_pos : 0 < Precision.
Proof. reflexivity. Qed.

(** Truncated division: the quotient times the divisor is no larger than the
    dividend in size and misses it by less than the divisor. *)
Lemma quot_truncates (p q : Z) :
  q <> 0 ->
  Z.abs (Z.quot p q * q) <= Z.abs p /\ Z.abs (p - Z.quot p q * q) < Z.abs q.
Proof.
  intros Hq.
  pose proof (Z.quot_rem' p q) as Hqr.
  pose proof (Z.quot_rem' (Z.abs p) (Z.abs q)) as Hqa.
  rewrite Z.quot_abs, Z.rem_abs in Hqa by exact Hq.
  pose proof (Z.abs_nonneg (Z.quot p q)).
  pose proof (Z.abs_nonneg (Z.rem p q)).
  pose proof (Z.rem_bound_abs p q Hq) as Hb.
  rewrite Z.abs_mul. split.
  - rewrite (Z.mul_comm (Z.abs (Z.quot p q))). lia.
  - replace (p - Z.quot p q * q) with (Z.rem p q) by lia. exact Hb.
Qed.

Lemma IsZero_safe (a : Amount) : IsZero a = (safe a =? 0).
Proof.
  unfold IsZero, safe. destruct (val a) as [v|]; [|reflexivity].
  now destruct v.
Qed.

Lemma safe_mk (v : Z) : safe {| val := Some v |} = v.
Proof. reflexivity. Qed.

(** X1: [Mul] is exact up to truncation toward zero: the product of the raw
    values is the raw result times [Precision] plus a remainder smaller
    than [Precision] in size and of the sign of the product.  [Mul] is
    commutative and commutes with [Neg]. *)
Theorem Mul_truncates_toward_zero (a o : Amount) :
  Z.abs (safe (Mul a o) * Precision) <= Z.abs (safe a * safe o) /\
  Z.abs (safe a * safe o - safe (Mul a o) * Precision) < Precision /\
  Mul a o = Mul o a /\
  Mul (Neg a) o = Neg (Mul a o).
Proof.
  assert (HP : Precision <> 0) by discriminate.
  destruct (quot_truncates (safe a * safe o) Precision HP) as [H1 H2].
  unfold Mul, Neg, precisionBig; simpl. repeat split.
  - exact H1.
  - exact H2.
  - f_equal. f_equal. f_equal. apply Z.mul_comm.
  - unfold safe at 1 3; simpl. f_equal. f_equal.
    rewrite Z.mul_opp_l. now apply Z.quot_opp_l.
Qed.

(** X2: multiplying or dividing by an amount whose raw value is
    [Precision] (the amount 1) gives back the same value; dividing an
    amount that is not zero by itself gives 1. *)
Theorem Mul_Div_unit (a u : Amount) :
  safe u = Precision ->
  safe (Mul a u) = safe a /\ safe (Mul u a) = safe a /\
  safe (Div a u) = safe a /\
  (IsZero a = false -> safe (Div a a) = Precision).
Proof.
  intros Hu.
  assert (HP : Precision <> 0) by discriminate.
  assert (Hz : IsZero u = false) by (rewrite IsZero_safe, Hu; reflexivity).
  unfold Mul, Div, precisionBig. rewrite Hz, !safe_mk, Hu. repeat split.
  - now apply Z.quot_mul.
  - rewrite Z.mul_comm. now apply Z.quot_mul.
  - now apply Z.quot_mul.
  - intros Ha. rewrite Ha, safe_mk, Z.mul_comm. apply Z.quot_mul.
    rewrite IsZero_safe in Ha. now apply Z.eqb_neq.
Qed.

Lemma Mul_Div_unit_witness :
  safe (Mul {| val := Some (-2500000) |} {| val := Some 1000000 |}) = -2500000
  /\ safe (Div {| val := Some 7 |} {| val := Some 7 |}) = Precision.
Proof.
  destruct (Mul_Div_unit {| val := Some (-2500000) |}
              {| val := Some 1000000 |} eq_refl) as (H1 & _).
  destruct (Mul_Div_unit {| val := Some 7 |}
              {| val := Some 1000000 |} eq_refl) as (_ & _ & _ & H2).
  split; [exact H1|exact (H2 eq_refl)].
Defined.


(** X3: [Div] never fails: a divisor that is zero, the nil zero value
    included, gives [Zero]; otherwise the quotient is truncated toward
    zero, so that quotient times divisor differs from the dividend scaled
    by [Precision] by less than the divisor, in size. *)
Theorem Div_truncates_or_zero (a o : Amount) :
  (safe o = 0 -> Div a o = Zero) /\
  (safe o <> 0 ->
   Z.abs (safe a * Precision - safe (Div a o) * safe o) < Z.abs (safe o) /\
   Z.abs (safe (Div a o) * safe o) <= Z.abs (safe a * Precision)).
Proof.
  unfold Div. rewrite IsZero_safe. split; intros Ho.
  - rewrite Ho. reflexivity.
  - apply Z.eqb_neq in Ho. rewrite Ho. simpl. apply Z.eqb_neq in Ho.
    unfold precisionBig.
    destruct (quot_truncates (safe a * Precision) (safe o) Ho) as [H1 H2].
    split; [exact H2|exact H1].
Qed.

Lemma Div_truncates_or_zero_witness :
  Div {| val := Some 5 |} {| val := None |} = Zero /\
  Z.abs (safe {| val := Some 1000000 |} * Precision -
         safe (Div {| val := Some 1000000 |} {| val := Some (-3000000) |}) *
         safe {| val := Some (-3000000) |}) < 3000000.
Proof.
  destruct (Div_truncates_or_zero {| val := Some 5 |} {| val := None |})
    as [H1 _].
  destruct (Div_truncates_or_zero {| val := Some 1000000 |}
              {| val := Some (-3000000) |}) as [_ H2].
  split; [exact (H1 eq_refl)|].
  destruct H2 as [H2 _]; [discriminate|exact H2].
Defined.

(** X4: [DivBy] undoes [MulBy] for a factor other than 0, and [MulBy] undoes
    [DivBy] up to the truncation, which is smaller than the factor; with
    the factor 0 both give [Zero]. *)
Theorem MulBy_DivBy (a : Amount) (k : Z) :
  (k <> 0 ->
   safe (DivBy (MulBy a k) k) = safe a /\
   Z.abs (safe a - safe (MulBy (DivBy a k) k)) < Z.abs k) /\
  (k = 0 -> MulBy a k = Zero /\ DivBy a k = Zero).
Proof.
  unfold MulBy, DivBy. split; intros Hk.
  - apply Z.eqb_neq in Hk. rewrite Hk. simpl. apply Z.eqb_neq in Hk. split.
    + now apply Z.quot_mul.
    + destruct (quot_truncates (safe a) k Hk) as [_ H2]. exact H2.
  - subst k. split; reflexivity.
Qed.

Lemma MulBy_DivBy_witness :
  safe (DivBy (MulBy {| val := Some 1234567 |} (-3)) (-3)) = 1234567 /\
  DivBy {| val := Some 1234567 |} 0 = Zero.
Proof.
  destruct (MulBy_DivBy {| val := Some 1234567 |} (-3)) as [H1 _].
  destruct (MulBy_DivBy {| val := Some 1234567 |} 0) as [_ H2].
  split; [apply H1; discriminate|apply H2; reflexivity].
Defined.

(** [Add], [Sub] and [Neg] are exact: [Sub] undoes [Add], [Add] is
    commutative and associative, [Sub] is [Add] of the negation, and an
    amount plus its negation is zero. *)
Lemma Add_Sub_exact (a o c : Amount) :
  safe (Sub (Add a o) o) = safe a /\
  Add a o = Add o a /\
  Add (Add a o) c = Add a (Add o c) /\
  Sub a o = Add a (Neg o) /\
  IsZero (Add a (Neg a)) = true /\
  Neg (Neg a) = {| val := Some (safe a) |}.
Proof.
  unfold Add, Sub, Neg, IsZero. rewrite !safe_mk. cbn [val].
  repeat split; try (f_equal; f_equal; lia).
Qed.

(** X5: [Cmp] is the order of the raw values: it is antisymmetric, it is the
    sign of the difference, and the five predicates are the comparisons of
    the raw values. *)
Theorem Cmp_is_order (a o : Amount) :
  Cmp a o = - Cmp o a /\
  Cmp a o = Sign (Sub a o) /\
  (Equals a o = true <-> safe a = safe o) /\
  (Less a o = true <-> safe a < safe o) /\
  (Greater a o = true <-> safe o < safe a) /\
  (LessOrEqual a o = true <-> safe a <= safe o) /\
  (GreaterOrEqual a o = true <-> safe o <= safe a).
Proof.
  unfold Equals, Less, Greater, LessOrEqual, GreaterOrEqual, Cmp, Sign, Sub.
  simpl. rewrite (Z.compare_antisym (safe a) (safe o)).
  destruct (Z.compare_spec (safe a) (safe o)) as [H|H|H]; simpl;
    repeat split; try reflexivity; try lia; try discriminate;
    try (intros _; lia).
Qed.

Lemma Abs_safe (a : Amount) : safe (Abs a) = Z.abs (safe a).
Proof.
  destruct a as [[[|p|p]|]]; reflexivity.
Qed.

(** X6: [Abs] gives the absolute value: its raw value is the absolute value
    of the raw value, its sign is never negative, and it is idempotent. *)
Theorem Abs_is_absolute_value (a : Amount) :
  safe (Abs a) = Z.abs (safe a) /\
  0 <= Sign (Abs a) /\
  Abs (Abs a) = Abs a.
Proof.
  destruct a as [[[|p|p]|]]; unfold Abs, Sign, Neg, safe; simpl;
    repeat split; try lia; reflexivity.
Qed.

(** *** Text *)

Lemma append_assoc (s t u : string) :
  append (append s t) u = append s (append t u).
Proof.
  induction s as [|c s IH]; simpl; [reflexivity|now rewrite IH].
Qed.

Lemma sgn_eqb_0 (z : Z) : (Z.sgn z =? 0) = (z =? 0).
Proof. now destruct z. Qed.

Lemma sgn_ltb_0 (z : Z) : (Z.sgn z <? 0) = (z <? 0).
Proof. now destruct z. Qed.

Lemma bigString_opp (q : Z) :
  0 < q -> bigString (- q) = String "-" (bigString q).
Proof.
  destruct q as [|p|p]; try discriminate. reflexivity.
Qed.

(** The text of [String] for a raw value that is not 0: the digits of the
    integer part, signed like the raw value, and the fraction if any. *)
Lemma String_nonzero (a : Amount) :
  safe a <> 0 ->
  String_ a =
  let q := Z.quot (Z.abs (safe a)) Precision in
  let r := Z.abs (safe a) mod Precision in
  let s := bigString (if safe a <? 0 then - q else q) in
  if r =? 0 then s else append s (append "." (fraction r)).
Proof.
  intros Hv. unfold String_. rewrite IsZero_safe.
  apply Z.eqb_neq in Hv. rewrite Hv. cbv zeta.
  now rewrite sgn_eqb_0, sgn_ltb_0.
Qed.

(** X8: [String] of a negative amount is the text of its absolute value
    with a minus sign in front only when the size is at least 1: for a
    size below 1 the minus sign is missing, and the text is that of the
    positive amount. *)
Theorem String_sign (a : Amount) :
  0 < safe a ->
  String_ (Neg a) =
  if safe a <? Precision then String_ a else String "-" (String_ a).
Proof.
  intros Hv.
  rewrite (String_nonzero (Neg a)), (String_nonzero a);
    unfold Neg; rewrite ?safe_mk; try lia.
  rewrite Z.abs_opp. cbv zeta.
  replace (- safe a <? 0) with true by (symmetry; apply Z.ltb_lt; lia).
  replace (safe a <? 0) with false by (symmetry; apply Z.ltb_ge; lia).
  rewrite (Z.abs_eq (safe a)) by lia.
  destruct (safe a <? Precision) eqn:E.
  - apply Z.ltb_lt in E. rewrite Z.quot_small by lia. reflexivity.
  - apply Z.ltb_ge in E.
    assert (Hq : 0 < Z.quot (safe a) Precision).
    { apply Z.quot_str_pos. unfold Precision in *. lia. }
    rewrite (bigString_opp _ Hq).
    destruct (safe a mod Precision =? 0); reflexivity.
Qed.

Lemma String_sign_witness :
  String_ (Neg {| val := Some 500000 |}) = "0.5"%string /\
  String_ (Neg {| val := Some 1500000 |}) = "-1.5"%string.
Proof.
  pose proof (String_sign {| val := Some 500000 |} eq_refl) as H1.
  pose proof (String_sign {| val := Some 1500000 |} eq_refl) as H2.
  split; [rewrite H1|rewrite H2]; reflexivity.
Defined.

(** X9: an amount that is a whole number prints as that number, with no
    decimal point: the zero value and 0 print as 0. *)
Theorem String_whole (a : Amount) (k : Z) :
  safe a = k * Precision -> String_ a = bigString k.
Proof.
  intros Hk. destruct (Z.eq_dec k 0) as [->|Hk0].
  - unfold String_. rewrite IsZero_safe, Hk. reflexivity.
  - rewrite String_nonzero by (rewrite Hk; unfold Precision; lia).
    rewrite Hk. cbv zeta.
    rewrite Z.abs_mul, (Z.abs_eq Precision) by discriminate.
    rewrite Z.mod_mul, Z.quot_mul by discriminate. simpl.
    replace (k * Precision <? 0) with (k <? 0).
    + destruct (k <? 0) eqn:E; f_equal;
        [apply Z.ltb_lt in E|apply Z.ltb_ge in E]; lia.
    + unfold Precision. destruct (k <? 0) eqn:E; symmetry;
        [apply Z.ltb_lt in E; apply Z.ltb_lt|
         apply Z.ltb_ge in E; apply Z.ltb_ge]; lia.
Qed.

Lemma String_whole_witness :
  String_ {| val := Some (-42000000) |} = "-42"%string /\
  String_ {| val := None |} = "0"%string.
Proof.
  split.
  - exact (String_whole {| val := Some (-42000000) |} (-42) eq_refl).
  - exact (String_whole {| val := None |} 0 eq_refl).
Defined.

(** X10: [Percent] keeps the sign: the text for a negative amount is the
    text for its absolute value with a minus sign in front, also when the
    integer part is 0. *)
Theorem Percent_sign (a : Amount) :
  0 < safe a -> Percent (Neg a) = String "-" (Percent a).
Proof.
  intros Hv. unfold Percent. rewrite !IsZero_safe.
  unfold Neg. rewrite !safe_mk.
  replace (- safe a =? 0) with false by (symmetry; apply Z.eqb_neq; lia).
  replace (safe a =? 0) with false by (symmetry; apply Z.eqb_neq; lia).
  cbv zeta. rewrite !sgn_eqb_0, !sgn_ltb_0.
  replace (- safe a <? 0) with true by (symmetry; apply Z.ltb_lt; lia).
  replace (safe a <? 0) with false by (symmetry; apply Z.ltb_ge; lia).
  rewrite Z.mul_opp_l, Z.abs_opp.
  rewrite (Z.abs_eq (safe a * 100)) by lia. unfold precisionBig.
  set (q := Z.quot (safe a * 100) Precision).
  set (r := (safe a * 100) mod Precision).
  assert (Hq : 0 <= q) by (apply Z.quot_pos; [lia|reflexivity]).
  simpl andb.
  destruct (r =? 0) eqn:Er.
  - assert (0 < q).
    { apply Z.eqb_eq in Er. subst q r.
      pose proof (Z.div_mod (safe a * 100) Precision ltac:(discriminate)) as Hd.
      rewrite Er, Z.add_0_r in Hd.
      rewrite <- Z.quot_div_nonneg in Hd by (try reflexivity; lia).
      unfold Precision in *. lia. }
    now rewrite bigString_opp.
  - destruct (Z.eq_dec q 0) as [E|E].
    + rewrite E. reflexivity.
    + rewrite bigString_opp by lia. reflexivity.
Qed.

Lemma Percent_sign_witness :
  Percent (Neg {| val := Some 5000 |}) = "-0.5%"%string /\
  Percent (Neg {| val := Some 500000 |}) = "-50%"%string.
Proof.
  pose proof (Percent_sign {| val := Some 5000 |} eq_refl) as H1.
  pose proof (Percent_sign {| val := Some 500000 |} eq_refl) as H2.
  split; [rewrite H1|rewrite H2]; reflexivity.
Defined.

(** X11: for an amount that is not negative, [Percent] is [String] of the
    amount times 100, followed by the percent sign. *)
Theorem Percent_is_String_of_hundredfold (a : Amount) :
  0 <= safe a -> Percent a = append (String_ (MulBy a 100)) "%".
Proof.
  intros Hv. unfold Percent, String_, MulBy. simpl (100 =? 0).
  rewrite !IsZero_safe, !safe_mk.
  destruct (safe a =? 0) eqn:E.
  - apply Z.eqb_eq in E. rewrite E. reflexivity.
  - apply Z.eqb_neq in E.
    replace (safe a * 100 =? 0) with false by (symmetry; apply Z.eqb_neq; lia).
    cbv zeta. rewrite !sgn_ltb_0.
    replace (safe a <? 0) with false by (symmetry; apply Z.ltb_ge; lia).
    replace (safe a * 100 <? 0) with false by (symmetry; apply Z.ltb_ge; lia).
    simpl andb.
    destruct (Z.sgn (Z.abs (safe a * 100) mod precisionBig) =? 0);
      [reflexivity|].
    now rewrite !append_assoc.
Qed.

Lemma Percent_is_String_of_hundredfold_witness :
  Percent {| val := Some 1234500 |} = "123.45%"%string.
Proof.
  rewrite (Percent_is_String_of_hundredfold {| val := Some 1234500 |});
    [reflexivity|discriminate].
Defined.

(** *** JSON and database values *)

Lemma digits_plain (d : Decimal.uint) : plain (NilEmpty.string_of_uint d) = true.
Proof.
  induction d; simpl; auto.
Qed.

(** The digits of a number start with a digit. *)
Lemma digits_head (d : Decimal.uint) :
  d <> Decimal.Nil ->
  exists c rest,
    NilEmpty.string_of_uint d = String c rest /\
    Ascii.eqb c "-" = false /\ Ascii.eqb c "+" = false /\
    Ascii.eqb c "n" = false.
Proof.
  destruct d; [contradiction|..]; intros _; simpl;
    eexists; eexists; repeat split; reflexivity.
Qed.

Lemma digits_value_digits (p : positive) :
  digits_value (NilEmpty.string_of_uint (Pos.to_uint p)) = Some (Z.pos p).
Proof.
  unfold digits_value.
  destruct (digits_head (Pos.to_uint p) (Unsigned.to_uint_nonnil p))
    as (c & rest & E & _).
  rewrite E, <- E, NilEmpty.usu. simpl. unfold Z.of_uint.
  now rewrite Unsigned.of_to.
Qed.

Lemma bigString_pos (p : positive) :
  bigString (Z.pos p) = NilEmpty.string_of_uint (Pos.to_uint p).
Proof.
  unfold bigString. simpl. unfold NilZero.string_of_uint.
  pose proof (Unsigned.to_uint_nonnil p).
  now destruct (Pos.to_uint p).
Qed.

(** [SetString] reads back what [big.Int.String] prints. *)
Lemma SetString_bigString (z : Z) : SetString (bigString z) = Some z.
Proof.
  destruct z as [|p|p].
  - reflexivity.
  - rewrite bigString_pos.
    destruct (digits_head (Pos.to_uint p) (Unsigned.to_uint_nonnil p))
      as (c & rest & E & Hm & Hp & _).
    unfold SetString. rewrite E, Hm, Hp, <- E. apply digits_value_digits.
  - change (bigString (Z.neg p)) with (String "-" (bigString (Z.pos p))).
    rewrite bigString_pos. unfold SetString.
    change (Ascii.eqb "-" "-") with true. cbv iota.
    now rewrite digits_value_digits.
Qed.

(** The text of a number is not empty, is not [null] and holds no double
    quote. *)
Lemma bigString_shape (z : Z) :
  plain (bigString z) = true /\ String.eqb (bigString z) "" = false /\
  String.eqb (bigString z) "null" = false /\
  exists c rest, bigString z = String c rest.
Proof.
  destruct z as [|p|p].
  - repeat split. eexists; eexists; reflexivity.
  - rewrite bigString_pos.
    destruct (digits_head (Pos.to_uint p) (Unsigned.to_uint_nonnil p))
      as (c & rest & E & _ & _ & Hn).
    split; [apply digits_plain|]. rewrite E. simpl. rewrite Hn.
    repeat split. eauto.
  - change (bigString (Z.neg p)) with (String "-" (bigString (Z.pos p))).
    rewrite bigString_pos. simpl. rewrite digits_plain.
    repeat split. eauto.
Qed.

Lemma TrimRight_plain (s : string) :
  plain s = true -> TrimRight s dquote = s.
Proof.
  induction s as [|c s IH]; simpl; [reflexivity|].
  intros H. apply andb_true_iff in H. destruct H as [Hc Hs].
  rewrite (IH Hs). destruct s; [|reflexivity].
  apply negb_true_iff in Hc. now rewrite Hc.
Qed.

Lemma TrimRight_app_cut (s : string) (cut : ascii) :
  TrimRight (append s (String cut EmptyString)) cut = TrimRight s cut.
Proof.
  induction s as [|c s IH]; simpl.
  - now rewrite Ascii.eqb_refl.
  - now rewrite IH.
Qed.

(** [Trim] takes the quotes off a quoted text without quotes inside. *)
Lemma Trim_quoted (s : string) :
  plain s = true -> s <> EmptyString ->
  Trim (String dquote (append s (String dquote EmptyString))) dquote = s.
Proof.
  intros Hp Hs. unfold Trim.
  change (String dquote (append s (String dquote EmptyString)))
    with (append (String dquote s) (String dquote EmptyString)).
  rewrite TrimRight_app_cut. simpl TrimRight.
  rewrite (TrimRight_plain s Hp).
  destruct s as [|c s]; [congruence|].
  simpl. rewrite ?Ascii.eqb_refl.
  simpl in Hp. apply andb_true_iff in Hp. destruct Hp as [Hc _].
  apply negb_true_iff in Hc. now rewrite Hc.
Qed.

Lemma Trim_plain (s : string) :
  plain s = true -> Trim s dquote = s.
Proof.
  intros Hp. unfold Trim. rewrite (TrimRight_plain s Hp).
  destruct s as [|c s]; [reflexivity|].
  simpl in *. apply andb_true_iff in Hp. destruct Hp as [Hc _].
  apply negb_true_iff in Hc. now rewrite Hc.
Qed.

Lemma Unmarshal_Marshal (a r : Amount) :
  UnmarshalJSON r (fst (MarshalJSON a)) = ({| val := Some (safe a) |}, None).
Proof.
  destruct (bigString_shape (safe a)) as (Hp & He & Hn & c & rest & E).
  unfold UnmarshalJSON, MarshalJSON. cbn [fst].
  rewrite Trim_quoted; [|exact Hp|rewrite E; discriminate].
  now rewrite He, Hn, SetString_bigString.
Qed.

(** X12: [UnmarshalJSON] reads back what [MarshalJSON] writes: whatever the
    receiver held, it holds the raw value of the marshalled amount (0 for
    the nil zero value) and no error is returned. *)
Theorem JSON_round_trip (a r : Amount) :
  snd (MarshalJSON a) = None /\
  UnmarshalJSON r (fst (MarshalJSON a)) = ({| val := Some (safe a) |}, None).
Proof.
  split; [reflexivity|apply Unmarshal_Marshal].
Qed.

(** X13: two amounts have the same JSON text exactly when [Equals] holds: the
    nil zero value and 0 are written alike, and different values are
    written differently. *)
Theorem MarshalJSON_canonical (a o : Amount) :
  fst (MarshalJSON a) = fst (MarshalJSON o) <-> Equals a o = true.
Proof.
  split.
  - intros H.
    pose proof (Unmarshal_Marshal a a) as Ha.
    pose proof (Unmarshal_Marshal o a) as Ho.
    rewrite H, Ho in Ha. inversion Ha as [Hv].
    unfold Equals, Cmp. rewrite Hv, Z.compare_refl. reflexivity.
  - intros H. unfold Equals, Cmp in H.
    destruct (Z.compare_spec (safe a) (safe o)) as [E|E|E];
      try discriminate.
    unfold MarshalJSON. cbn [fst]. now rewrite E.
Qed.

(** X14: [Scan] reads back what [Value] gives, as a string or as bytes; it
    takes a value of each of the three integer types, [int64], [uint64]
    and [int], as it is, and nil as 0; for any other type it returns an
    error and leaves the receiver as it was. *)
Theorem Scan_Value_round_trip (a r : Amount) :
  snd (Value a) = None /\
  Scan r (fst (Value a)) = ({| val := Some (safe a) |}, None) /\
  Scan r (Bytes (bigString (safe a))) = ({| val := Some (safe a) |}, None) /\
  (forall v, Scan r (AnyInt64 v) = ({| val := Some v |}, None)) /\
  (forall v, Scan r (AnyUint64 v) = ({| val := Some v |}, None)) /\
  (forall v, Scan r (AnyInt v) = ({| val := Some v |}, None)) /\
  Scan r Nil = ({| val := Some 0 |}, None) /\
  (forall type, fst (Scan r (Other type)) = r /\
                snd (Scan r (Other type)) <> None).
Proof.
  unfold Scan, Value, scanBigInt. cbn [fst snd].
  rewrite SetString_bigString. repeat split. discriminate.
Qed.

(** X15: [UnmarshalJSON] takes a number with or without surrounding quotes,
    and with a plus sign in either form; text that is not a number is an
    error that leaves the receiver as it was; the empty text, the empty
    quoted text and [null] give 0. *)
Theorem UnmarshalJSON_accepts (r : Amount) (z : Z) :
  UnmarshalJSON r (bigString z) = ({| val := Some z |}, None) /\
  UnmarshalJSON r
    (String dquote (append (bigString z) (String dquote EmptyString)))
    = ({| val := Some z |}, None) /\
  (0 <= z ->
   UnmarshalJSON r (String "+" (bigString z)) = ({| val := Some z |}, None)) /\
  (0 <= z ->
   UnmarshalJSON r
     (String dquote
        (append (String "+" (bigString z)) (String dquote EmptyString)))
     = ({| val := Some z |}, None)) /\
  UnmarshalJSON r "null" = ({| val := Some 0 |}, None) /\
  UnmarshalJSON r "" = ({| val := Some 0 |}, None) /\
  UnmarshalJSON r (String dquote (String dquote EmptyString))
    = ({| val := Some 0 |}, None) /\
  (forall s, plain s = true -> s <> EmptyString -> s <> "null"%string ->
             SetString s = None ->
             fst (UnmarshalJSON r s) = r /\ snd (UnmarshalJSON r s) <> None).
Proof.
  destruct (bigString_shape z) as (Hp & He & Hn & c & rest & E).
  assert (Hpp : plain (String "+" (bigString z)) = true)
    by (simpl; now rewrite Hp).
  assert (Hplus : 0 <= z -> SetString (String "+" (bigString z)) = Some z).
  { intros Hz.
    assert (Hd : digits_value (bigString z) = Some z).
    { destruct z as [|p|p]; try lia; [reflexivity|].
      rewrite bigString_pos. apply digits_value_digits. }
    unfold SetString. change (Ascii.eqb "+" "-") with false.
    change (Ascii.eqb "+" "+") with true. cbv iota. exact Hd. }
  split; [|split; [|split; [|split; [|split; [|split; [|split]]]]]].
  - unfold UnmarshalJSON. rewrite (Trim_plain _ Hp), He, Hn.
    now rewrite SetString_bigString.
  - unfold UnmarshalJSON.
    rewrite Trim_quoted; [|exact Hp|rewrite E; discriminate].
    now rewrite He, Hn, SetString_bigString.
  - intros Hz. unfold UnmarshalJSON. rewrite (Trim_plain _ Hpp).
    change (String.eqb (String "+" (bigString z)) "") with false.
    change (String.eqb (String "+" (bigString z)) "null") with false.
    simpl orb. cbv iota. now rewrite (Hplus Hz).
  - intros Hz. unfold UnmarshalJSON.
    rewrite Trim_quoted; [|exact Hpp|discriminate].
    change (String.eqb (String "+" (bigString z)) "") with false.
    change (String.eqb (String "+" (bigString z)) "null") with false.
    simpl orb. cbv iota. now rewrite (Hplus Hz).
  - reflexivity.
  - reflexivity.
  - reflexivity.
  - intros s Hs Hne Hnn Hnone. unfold UnmarshalJSON.
    rewrite (Trim_plain s) by assumption.
    apply String.eqb_neq in Hne, Hnn. rewrite Hne, Hnn, Hnone.
    split; [reflexivity|discriminate].
Qed.

(** The plus sign and the quotes are taken off; a decimal point is refused
    and the receiver keeps its 7. *)
Lemma UnmarshalJSON_accepts_witness :
  UnmarshalJSON Zero "+15" = ({| val := Some 15 |}, None) /\
  UnmarshalJSON Zero
    (String dquote (append "+15" (String dquote EmptyString)))
    = ({| val := Some 15 |}, None) /\
  fst (UnmarshalJSON {| val := Some 7 |} "1.5") = {| val := Some 7 |}.
Proof.
  destruct (UnmarshalJSON_accepts Zero 15) as (_ & _ & H1 & H1q & _).
  destruct (UnmarshalJSON_accepts {| val := Some 7 |} 0)
    as (_ & _ & _ & _ & _ & _ & _ & H2).
  split; [exact (H1 ltac:(discriminate))|].
  split; [exact (H1q ltac:(discriminate))|].
  apply (H2 "1.5"%string); [reflexivity|discriminate|discriminate|reflexivity].
Defined.

(** *** The zero value *)

Lemma Equals_safe (a o : Amount) : Equals a o = true <-> safe a = safe o.
Proof.
  unfold Equals, Cmp.
  destruct (Z.compare_spec (safe a) (safe o)); split; intros; try lia;
    try discriminate; reflexivity.
Qed.

(** X7: every operation sees an amount only through its raw value, so
    amounts that [Equals] identifies cannot be told apart: the arithmetic
    gives equal results, and the comparisons, the tests and the texts are
    the same.  In particular the zero value [Amount{}], whose pointer is
    nil, behaves as 0 everywhere. *)
Theorem Equals_is_congruence (a a' o o' : Amount) (k : Z) :
  Equals a a' = true -> Equals o o' = true ->
  Add a o = Add a' o' /\ Sub a o = Sub a' o' /\ Mul a o = Mul a' o' /\
  Div a o = Div a' o' /\ MulBy a k = MulBy a' k /\ DivBy a k = DivBy a' k /\
  Neg a = Neg a' /\ Equals (Abs a) (Abs a') = true /\
  Cmp a o = Cmp a' o' /\ IsZero a = IsZero a' /\ Sign a = Sign a' /\
  String_ a = String_ a' /\ Percent a = Percent a' /\
  MarshalJSON a = MarshalJSON a' /\ Value a = Value a'.
Proof.
  intros Ha Ho. apply Equals_safe in Ha, Ho.
  assert (Hs : forall x, Sign x = Z.sgn (safe x))
    by (intros [[v|]]; reflexivity).
  unfold Add, Sub, Mul, Div, MulBy, DivBy, Neg, Cmp, String_, Percent,
    MarshalJSON, Value.
  rewrite !IsZero_safe, !Hs, Ha, Ho. repeat split.
  apply Equals_safe. now rewrite !Abs_safe, Ha.
Qed.

Lemma Equals_is_congruence_witness :
  Add {| val := None |} {| val := Some 5 |} = Add Zero {| val := Some 5 |} /\
  String_ {| val := None |} = String_ Zero /\
  MarshalJSON {| val := None |} = MarshalJSON Zero.
Proof.
  destruct (Equals_is_congruence {| val := None |} Zero {| val := Some 5 |}
              {| val := Some 5 |} 1 eq_refl eq_refl)
    as (H1 & _ & _ & _ & _ & _ & _ & _ & _ & _ & _ & H2 & _ & H3 & _).
  auto.
Defined.

End AmountFacts.
